(** * LeakFuzzer: the diversity-driven corpus core of [afl-fuzz-bitmap.c]

    A shallow embedding of the routines of [src/afl-fuzz-bitmap.c] that
    classify traces, score sets of inputs (normalised Levenshtein, NCDm),
    maintain the per-edge cells and the input-hash index, and of the control
    flow of [save_if_interesting] around [res].

    Conventions.
    - Machine integers ([u8], [u32], [u64], [size_t]) are [Z]; wrap-around is
      written out where the code can reach it.
    - A byte buffer is a [list Z] of values in [0,255]; a nullable buffer is
      an [option].
    - [float] is IEEE binary32, taken from the standard library's
      [SpecFloat] at precision 24 and maximal exponent 128.
    - A pointer to a [struct queue_entry] is a [qptr]: either a slot of
      [queue_buf] or the entry that [save_if_interesting] builds on its
      stack.
    - [FATAL]/[PFATAL] and memory faults end a call; they are the [Fatal] and
      [Crash] outcomes of [result].
    - The build modelled is the default 64-bit one: [WORD_SIZE_64] defined,
      [PATH_DIVERSITY], [LEVENSHTEIN_DIST] and [NOISY] not defined.
    - Files are not modelled: [open], [ck_write], [rename] are taken to
      succeed, and file names are left out of [queue_entry]. *)

From Stdlib Require Import ZArith Lia Bool.
From Stdlib Require Import Floats.SpecFloat.
From stdpp Require Import base numbers option list gmap.

Local Open Scope Z_scope.

(* ===================================================================== *)
(** * Part I: definitions                                                 *)
(* ===================================================================== *)

(** ** Outcomes of a call *)

(** The [FATAL]/[PFATAL] sites of the file, by what they report. *)
Inductive fatal_kind :=
  | FatalNormDistOutOfRange      (* "got norm dist ..." *)
  | FatalNoNewCoverage           (* "failed to find an entry providing new coverage" *)
  | FatalTooManyEntries          (* "Cannot handle more than 32 entries" *)
  | FatalFoundHashMismatch       (* "found->hash ... != evictee->input_hash ..." *)
  | FatalMissingQueueInputHash   (* "Failed to find queue_input_hash for ..." *)
  | FatalEntryNotInBucket        (* "Failed to find this queue_entry[..] in list of found->inputs" *)
  | FatalCompressFailed          (* "compressedLen failed!" *)
  | FatalRunError.               (* "Unable to execute target application" *)

(** Undefined behaviour the code can reach. *)
Inductive crash_kind :=
  | NullDeref                    (* read through a NULL pointer *)
  | OutOfBounds                  (* array index past its allocation *)
  | UninitRead.                  (* read of a variable never assigned *)

Inductive result (A : Type) :=
  | Ok (a : A)
  | Fatal (k : fatal_kind)
  | Crash (c : crash_kind).
Arguments Ok {A} a.
Arguments Fatal {A} k.
Arguments Crash {A} c.

Definition rbind {A B : Type} (m : result A) (k : A -> result B) : result B :=
  match m with
  | Ok a => k a
  | Fatal f => Fatal f
  | Crash c => Crash c
  end.

Notation "'do' x <- m ; k" := (rbind m (fun x => k))
  (at level 10, x pattern, m at level 100, k at level 200).

(** A loop over a list whose body may end the call. *)
Fixpoint foldM {A S : Type} (body : S -> A -> result S) (l : list A) (s : S)
  : result S :=
  match l with
  | [] => Ok s
  | a :: l' => do s' <- body s a; foldM body l' s'
  end.

(** Dereference of a nullable pointer. *)
Definition deref {A : Type} (p : option A) : result A :=
  match p with
  | Some a => Ok a
  | None => Crash NullDeref
  end.

(** ** Machine integers *)

Definition UINT32_MAX : Z := 4294967295.
Definition UINT64_MAX : Z := 18446744073709551615.
Definition wrap32 (z : Z) : Z := z mod 4294967296.
Definition wrap64 (z : Z) : Z := z mod 18446744073709551616.

Definition is_byte (v : Z) : Prop := 0 <= v < 256.

(** Read of [buf[i]] for an index the code keeps in range; the default is
    never observed on such reads. *)
Definition rd (buf : list Z) (i : nat) : Z := nth i buf 0.

(** ** BitmapOps: the lookup tables *)

(** [simplify_lookup]: [[0] = 1, [1] = TIMES255(128)]. *)
Definition simplify_lookup : list Z := [1] ++ replicate 255 128.

(** [count_class_lookup8], with its designated ranges. *)
Definition count_class_lookup8 : list Z :=
  [0; 1; 2; 4]          (* [0] [1] [2] [3] *)
  ++ replicate 4 8      (* [4 ... 7]       *)
  ++ replicate 8 16     (* [8 ... 15]      *)
  ++ replicate 16 32    (* [16 ... 31]     *)
  ++ replicate 96 64    (* [32 ... 127]    *)
  ++ replicate 128 128. (* [128 ... 255]   *)

(** [table[v]] for a [u8] index. *)
Definition lookup8 (table : list Z) (v : Z) : Z := rd table (Z.to_nat v).

(** [init_count_class16]: entry [(b1 << 8) + b2] of [count_class_lookup16]. *)
Definition count_class_lookup16 (v : Z) : Z :=
  let b1 := Z.shiftr v 8 in
  let b2 := Z.land v 255 in
  Z.lor (Z.shiftl (lookup8 count_class_lookup8 b1) 8)
        (lookup8 count_class_lookup8 b2).

(** Modelled from the spec: [classify_counts] lives in [coverage-64.h], which
    is not part of the sources; the spec has it map each byte of the trace
    through the bucketing table, in place. *)
Definition classify_counts (trace : list Z) : list Z :=
  map (lookup8 count_class_lookup8) trace.

(** [while ((class >> reps) > 1) reps++;] for a [u8] class: at most seven
    rounds. *)
Fixpoint count_reps (fuel : nat) (class reps : Z) : Z :=
  match fuel with
  | O => reps
  | S fuel' =>
      if 1 <? Z.shiftr class reps then count_reps fuel' class (reps + 1)
      else reps
  end.

Definition bucket_of_class (class : Z) : Z := count_reps 8 class 0.

(** [minimize_bits]: [dst] comes zeroed from [ck_alloc];
    [if ( *(src++)) dst[i >> 3] |= 1 << (i & 7)] for [i < map_size]. *)
Definition minimize_bits_step (src : list Z) (dst : list Z) (i : nat) : list Z :=
  if rd src i =? 0 then dst
  else
    let k := Z.to_nat (Z.shiftr (Z.of_nat i) 3) in
    <[k := Z.lor (rd dst k) (Z.shiftl 1 (Z.land (Z.of_nat i) 7))]> dst.

Definition minimize_bits (map_size : Z) (dst src : list Z) : list Z :=
  fold_left (minimize_bits_step src) (seq 0 (Z.to_nat map_size)) dst.

(** ** binary32 arithmetic *)

Definition float : Type := spec_float.
Definition f32_prec : Z := 24.
Definition f32_emax : Z := 128.

(** Conversion of an integer to [float], rounding to nearest even. *)
Definition f32_of_Z (z : Z) : float := binary_normalize f32_prec f32_emax z 0 false.
Definition f32_sub : float -> float -> float := SFsub f32_prec f32_emax.
Definition f32_div : float -> float -> float := SFdiv f32_prec f32_emax.
(** [a < b] and [a > b] of C; both are false on a NaN. *)
Definition f32_lt (a b : float) : bool := SFltb a b.
Definition f32_gt (a b : float) : bool := SFltb b a.
(** [a <= b] of C. *)
Definition f32_le (a b : float) : bool := SFleb a b.
Definition f32_zero : float := S754_zero false.
Definition f32_one : float := f32_of_Z 1.

(** ** Queue entries *)

(** [struct queue_entry] (declared in [afl-fuzz.h]): the fields this file
    reads or writes. [edge_entry_of] is the back pointer [edge_entry] to the owning cell,
    as a position in [edge_entries]. *)
Record queue_entry := mk_queue_entry {
  len : Z;
  testcase_buf : option (list Z);
  input_hash : Z;
  trace_mini : option (list Z);
  compressed_len : Z;
  exec_cksum : Z;
  edge_entry_of : option nat;
  depth : Z;
  cal_failed : Z;
  exec_us : Z;
  bitmap_size : Z;
  handicap : Z;
  favored : bool;
  ncdm_favored : bool;
  has_new_cov : bool;
  was_fuzzed : bool;
  fuzz_level : Z;
  duplicates : Z
}.

(** The first [len] bytes of a buffer, as [memcpy], [memcmp] and the
    compressor read them. *)
Definition buf_prefix (n : Z) (buf : list Z) : list Z := take (Z.to_nat n) buf.

(** ** DiversityMetric: normalised Levenshtein *)

Definition LEVMIN (a b c : Z) : Z :=
  if a <? b then (if a <? c then a else c) else (if b <? c then b else c).

(** Body of the loop over [j]: sets [matrix2[j+1]]. *)
Definition lev_inner_step (str_1 str_2 : list Z) (i : nat)
    (matrix1 matrix2 : list Z) (j : nat) : list Z :=
  let cost := if rd str_1 i =? rd str_2 j then 0 else 1 in
  <[S j := LEVMIN (wrap32 (rd matrix2 j + 1))
                  (wrap32 (rd matrix1 (S j) + 1))
                  (wrap32 (rd matrix1 j + cost))]> matrix2.

(** Body of the loop over [i]; the pair is [(matrix1, matrix2)], and the
    [memcpy] at its end makes both rows equal. *)
Definition lev_outer_step (str_1 str_2 : list Z) (len_2 : nat)
    (rows : list Z * list Z) (i : nat) : list Z * list Z :=
  let matrix2 := <[O := wrap32 (Z.of_nat i + 1)]> (snd rows) in
  let matrix2 :=
    fold_left (lev_inner_step str_1 str_2 i (fst rows))
              (seq 0 (len_2 - 1)) matrix2 in
  (matrix2, matrix2).

(** The two rows when the loops are done. [matrix2] is an uninitialised
    array in C; every cell of it is written before it is read, so the
    initial zeros are never observed. *)
Definition lev_rows (str_1 str_2 : list Z) (len_1 len_2 : nat)
  : list Z * list Z :=
  let matrix1 := map Z.of_nat (seq 0 len_2) in
  let matrix2 := replicate len_2 0 in
  let matrix2 := <[O := if rd str_1 0 =? rd str_2 0 then 0 else 1]> matrix2 in
  fold_left (lev_outer_step str_1 str_2 len_2) (seq 0 (len_1 - 1))
            (matrix1, matrix2).

(** [u32 edit_dist = matrix2[len_2 - 1]]. *)
Definition lev_edit_dist (str_1 str_2 : list Z) (len_1 len_2 : Z) : Z :=
  rd (snd (lev_rows str_1 str_2 (Z.to_nat len_1) (Z.to_nat len_2)))
     (Z.to_nat (len_2 - 1)).

Definition calc_normalised_levenshtein_dist
    (queue_entry_1 : queue_entry) (queue_entry_2 : option queue_entry)
  : result float :=
  match queue_entry_2 with
  | None => Ok f32_zero
  | Some queue_entry_2 =>
    if (len queue_entry_1 =? 0) || (len queue_entry_2 =? 0) then Ok f32_zero
    else
      do buf_1 <- deref (testcase_buf queue_entry_1);
      do buf_2 <- deref (testcase_buf queue_entry_2);
      if (len queue_entry_1 =? len queue_entry_2)
         && bool_decide (buf_prefix (len queue_entry_1) buf_1
                         = buf_prefix (len queue_entry_1) buf_2)
      then Ok f32_zero
      else
        let '(len_1, str_1, len_2, str_2) :=
          if len queue_entry_2 <? len queue_entry_1
          then (len queue_entry_1, buf_1, len queue_entry_2, buf_2)
          else (len queue_entry_2, buf_2, len queue_entry_1, buf_1) in
        if (len_1 =? 0) || (len_2 =? 0) then Ok f32_zero
        else
          let edit_dist := lev_edit_dist str_1 str_2 len_1 len_2 in
          let norm_dist :=
            f32_div (f32_of_Z (wrap64 (len_1 - edit_dist))) (f32_of_Z len_1) in
          if f32_gt norm_dist f32_one || f32_lt norm_dist f32_zero
          then Fatal FatalNormDistOutOfRange
          else Ok norm_dist
  end.

(** The classical Levenshtein edit distance of two byte strings, by its
    textbook recursion; what the spec calls [edit_dist]. *)
Fixpoint levenshtein (s t : list Z) : Z :=
  match s with
  | [] => Z.of_nat (length t)
  | a :: s' =>
      (fix against (t : list Z) : Z :=
         match t with
         | [] => Z.of_nat (length s)
         | b :: t' =>
             LEVMIN (levenshtein s' t + 1)
                    (against t' + 1)
                    (levenshtein s' t' + (if a =? b then 0 else 1))
         end) t
  end.

(** The value the spec gives for two non-empty, different testcases:
    [(len_longer - edit_dist) / len_longer] with the classical distance. *)
Definition spec_normalised_levenshtein (a b : list Z) : float :=
  let len_longer := Z.max (Z.of_nat (length a)) (Z.of_nat (length b)) in
  f32_div (f32_of_Z (len_longer - levenshtein a b)) (f32_of_Z len_longer).

(** A queue entry that holds [buf] and nothing else, as the zeroed
    allocation of [add_to_queue] followed by the copy of the testcase. *)
Definition entry_of_bytes (buf : list Z) : queue_entry :=
  {| len := Z.of_nat (length buf); testcase_buf := Some buf; input_hash := 0;
     trace_mini := None; compressed_len := 0; exec_cksum := 0;
     edge_entry_of := None; depth := 0; cal_failed := 0; exec_us := 0;
     bitmap_size := 0; handicap := 0; favored := false; ncdm_favored := false;
     has_new_cov := false; was_fuzzed := false; fuzz_level := 0;
     duplicates := 0 |}.

(** ** External collaborators of the diversity metric *)

(** [hash64] (with the fixed seed [HASH_CONST]), the LZ4 entry points of
    [lz4.h] and [queue_testcase_get] are not part of this file.
    [LZ4_compress_default src cap] is the size written for source [src]
    into a destination of capacity [cap], or 0 when it does not fit. *)
Class Compressor := {
  hash64 : list Z -> Z;
  LZ4_compress_default : list Z -> Z -> Z;
  LZ4_compressBound : Z -> Z;
  queue_testcase_get : queue_entry -> list Z
}.

(** What [lz4.h] documents: with a destination of at least
    [LZ4_compressBound(srcSize)] bytes compression succeeds, and its result
    does not depend on the spare capacity; sizes are those of an [int] that
    is not negative; the bound grows with the source size, up to the
    largest source the library takes. *)
Class CompressorLaws (X : Compressor) : Prop := {
  LZ4_enough_capacity : forall src cap,
    LZ4_compressBound (Z.of_nat (length src)) <= cap ->
    LZ4_compress_default src cap
    = LZ4_compress_default src (LZ4_compressBound (Z.of_nat (length src)));
  LZ4_size_range : forall src cap,
    0 <= LZ4_compress_default src cap <= 2147483647;
  LZ4_compressBound_mono : forall a b,
    0 <= a <= b -> b <= 2113929216 (* LZ4_MAX_INPUT_SIZE *) ->
    LZ4_compressBound a <= LZ4_compressBound b;
  LZ4_compressBound_nonneg : 0 <= LZ4_compressBound 0
}.

(** ** Pointers to queue entries *)

Inductive qptr :=
  | QBuf (i : nat)     (* afl->queue_buf[i] *)
  | QStack.            (* the [struct queue_entry new] of save_if_interesting *)

Global Instance qptr_eq_dec : EqDecision qptr.
Proof. solve_decision. Defined.

(** The queue entries that exist: the queue itself ([queued_paths] is its
    length) and the caller's stack entry. *)
Record qstore := mk_qstore {
  queue_buf : list queue_entry;
  stack_entry : queue_entry
}.

Definition get_entry (qs : qstore) (p : qptr) : option queue_entry :=
  match p with
  | QBuf i => queue_buf qs !! i
  | QStack => Some (stack_entry qs)
  end.

Definition set_entry (qs : qstore) (p : qptr) (e : queue_entry) : qstore :=
  match p with
  | QBuf i => {| queue_buf := <[i := e]> (queue_buf qs);
                 stack_entry := stack_entry qs |}
  | QStack => {| queue_buf := queue_buf qs; stack_entry := e |}
  end.

(** Read through an entry pointer; a pointer to no entry is a fault. *)
Definition load (qs : qstore) (p : qptr) : result queue_entry :=
  deref (get_entry qs p).

Definition set_compressed_len (e : queue_entry) (v : Z) : queue_entry :=
  {| len := len e; testcase_buf := testcase_buf e; input_hash := input_hash e;
     trace_mini := trace_mini e; compressed_len := v;
     exec_cksum := exec_cksum e; edge_entry_of := edge_entry_of e; depth := depth e;
     cal_failed := cal_failed e; exec_us := exec_us e;
     bitmap_size := bitmap_size e; handicap := handicap e;
     favored := favored e; ncdm_favored := ncdm_favored e;
     has_new_cov := has_new_cov e; was_fuzzed := was_fuzzed e;
     fuzz_level := fuzz_level e; duplicates := duplicates e |}.

(** ** DiversityMetric: the compression scratch *)

(** The file-level statics [prevLongest] and [maxCompressedLen]; the two
    buffers they size hold no value that outlives a call. *)
Record scratch := mk_scratch {
  prevLongest : Z;
  maxCompressedLen : Z
}.

Definition scratch_init : scratch := {| prevLongest := 0; maxCompressedLen := 0 |}.

(** [while (val > 1) { bitcnt++; val >>= 1; }] on a [u32]: at most 32
    rounds. *)
Fixpoint bit_count (fuel : nat) (val bitcnt : Z) : Z :=
  match fuel with
  | O => bitcnt
  | S fuel' =>
      if 1 <? val then bit_count fuel' (Z.shiftr val 1) (bitcnt + 1)
      else bitcnt
  end.

Section Diversity.
Context {X : Compressor}.

(** The body shared by the two growth sites:
    [prevLongest = 1 << (bitcnt + 2)], then the two [ck_realloc]s and
    [maxCompressedLen = LZ4_compressBound((int)prevLongest)]. *)
Definition grow_scratch (val : Z) : scratch :=
  let bitcnt := bit_count 32 val 0 in
  let prevLongest' := wrap32 (Z.shiftl 1 (bitcnt + 2)) in
  {| prevLongest := prevLongest';
     maxCompressedLen := LZ4_compressBound prevLongest' |}.

(** ** DiversityMetric: NCDm *)

(** First loop of [calc_NCDm]: sum the lengths, fill in a missing
    [compressed_len], keep the smallest one. The accumulator is
    [(store, totalLen, minCompressedLen)]. *)
Definition ncdm_scan_step (sc : scratch) (acc : qstore * Z * Z) (p : qptr)
  : result (qstore * Z * Z) :=
  let '(qs, totalLen, minCompressedLen) := acc in
  do entry <- load qs p;
  let totalLen := wrap32 (totalLen + len entry) in
  let entry :=
    if (compressed_len entry =? 0) || bool_decide (testcase_buf entry = None)
    then
      let input_buf :=
        match testcase_buf entry with
        | Some buf => buf
        | None => queue_testcase_get entry
        end in
      set_compressed_len entry
        (LZ4_compress_default (buf_prefix (len entry) input_buf)
                              (maxCompressedLen sc))
    else entry in
  let minCompressedLen :=
    if compressed_len entry <? minCompressedLen then compressed_len entry
    else minCompressedLen in
  Ok (set_entry qs p entry, totalLen, minCompressedLen).

(** The [memcpy] loops: the testcases of the entries, one after the other,
    in [uncompressedData]. *)
Definition concat_step (qs : qstore) (data : list Z) (p : qptr)
  : result (list Z) :=
  do entry <- load qs p;
  do buf <- deref (testcase_buf entry);
  Ok (data ++ buf_prefix (len entry) buf).

Definition concat_payload (qs : qstore) (ps : list qptr) : result (list Z) :=
  foldM (concat_step qs) ps [].

(** Body of the loop over [leftOut]. *)
Definition ncdm_subset_step (sc : scratch) (qs : qstore) (ps : list qptr)
    (maxSubsetCompressedLen : Z) (leftOut : nat) : result Z :=
  do data <- concat_payload qs (delete leftOut ps);
  let compressedLen := LZ4_compress_default data (maxCompressedLen sc) in
  Ok (if maxSubsetCompressedLen <? compressedLen then compressedLen
      else maxSubsetCompressedLen).

Definition calc_NCDm (sc : scratch) (qs : qstore) (queue_entries : list qptr)
  : result (scratch * qstore * float) :=
  do (qs, totalLen, minCompressedLen) <-
     foldM (ncdm_scan_step sc) queue_entries (qs, 0, UINT32_MAX);
  let sc := if prevLongest sc <=? totalLen then grow_scratch totalLen else sc in
  do full <- concat_payload qs queue_entries;
  let fullSetCompressedLen := LZ4_compress_default full (maxCompressedLen sc) in
  do maxSubsetCompressedLen <-
     foldM (ncdm_subset_step sc qs queue_entries)
           (seq 0 (length queue_entries)) 0;
  if maxSubsetCompressedLen =? 0 then Ok (sc, qs, f32_zero)
  else
    Ok (sc, qs,
        f32_div (f32_sub (f32_of_Z fullSetCompressedLen)
                         (f32_of_Z minCompressedLen))
                (f32_of_Z maxSubsetCompressedLen)).

(** ** The spec's NCDm *)

(** [C(x)]: the LZ-compressed size of [x]. *)
Definition spec_C (x : list Z) : Z :=
  LZ4_compress_default x (LZ4_compressBound (Z.of_nat (length x))).

Definition spec_min (cs : list Z) : Z :=
  match cs with
  | [] => 0
  | c :: cs' => fold_right Z.min c cs'
  end.

Definition spec_max (cs : list Z) : Z := fold_right Z.max 0 cs.

(** [NCDm = (fullC - minC) / maxSubsetC], or 0 when [maxSubsetC = 0], for
    the testcases [es]. *)
Definition spec_NCDm (es : list (list Z)) : float :=
  let fullC := spec_C (concat es) in
  let minC := spec_min (map spec_C es) in
  let maxSubsetC :=
    spec_max (map (fun i => spec_C (concat (delete i es)))
                  (seq 0 (length es))) in
  if maxSubsetC =? 0 then f32_zero
  else f32_div (f32_sub (f32_of_Z fullC) (f32_of_Z minC)) (f32_of_Z maxSubsetC).

(** ** fill_trace_mini_and_compressed_len *)

Definition set_trace_mini_compressed (e : queue_entry) (tm : option (list Z))
    (v : Z) : queue_entry :=
  {| len := len e; testcase_buf := testcase_buf e; input_hash := input_hash e;
     trace_mini := tm; compressed_len := v;
     exec_cksum := exec_cksum e; edge_entry_of := edge_entry_of e; depth := depth e;
     cal_failed := cal_failed e; exec_us := exec_us e;
     bitmap_size := bitmap_size e; handicap := handicap e;
     favored := favored e; ncdm_favored := ncdm_favored e;
     has_new_cov := has_new_cov e; was_fuzzed := was_fuzzed e;
     fuzz_level := fuzz_level e; duplicates := duplicates e |}.

Definition fill_trace_mini_and_compressed_len (map_size : Z)
    (trace_bits : list Z) (sc : scratch) (q_entry : queue_entry)
  : result (scratch * queue_entry) :=
  let trace_map_len := Z.shiftr map_size 3 in
  let sc :=
    if prevLongest sc <? wrap32 (2 * len q_entry)
    then grow_scratch (len q_entry) else sc in
  let tm := minimize_bits map_size (replicate (Z.to_nat trace_map_len) 0)
                          trace_bits in
  do buf <- deref (testcase_buf q_entry);
  let compressed :=
    LZ4_compress_default (buf_prefix (len q_entry) buf) (maxCompressedLen sc) in
  if compressed =? 0 then Fatal FatalCompressFailed
  else Ok (sc, set_trace_mini_compressed q_entry (Some tm) compressed).

(** ** find_eviction_candidate *)

(** Body of the loop over [i]; the accumulator is
    [(scratch, store, evictionCandidate, best_dist)]. *)
Definition eviction_step (existing_edge_entries : list qptr) (new_entry : qptr)
    (acc : scratch * qstore * Z * float) (i : nat)
  : result (scratch * qstore * Z * float) :=
  let '(sc, qs, evictionCandidate, best_dist) := acc in
  let all_entries :=
    take i existing_edge_entries ++ drop (S i) existing_edge_entries
    ++ [new_entry] in
  do (sc, qs, candidate_dist) <- calc_NCDm sc qs all_entries;
  if f32_gt candidate_dist best_dist
  then Ok (sc, qs, Z.of_nat i, candidate_dist)
  else Ok (sc, qs, evictionCandidate, best_dist).

Definition find_eviction_candidate (sc : scratch) (qs : qstore)
    (existing_entries_NCD : float) (existing_edge_entries : list qptr)
    (new_entry : qptr) (forced : bool) : result (scratch * qstore * Z) :=
  if 32 <? Z.of_nat (length existing_edge_entries)
  then Fatal FatalTooManyEntries
  else
    let best_dist := if forced then f32_zero else existing_entries_NCD in
    do (sc, qs, evictionCandidate, best_dist) <-
       foldM (eviction_step existing_edge_entries new_entry)
             (seq 0 (length existing_edge_entries))
             (sc, qs, -1, best_dist);
    if negb forced && f32_le best_dist existing_entries_NCD
    then Ok (sc, qs, -1)
    else Ok (sc, qs, evictionCandidate).

End Diversity.

(** ** EdgeIndex cells and InputHashIndex buckets *)

(** [struct edge_entry]: one (edge, bucket) cell. [entries] is the used part
    of the array of entry pointers, so [entry_count] is its length; an entry
    pointer stored in a cell is always a slot of [queue_buf]. *)
Record edge_entry := mk_edge_entry {
  edge_num : Z;
  edge_frequency : Z;
  hit_count : Z;
  discovery_execs : Z;
  replacement_count : Z;
  entries : list nat;
  normalised_compression_dist : float
}.

Definition entry_count (c : edge_entry) : Z := Z.of_nat (length (entries c)).

(** [struct queue_input_hash]: [inputs] is the used part of the array, so
    [inputs_count] is its length. *)
Record queue_input_hash := mk_queue_input_hash {
  hash : Z;
  inputs : list nat;
  allocated_inputs : Z
}.

Definition inputs_count (b : queue_input_hash) : Z := Z.of_nat (length (inputs b)).

(** Modelled from the spec: [hashmap_get]/[hashmap_set] of [hashmap.h], an
    open-addressed map keyed by the 64-bit content hash of the item. A
    pointer returned by [hashmap_get] is the key it was found under. *)
Definition hashmap_get (hm : gmap Z queue_input_hash) (key : Z)
  : option queue_input_hash := hm !! key.

Definition hashmap_set (hm : gmap Z queue_input_hash) (item : queue_input_hash)
  : gmap Z queue_input_hash := <[hash item := item]> hm.

(** [found = hashmap_get(afl->queue_input_hashmap, &input_hash)], kept as a
    pointer: the key when there is such a bucket, NULL otherwise. *)
Definition found_ptr (hm : gmap Z queue_input_hash) (key : Z) : option Z :=
  match hashmap_get hm key with
  | Some _ => Some key
  | None => None
  end.

(** ** Field updates of a queue entry *)

Definition set_duplicates (v : Z) (e : queue_entry) : queue_entry :=
  {| len := len e; testcase_buf := testcase_buf e; input_hash := input_hash e;
     trace_mini := trace_mini e; compressed_len := compressed_len e;
     exec_cksum := exec_cksum e; edge_entry_of := edge_entry_of e; depth := depth e;
     cal_failed := cal_failed e; exec_us := exec_us e;
     bitmap_size := bitmap_size e; handicap := handicap e;
     favored := favored e; ncdm_favored := ncdm_favored e;
     has_new_cov := has_new_cov e; was_fuzzed := was_fuzzed e;
     fuzz_level := fuzz_level e; duplicates := v |}.

Definition set_input_hash (v : Z) (e : queue_entry) : queue_entry :=
  {| len := len e; testcase_buf := testcase_buf e; input_hash := v;
     trace_mini := trace_mini e; compressed_len := compressed_len e;
     exec_cksum := exec_cksum e; edge_entry_of := edge_entry_of e; depth := depth e;
     cal_failed := cal_failed e; exec_us := exec_us e;
     bitmap_size := bitmap_size e; handicap := handicap e;
     favored := favored e; ncdm_favored := ncdm_favored e;
     has_new_cov := has_new_cov e; was_fuzzed := was_fuzzed e;
     fuzz_level := fuzz_level e; duplicates := duplicates e |}.

Definition set_exec_cksum (v : Z) (e : queue_entry) : queue_entry :=
  {| len := len e; testcase_buf := testcase_buf e; input_hash := input_hash e;
     trace_mini := trace_mini e; compressed_len := compressed_len e;
     exec_cksum := v; edge_entry_of := edge_entry_of e; depth := depth e;
     cal_failed := cal_failed e; exec_us := exec_us e;
     bitmap_size := bitmap_size e; handicap := handicap e;
     favored := favored e; ncdm_favored := ncdm_favored e;
     has_new_cov := has_new_cov e; was_fuzzed := was_fuzzed e;
     fuzz_level := fuzz_level e; duplicates := duplicates e |}.

Definition set_favored (v : bool) (e : queue_entry) : queue_entry :=
  {| len := len e; testcase_buf := testcase_buf e; input_hash := input_hash e;
     trace_mini := trace_mini e; compressed_len := compressed_len e;
     exec_cksum := exec_cksum e; edge_entry_of := edge_entry_of e; depth := depth e;
     cal_failed := cal_failed e; exec_us := exec_us e;
     bitmap_size := bitmap_size e; handicap := handicap e;
     favored := v; ncdm_favored := ncdm_favored e;
     has_new_cov := has_new_cov e; was_fuzzed := was_fuzzed e;
     fuzz_level := fuzz_level e; duplicates := duplicates e |}.

Definition set_ncdm_favored (v : bool) (e : queue_entry) : queue_entry :=
  {| len := len e; testcase_buf := testcase_buf e; input_hash := input_hash e;
     trace_mini := trace_mini e; compressed_len := compressed_len e;
     exec_cksum := exec_cksum e; edge_entry_of := edge_entry_of e; depth := depth e;
     cal_failed := cal_failed e; exec_us := exec_us e;
     bitmap_size := bitmap_size e; handicap := handicap e;
     favored := favored e; ncdm_favored := v;
     has_new_cov := has_new_cov e; was_fuzzed := was_fuzzed e;
     fuzz_level := fuzz_level e; duplicates := duplicates e |}.

(** [best_entry->fuzz_level = ...; best_entry->was_fuzzed = ...]. *)
Definition set_fuzzed (lvl : Z) (was : bool) (e : queue_entry) : queue_entry :=
  {| len := len e; testcase_buf := testcase_buf e; input_hash := input_hash e;
     trace_mini := trace_mini e; compressed_len := compressed_len e;
     exec_cksum := exec_cksum e; edge_entry_of := edge_entry_of e; depth := depth e;
     cal_failed := cal_failed e; exec_us := exec_us e;
     bitmap_size := bitmap_size e; handicap := handicap e;
     favored := favored e; ncdm_favored := ncdm_favored e;
     has_new_cov := has_new_cov e; was_fuzzed := was;
     fuzz_level := lvl; duplicates := duplicates e |}.

(** The writes of [swap_in_candidate] to the evictee: length, testcase,
    compressed length and trace. *)
Definition set_content (l : Z) (buf : option (list Z)) (cl : Z)
    (tm : option (list Z)) (e : queue_entry) : queue_entry :=
  {| len := l; testcase_buf := buf; input_hash := input_hash e;
     trace_mini := tm; compressed_len := cl;
     exec_cksum := exec_cksum e; edge_entry_of := edge_entry_of e; depth := depth e;
     cal_failed := cal_failed e; exec_us := exec_us e;
     bitmap_size := bitmap_size e; handicap := handicap e;
     favored := favored e; ncdm_favored := ncdm_favored e;
     has_new_cov := has_new_cov e; was_fuzzed := was_fuzzed e;
     fuzz_level := fuzz_level e; duplicates := duplicates e |}.

(** The five values a calibration leaves in an entry. *)
Record calibration := mk_calibration {
  c_cal_failed : Z;
  c_exec_us : Z;
  c_exec_cksum : Z;
  c_bitmap_size : Z;
  c_handicap : Z
}.

Definition set_calibration (c : calibration) (e : queue_entry) : queue_entry :=
  {| len := len e; testcase_buf := testcase_buf e; input_hash := input_hash e;
     trace_mini := trace_mini e; compressed_len := compressed_len e;
     exec_cksum := c_exec_cksum c; edge_entry_of := edge_entry_of e; depth := depth e;
     cal_failed := c_cal_failed c; exec_us := c_exec_us c;
     bitmap_size := c_bitmap_size c; handicap := c_handicap c;
     favored := favored e; ncdm_favored := ncdm_favored e;
     has_new_cov := has_new_cov e; was_fuzzed := was_fuzzed e;
     fuzz_level := fuzz_level e; duplicates := duplicates e |}.

Definition get_calibration (e : queue_entry) : calibration :=
  {| c_cal_failed := cal_failed e; c_exec_us := exec_us e;
     c_exec_cksum := exec_cksum e; c_bitmap_size := bitmap_size e;
     c_handicap := handicap e |}.

(** A write through a pointer into [queue_buf]. *)
Definition update_queue (f : queue_entry -> queue_entry) (i : nat)
    (qs : qstore) : qstore :=
  {| queue_buf := alter f i (queue_buf qs); stack_entry := stack_entry qs |}.

(** ** InputHashIndex: move_queue_entry_to_correct_input_hash *)

(** Body of the removal loop over [i < found->inputs_count]; the
    accumulator is [(store, found->inputs, removed)] and [count] is
    [found->inputs_count], which the loop does not change. *)
Definition move_remove_step (evictee : nat) (count : Z)
    (acc : qstore * list nat * bool) (i : nat) : qstore * list nat * bool :=
  let '(qs, found_inputs, removed) := acc in
  let entry := nth i found_inputs O in
  let qs :=
    update_queue (set_duplicates (if 2 <=? count then count - 2 else 0))
                 entry qs in
  let removed := removed || bool_decide (entry = evictee) in
  let found_inputs :=
    if removed && (Z.of_nat i <? wrap32 (count - 1))
    then <[i := nth (S i) found_inputs O]> found_inputs
    else found_inputs in
  (qs, found_inputs, removed).

Definition set_inputs (v : list nat) (b : queue_input_hash) : queue_input_hash :=
  {| hash := hash b; inputs := v; allocated_inputs := allocated_inputs b |}.

(** Append to [found->inputs], doubling [allocated_inputs] when full. *)
Definition bucket_append (x : nat) (b : queue_input_hash) : queue_input_hash :=
  {| hash := hash b;
     inputs := inputs b ++ [x];
     allocated_inputs :=
       if allocated_inputs b =? inputs_count b then 2 * allocated_inputs b
       else allocated_inputs b |}.

(** [for (i < inputs_count) inputs[i]->duplicates = v]. *)
Definition set_all_duplicates (v : Z) (members : list nat) (qs : qstore) : qstore :=
  fold_left (fun qs i => update_queue (set_duplicates v) i qs) members qs.

(** [evictee] is a slot of [queue_buf]; [new] is any entry. The function
    works on the entries and on [afl->queue_input_hashmap]. *)
Definition move_queue_entry_to_correct_input_hash
    (qs : qstore) (hm : gmap Z queue_input_hash) (evictee : nat) (new : qptr)
  : result (qstore * gmap Z queue_input_hash) :=
  do evictee_e <- load qs (QBuf evictee);
  (* First let's remove the evictee from it's current hash *)
  let found := hashmap_get hm (input_hash evictee_e) in
  do found_v <- deref found;                      (* found->hash *)
  if negb (hash found_v =? input_hash evictee_e)
  then Fatal FatalFoundHashMismatch
  else
    match found with
    | None => Fatal FatalMissingQueueInputHash    (* if (!found) *)
    | Some found_v =>
      let count := inputs_count found_v in
      let '(qs, found_inputs, removed) :=
        fold_left (move_remove_step evictee count)
                  (seq 0 (length (inputs found_v)))
                  (qs, inputs found_v, false) in
      (* found->inputs_count-- *)
      let found_v := set_inputs (take (length found_inputs - 1) found_inputs)
                                found_v in
      let hm := <[input_hash evictee_e := found_v]> hm in
      if negb removed then Fatal FatalEntryNotInBucket
      else
        (* Then let's insert this evictee into its new hash *)
        do new_e <- load qs new;
        let new_hash := input_hash new_e in
        let qs := update_queue (set_input_hash new_hash) evictee qs in
        match hashmap_get hm new_hash with
        | None =>
            let qs := update_queue (set_duplicates 0) evictee qs in
            Ok (qs, hashmap_set hm {| hash := new_hash; inputs := [evictee];
                                      allocated_inputs := 8 |})
        | Some found_v =>
            let found_v := bucket_append evictee found_v in
            let count := inputs_count found_v in
            let qs :=
              set_all_duplicates (if 1 <=? count then count - 1 else 0)
                                 (inputs found_v) qs in
            Ok (qs, <[new_hash := found_v]> hm)
        end
    end.

(** ** swap_in_candidate *)

(** The move between buckets, then the copies into the evictee. The file is
    rewritten and renamed in the source; that part has no counterpart
    here. *)
Definition swap_in_candidate (map_size : Z)
    (qs : qstore) (hm : gmap Z queue_input_hash) (evictee : nat) (new : qptr)
  : result (qstore * gmap Z queue_input_hash) :=
  do (qs, hm) <- move_queue_entry_to_correct_input_hash qs hm evictee new;
  do new_e <- load qs new;
  do evictee_e <- load qs (QBuf evictee);
  do new_buf <- deref (testcase_buf new_e);
  do evictee_tm <- deref (trace_mini evictee_e);
  do new_tm <- deref (trace_mini new_e);
  let n := Z.shiftr map_size 3 in
  let tm := buf_prefix n new_tm ++ drop (Z.to_nat n) evictee_tm in
  Ok (update_queue
        (set_content (len new_e) (Some (buf_prefix (len new_e) new_buf))
                     (compressed_len new_e) (Some tm))
        evictee qs,
      hm).

(** ** The fuzzer state *)

(** The part of [afl_state_t] (and the statics of this file) that the
    modelled routines use. [queued_paths] is the length of the queue and
    [queue_top] its last slot. *)
Record afl_state := mk_afl_state {
  map_size : Z;                               (* afl->fsrv.map_size *)
  trace_bits : list Z;                        (* afl->fsrv.trace_bits *)
  total_execs : Z;                            (* afl->fsrv.total_execs *)
  ncd_entries_per_edge : Z;
  edge_entry_count : Z;
  edge_entries : list edge_entry;
  store : qstore;
  queue_input_hashmap : gmap Z queue_input_hash;
  top_rated : list (option nat);
  virgin_bits : list Z;
  pending_edge_entries : Z;
  discovered_edge_entries : Z;
  statics : scratch
}.

Definition set_edge_entries (v : list edge_entry) (st : afl_state) : afl_state :=
  {| map_size := map_size st; trace_bits := trace_bits st;
     total_execs := total_execs st;
     ncd_entries_per_edge := ncd_entries_per_edge st;
     edge_entry_count := edge_entry_count st; edge_entries := v;
     store := store st; queue_input_hashmap := queue_input_hashmap st;
     top_rated := top_rated st; virgin_bits := virgin_bits st;
     pending_edge_entries := pending_edge_entries st;
     discovered_edge_entries := discovered_edge_entries st;
     statics := statics st |}.

Definition set_store (v : qstore) (st : afl_state) : afl_state :=
  {| map_size := map_size st; trace_bits := trace_bits st;
     total_execs := total_execs st;
     ncd_entries_per_edge := ncd_entries_per_edge st;
     edge_entry_count := edge_entry_count st; edge_entries := edge_entries st;
     store := v; queue_input_hashmap := queue_input_hashmap st;
     top_rated := top_rated st; virgin_bits := virgin_bits st;
     pending_edge_entries := pending_edge_entries st;
     discovered_edge_entries := discovered_edge_entries st;
     statics := statics st |}.

Definition set_hashmap (v : gmap Z queue_input_hash) (st : afl_state) : afl_state :=
  {| map_size := map_size st; trace_bits := trace_bits st;
     total_execs := total_execs st;
     ncd_entries_per_edge := ncd_entries_per_edge st;
     edge_entry_count := edge_entry_count st; edge_entries := edge_entries st;
     store := store st; queue_input_hashmap := v;
     top_rated := top_rated st; virgin_bits := virgin_bits st;
     pending_edge_entries := pending_edge_entries st;
     discovered_edge_entries := discovered_edge_entries st;
     statics := statics st |}.

Definition set_top_rated (v : list (option nat)) (st : afl_state) : afl_state :=
  {| map_size := map_size st; trace_bits := trace_bits st;
     total_execs := total_execs st;
     ncd_entries_per_edge := ncd_entries_per_edge st;
     edge_entry_count := edge_entry_count st; edge_entries := edge_entries st;
     store := store st; queue_input_hashmap := queue_input_hashmap st;
     top_rated := v; virgin_bits := virgin_bits st;
     pending_edge_entries := pending_edge_entries st;
     discovered_edge_entries := discovered_edge_entries st;
     statics := statics st |}.

Definition set_statics (v : scratch) (st : afl_state) : afl_state :=
  {| map_size := map_size st; trace_bits := trace_bits st;
     total_execs := total_execs st;
     ncd_entries_per_edge := ncd_entries_per_edge st;
     edge_entry_count := edge_entry_count st; edge_entries := edge_entries st;
     store := store st; queue_input_hashmap := queue_input_hashmap st;
     top_rated := top_rated st; virgin_bits := virgin_bits st;
     pending_edge_entries := pending_edge_entries st;
     discovered_edge_entries := discovered_edge_entries st;
     statics := v |}.

(** [afl->pending_edge_entries++; afl->discovered_edge_entries++]. *)
Definition bump_discovered (st : afl_state) : afl_state :=
  {| map_size := map_size st; trace_bits := trace_bits st;
     total_execs := total_execs st;
     ncd_entries_per_edge := ncd_entries_per_edge st;
     edge_entry_count := edge_entry_count st; edge_entries := edge_entries st;
     store := store st; queue_input_hashmap := queue_input_hashmap st;
     top_rated := top_rated st; virgin_bits := virgin_bits st;
     pending_edge_entries := pending_edge_entries st + 1;
     discovered_edge_entries := discovered_edge_entries st + 1;
     statics := statics st |}.

(** ** Field updates of a cell *)

Definition set_hit_count (v : Z) (c : edge_entry) : edge_entry :=
  {| edge_num := edge_num c; edge_frequency := edge_frequency c;
     hit_count := v; discovery_execs := discovery_execs c;
     replacement_count := replacement_count c; entries := entries c;
     normalised_compression_dist := normalised_compression_dist c |}.

Definition set_discovery_execs (v : Z) (c : edge_entry) : edge_entry :=
  {| edge_num := edge_num c; edge_frequency := edge_frequency c;
     hit_count := hit_count c; discovery_execs := v;
     replacement_count := replacement_count c; entries := entries c;
     normalised_compression_dist := normalised_compression_dist c |}.

Definition set_replacement_count (v : Z) (c : edge_entry) : edge_entry :=
  {| edge_num := edge_num c; edge_frequency := edge_frequency c;
     hit_count := hit_count c; discovery_execs := discovery_execs c;
     replacement_count := v; entries := entries c;
     normalised_compression_dist := normalised_compression_dist c |}.

Definition set_entries (v : list nat) (c : edge_entry) : edge_entry :=
  {| edge_num := edge_num c; edge_frequency := edge_frequency c;
     hit_count := hit_count c; discovery_execs := discovery_execs c;
     replacement_count := replacement_count c; entries := v;
     normalised_compression_dist := normalised_compression_dist c |}.

Definition set_ncd (v : float) (c : edge_entry) : edge_entry :=
  {| edge_num := edge_num c; edge_frequency := edge_frequency c;
     hit_count := hit_count c; discovery_execs := discovery_execs c;
     replacement_count := replacement_count c; entries := entries c;
     normalised_compression_dist := v |}.

(** [&afl->edge_entries[pos]], read; a position past the array is a fault. *)
Definition cell_at (st : afl_state) (pos : nat) : result edge_entry :=
  match edge_entries st !! pos with
  | Some c => Ok c
  | None => Crash OutOfBounds
  end.

(** A write through [this_edge]. *)
Definition update_cell (f : edge_entry -> edge_entry) (pos : nat)
    (st : afl_state) : afl_state :=
  set_edge_entries (alter f pos (edge_entries st)) st.

(** ** Collaborators of the insertion routine *)

(** Routines of other files. [calibrate_case st q] gives the five values
    the calibration leaves in entry [q] and the [top_rated] table after its
    call to [update_bitmap_score]; the runs it makes of the target are taken
    to leave [trace_bits] as they were. [update_bitmap_score st q] gives the
    [top_rated] table after the call. *)
Class Collaborators := {
  calibrate_case : afl_state -> nat -> calibration * list (option nat);
  get_fav_factor : afl_state -> queue_entry -> Z;
  update_bitmap_score : afl_state -> nat -> list (option nat)
}.

(** Modelled from the spec: [add_to_queue] lives in [afl-fuzz-queue.c], which
    is not part of the sources. The spec has it create the entry and append
    it to the queue, which owns it from then on; the entry comes from a
    zeroed allocation and records the length, the depth and the checksum it
    is given. *)
Definition add_to_queue (qs : qstore) (len_ depth_ cksum : Z) : qstore :=
  {| queue_buf :=
       queue_buf qs ++
       [ {| len := len_; testcase_buf := None; input_hash := 0;
            trace_mini := None; compressed_len := 0; exec_cksum := cksum;
            edge_entry_of := None; depth := depth_; cal_failed := 0;
            exec_us := 0; bitmap_size := 0; handicap := 0; favored := false;
            ncdm_favored := false; has_new_cov := false; was_fuzzed := false;
            fuzz_level := 0; duplicates := 0 |} ];
     stack_entry := stack_entry qs |}.

(** The writes of [save_to_edge_entries] to the entry it has just queued:
    testcase, checksum, hash and trace. *)
Definition init_new_entry (buf : list Z) (h : Z) (tm : list Z)
    (e : queue_entry) : queue_entry :=
  {| len := len e; testcase_buf := Some buf; input_hash := h;
     trace_mini := Some tm; compressed_len := compressed_len e;
     exec_cksum := 0; edge_entry_of := edge_entry_of e; depth := depth e;
     cal_failed := cal_failed e; exec_us := exec_us e;
     bitmap_size := bitmap_size e; handicap := handicap e;
     favored := favored e; ncdm_favored := ncdm_favored e;
     has_new_cov := has_new_cov e; was_fuzzed := was_fuzzed e;
     fuzz_level := fuzz_level e; duplicates := duplicates e |}.

(** [new->edge_entry = this_edge]. *)
Definition set_edge_entry_of (cell : nat) (e : queue_entry) : queue_entry :=
  {| len := len e; testcase_buf := testcase_buf e; input_hash := input_hash e;
     trace_mini := trace_mini e; compressed_len := compressed_len e;
     exec_cksum := exec_cksum e; edge_entry_of := Some cell; depth := depth e;
     cal_failed := cal_failed e; exec_us := exec_us e;
     bitmap_size := bitmap_size e; handicap := handicap e;
     favored := favored e; ncdm_favored := ncdm_favored e;
     has_new_cov := has_new_cov e; was_fuzzed := was_fuzzed e;
     fuzz_level := fuzz_level e; duplicates := duplicates e |}.

(** ** EdgeIndex: save_to_edge_entries *)

(** The locals of [save_to_edge_entries] that live across cells. [found] is
    the pointer into the hash map, as the key it was found under;
    [cal_values] are the five [cal_failed .. handicap] locals, read only
    once [calibration_complete] is set. *)
Record ste_locals := mk_ste_locals {
  calibration_complete : bool;
  cal_values : calibration;
  found : option Z;
  is_duplicate : bool;
  inserted : bool
}.

Section EdgeIndex.
Context {X : Compressor} {Y : Collaborators}.

(** The scan for an entry of the cell with the hash of the input; the
    [break] leaves the later entries unread. *)
Definition cell_has_hash (qs : qstore) (cell_entries : list nat) (h : Z)
  : result bool :=
  foldM (fun (matched : bool) (i : nat) =>
           if matched then Ok true
           else do e <- load qs (QBuf i); Ok (input_hash e =? h))
        cell_entries false.

(** The scan for an entry with [duplicates != 0]: its index, or -1. *)
Definition first_duplicate (qs : qstore) (cell_entries : list nat) : result Z :=
  foldM (fun (candidate : Z) (i : nat) =>
           if negb (candidate =? -1) then Ok candidate
           else
             do e <- load qs (QBuf (nth i cell_entries O));
             Ok (if negb (duplicates e =? 0) then Z.of_nat i else -1))
        (seq 0 (length cell_entries)) (-1).

Definition should_calc_NCD (hit_count : Z) : bool :=
  (hit_count <=? 10)
  || ((hit_count <=? 100) && (hit_count mod 10 =? 0))
  || ((hit_count <=? 10000) && (hit_count mod 100 =? 0))
  || (hit_count mod 1000 =? 0).

(** [if (!q_entry->trace_mini) fill_trace_mini_and_compressed_len(afl, q_entry)]. *)
Definition ste_fill_trace (st : afl_state) : result afl_state :=
  let q_entry := stack_entry (store st) in
  match trace_mini q_entry with
  | Some _ => Ok st
  | None =>
      do (sc, q_entry) <-
         fill_trace_mini_and_compressed_len (map_size st) (trace_bits st)
                                            (statics st) q_entry;
      Ok (set_statics sc (set_store (set_entry (store st) QStack q_entry) st))
  end.

(** [this_edge->normalised_compression_dist =
      calc_NCDm(afl, this_edge->entries, this_edge->entry_count)]. *)
Definition ste_rescore (pos : nat) (st : afl_state) : result afl_state :=
  do this_edge <- cell_at st pos;
  do (sc, qs, ncd) <-
     calc_NCDm (statics st) (store st) (map QBuf (entries this_edge));
  Ok (update_cell (set_ncd ncd) pos (set_statics sc (set_store qs st))).

(** The two calibration blocks: copy the values of the calibration already
    made, or calibrate [q] and keep its values. *)
Definition ste_calibrate (q : nat) (st : afl_state) (loc : ste_locals)
  : afl_state * ste_locals :=
  if calibration_complete loc
  then (set_store (update_queue (set_calibration (cal_values loc)) q (store st)) st,
        loc)
  else
    let '(c, tr) := calibrate_case st q in
    (set_top_rated tr
       (set_store (update_queue (set_calibration c) q (store st)) st),
     {| calibration_complete := true; cal_values := c; found := found loc;
        is_duplicate := is_duplicate loc; inserted := inserted loc |}).

(** Registration of the new entry in the hash index: append to [found], or
    create the bucket. Gives the store, the map and the new [found]. *)
Definition ste_register (new : nat) (h : Z) (loc : ste_locals)
    (qs : qstore) (hm : gmap Z queue_input_hash)
  : result (qstore * gmap Z queue_input_hash * ste_locals) :=
  match found loc with
  | Some key =>
      do found_v <- deref (hashmap_get hm key);
      let found_v := bucket_append new found_v in
      let count := inputs_count found_v in
      let duplicates := if 1 <=? count then count - 1 else 0 in
      Ok (set_all_duplicates duplicates (inputs found_v) qs,
          <[key := found_v]> hm, loc)
  | None =>
      let hm := hashmap_set hm {| hash := h; inputs := [new];
                                  allocated_inputs := 8 |} in
      Ok (qs, hm,
          {| calibration_complete := calibration_complete loc;
             cal_values := cal_values loc;
             found := found_ptr hm h;
             is_duplicate := true; inserted := inserted loc |})
  end.

Definition set_inserted (loc : ste_locals) : ste_locals :=
  {| calibration_complete := calibration_complete loc;
     cal_values := cal_values loc; found := found loc;
     is_duplicate := is_duplicate loc; inserted := true |}.

(** The branch [this_edge->entry_count < afl->ncd_entries_per_edge]. *)
Definition ste_fill (pos : nat) (st : afl_state) (loc : ste_locals)
  : result (afl_state * ste_locals) :=
  do this_edge <- cell_at st pos;
  (* Let's record what execution we were on when discovering this edge *)
  let st :=
    if entry_count this_edge =? 0
    then bump_discovered (update_cell (set_discovery_execs (total_execs st)) pos st)
    else st in
  if (0 <? entry_count this_edge) && is_duplicate loc then Ok (st, loc)
  else
    (* OK this is a new edge or unique entry so let's store it *)
    let q_entry := stack_entry (store st) in
    let new := length (queue_buf (store st)) in
    let st := set_store (add_to_queue (store st) (len q_entry)
                                      (entry_count this_edge) 0) st in
    do q_buf <- deref (testcase_buf q_entry);
    do st <- ste_fill_trace st;
    let q_entry := stack_entry (store st) in
    do q_tm <- deref (trace_mini q_entry);
    let n := Z.shiftr (map_size st) 3 in
    let tm := buf_prefix n q_tm ++ drop (Z.to_nat n) (replicate (Z.to_nat n) 0) in
    let qs :=
      update_queue (init_new_entry (buf_prefix (len q_entry) q_buf)
                                   (input_hash q_entry) tm)
                   new (store st) in
    do (qs, hm, loc) <-
       ste_register new (input_hash q_entry) loc qs (queue_input_hashmap st);
    let qs := update_queue (set_edge_entry_of pos) new qs in
    let st := set_hashmap hm (set_store qs st) in
    let st := update_cell (fun c => set_entries (entries c ++ [new]) c) pos st in
    do st <- ste_rescore pos st;
    let loc := set_inserted loc in
    Ok (ste_calibrate new st loc).

(** Search of one edge for the entry with the smallest [get_fav_factor],
    over its eight cells. The accumulator is [(best_fav_score, best_entry)]. *)
Definition best_fav_step (st : afl_state) (acc : Z * option nat) (entry : nat)
  : result (Z * option nat) :=
  do e <- load (store st) (QBuf entry);
  let fav_score := get_fav_factor st e in
  Ok (if fav_score <? fst acc then (fav_score, Some entry) else acc).

Definition find_best_fav (st : afl_state) (i : nat) : result (option nat) :=
  do r <-
     foldM (fun acc (reps : nat) =>
              do edgeEntry <- cell_at st (8 * i + reps)%nat;
              foldM (best_fav_step st) (entries edgeEntry) acc)
           (seq 0 8) (UINT64_MAX, None);
  Ok (snd r).

(** Body of the loop over [i < map_size] of the favoured block. *)
Definition refavor_step (evictee : nat) (st : afl_state) (i : nat)
  : result afl_state :=
  if bool_decide (top_rated st !! i = Some (Some evictee))
  then
    (* This new entry doesn't cover that edge - find a replacement! *)
    do best <- find_best_fav st i;
    match best with
    | Some best_entry =>
        let st := set_top_rated (<[i := None]> (top_rated st)) st in
        let st := set_top_rated (update_bitmap_score st best_entry) st in
        do best_e <- load (store st) (QBuf best_entry);
        do evictee_e <- load (store st) (QBuf evictee);
        if negb (was_fuzzed best_e)
        then Ok (set_store
                   (update_queue (set_fuzzed (fuzz_level evictee_e)
                                             (was_fuzzed evictee_e))
                                 best_entry (store st)) st)
        else Ok st
    | None =>
        Ok (set_store (update_queue (set_favored true) evictee (store st)) st)
    end
  else Ok st.

Definition ste_refavor (evictee : nat) (st : afl_state) : result afl_state :=
  do evictee_e <- load (store st) (QBuf evictee);
  if favored evictee_e
  then
    let st := set_store (update_queue (set_favored false) evictee (store st)) st in
    foldM (refavor_step evictee) (seq 0 (Z.to_nat (map_size st))) st
  else Ok st.

(** The eviction of [this_edge->entries[evictionCandidate]] in favour of the
    input. *)
Definition ste_evict (pos : nat) (evictionCandidate : Z) (st : afl_state)
    (loc : ste_locals) : result (afl_state * ste_locals) :=
  do st <- ste_fill_trace st;
  do this_edge <- cell_at st pos;
  (* We have a real candidate to evict... *)
  do evictee <- deref (entries this_edge !! Z.to_nat evictionCandidate);
  do (qs, hm) <-
     swap_in_candidate (map_size st) (store st) (queue_input_hashmap st)
                       evictee QStack;
  let q_entry := stack_entry qs in
  let qs := update_queue (set_exec_cksum 0) evictee qs in
  let qs := update_queue (set_input_hash (input_hash q_entry)) evictee qs in
  let st := set_hashmap hm (set_store qs st) in
  let loc :=
    {| calibration_complete := calibration_complete loc;
       cal_values := cal_values loc;
       found := found_ptr hm (input_hash q_entry);
       is_duplicate := true; inserted := inserted loc |} in
  let st :=
    update_cell (fun c => set_replacement_count (replacement_count c + 1) c)
                pos st in
  do st <- ste_rescore pos st;
  do st <- ste_refavor evictee st;
  let '(st, loc) := ste_calibrate evictee st loc in
  Ok (st, set_inserted loc).

(** The branch of a cell that is full. *)
Definition ste_saturated (pos : nat) (st : afl_state) (loc : ste_locals)
  : result (afl_state * ste_locals) :=
  if is_duplicate loc
  then Ok (st, loc)      (* This queue_entry already exists for another edge *)
  else
    do this_edge <- cell_at st pos;
    (* let's see if any entries are duplicates and mark for eviction: *)
    do evictionCandidate <- first_duplicate (store st) (entries this_edge);
    (* We haven't found any duplicates to kick out, let's see if NCD wins *)
    if evictionCandidate =? -1
    then
      if negb (should_calc_NCD (hit_count this_edge)) then Ok (st, loc)
      else
        do st <- ste_fill_trace st;
        do (sc, qs, evictionCandidate) <-
           find_eviction_candidate (statics st) (store st)
             (normalised_compression_dist this_edge)
             (map QBuf (entries this_edge)) QStack false;
        let st := set_statics sc (set_store qs st) in
        if evictionCandidate =? -1 then Ok (st, loc)
        else ste_evict pos evictionCandidate st loc
    else ste_evict pos evictionCandidate st loc.

(** What the loops do for the trace byte of edge [edge]. *)
Definition ste_cell (acc : afl_state * ste_locals) (edge : nat)
  : result (afl_state * ste_locals) :=
  let '(st, loc) := acc in
  let v := rd (trace_bits st) edge in
  if v =? 0 then Ok (st, loc)
  else
    let class := lookup8 count_class_lookup8 v in
    let reps := bucket_of_class class in
    let edge_entries_pos := Z.to_nat (wrap32 (8 * Z.of_nat edge + reps)) in
    do this_edge <- cell_at st edge_entries_pos;
    let st := update_cell (fun c => set_hit_count (hit_count c + 1) c)
                          edge_entries_pos st in
    let q_entry := stack_entry (store st) in
    do matched <-
       cell_has_hash (store st) (entries this_edge) (input_hash q_entry);
    (* we already have this entry in the queue *)
    if matched then Ok (st, loc)
    else if entry_count this_edge <? ncd_entries_per_edge st
    then ste_fill edge_entries_pos st loc
    else ste_saturated edge_entries_pos st loc.

(** The edges the two nested loops visit: [map_size >> 3] words of eight
    bytes. A word that is zero is skipped as a whole by the source, which is
    what skipping each of its zero bytes does. *)
Definition ste_edges (st : afl_state) : list nat :=
  seq 0 (8 * Z.to_nat (wrap32 (Z.shiftr (map_size st) 3))).

(** [q_entry] is the stack entry of the store; [new_bits] only reaches
    [add_to_queue]. The result is the state and [inserted]. *)
Definition save_to_edge_entries (st : afl_state) (new_bits : Z)
  : result (afl_state * bool) :=
  if edge_entry_count st =? 0 then Ok (st, false)
  else
    let q_entry := stack_entry (store st) in
    do q_buf <- (if len q_entry =? 0 then Ok []
                 else deref (testcase_buf q_entry));
    let hash := hash64 (buf_prefix (len q_entry) q_buf) in
    let st := set_store (set_entry (store st) QStack
                                   (set_input_hash hash q_entry)) st in
    let found := found_ptr (queue_input_hashmap st) hash in
    let loc :=
      {| calibration_complete := false;
         cal_values := {| c_cal_failed := 0; c_exec_us := 0; c_exec_cksum := 0;
                          c_bitmap_size := 0; c_handicap := 0 |};
         found := found;
         is_duplicate := bool_decide (found <> None);
         inserted := false |} in
    do (st, loc) <- foldM ste_cell (ste_edges st) (st, loc);
    (* ck_free(q_entry->trace_mini) *)
    let q_entry := stack_entry (store st) in
    let st := set_store (set_entry (store st) QStack
                (set_trace_mini_compressed q_entry None
                                           (compressed_len q_entry))) st in
    Ok (st, inserted loc).

End EdgeIndex.

(** ** Queue: set_NCDm_favored *)

(** The traces are walked as [map_size >> 6] words of 64 bits, that is as
    this many bytes; a word differs, or gains a bit, exactly when one of its
    bytes does. *)
Definition word_span (map_size : Z) : nat :=
  (8 * Z.to_nat (wrap32 (Z.shiftr map_size 6)))%nat.

(** returns 1 if traces differ in coverage, 0 if they are the same *)
Definition compare_trace_minis (map_size : Z) (trace1 trace2 : list Z) : bool :=
  existsb (fun i => negb (rd trace1 i =? rd trace2 i))
          (seq 0 (word_span map_size)).

(** Returns 1 if trace1 contains coverage not seen in trace2 *)
Definition trace_contains_new_coverage (map_size : Z) (trace1 trace2 : list Z)
  : bool :=
  existsb (fun i => negb (Z.lor (rd trace1 i) (rd trace2 i) =? rd trace2 i))
          (seq 0 (word_span map_size)).

(** [*discovered |= *new_input_map] over the words of the two traces. *)
Definition or_trace (map_size : Z) (discovered new_input_map : list Z) : list Z :=
  fold_left (fun d i => <[i := Z.lor (rd d i) (rd new_input_map i)]> d)
            (seq 0 (word_span map_size)) discovered.

(** [inverted[i] = ~afl->virgin_bits[i]] on bytes, then [minimize_bits]. *)
Definition all_discovered_of (map_size : Z) (virgin : list Z) : list Z :=
  let inverted :=
    map (fun i => Z.lxor (rd virgin i) 255) (seq 0 (Z.to_nat map_size)) in
  minimize_bits map_size (replicate (Z.to_nat (Z.shiftr map_size 3)) 0) inverted.

Section Cover.
Context {X : Compressor}.

(** Body of the loop over the queue inside the [while]; the accumulator is
    [(scratch, store, shortest, best_NCDm, best_candidate, found_cov)]. *)
Definition cover_scan_step (map_size : Z) (selected_inputs : list nat)
    (selected_inputs_map : list Z)
    (acc : scratch * qstore * Z * float * option nat * bool) (i : nat)
  : result (scratch * qstore * Z * float * option nat * bool) :=
  let '(sc, qs, shortest, best_NCDm, best_candidate, found_cov) := acc in
  do q <- load qs (QBuf i);
  do q_tm <- deref (trace_mini q);
  if negb (trace_contains_new_coverage map_size q_tm selected_inputs_map)
  then Ok acc     (* Adding this entry won't improve coverage so ignore it *)
  else
    if bool_decide (selected_inputs = [])
    then
      if compressed_len q <? shortest
      then Ok (sc, qs, compressed_len q, best_NCDm, Some i, true)
      else Ok (sc, qs, shortest, best_NCDm, best_candidate, true)
    else
      do (sc, qs, ncdm) <- calc_NCDm sc qs (map QBuf (selected_inputs ++ [i]));
      if f32_gt ncdm best_NCDm
      then Ok (sc, qs, shortest, ncdm, Some i, true)
      else Ok (sc, qs, shortest, best_NCDm, best_candidate, true).

(** One round of the [while]: the scan, the fatal exit, and the selection
    of [best_candidate]. Gives the scratch, the store, [selected_inputs] and
    [selected_inputs_map] after the round. *)
Definition cover_round (map_size : Z) (sc : scratch) (qs : qstore)
    (selected_inputs : list nat) (selected_inputs_map : list Z)
  : result (scratch * qstore * list nat * list Z) :=
  do (sc, qs, shortest, best_NCDm, best_candidate, found_cov) <-
     foldM (cover_scan_step map_size selected_inputs selected_inputs_map)
           (seq 0 (length (queue_buf qs)))
           (sc, qs, UINT32_MAX, f32_zero, None, false);
  if negb found_cov then Fatal FatalNoNewCoverage
  else
    do best <- deref best_candidate;
    do best_e <- load qs (QBuf best);
    do new_input_map <- deref (trace_mini best_e);
    Ok (sc, update_queue (set_ncdm_favored true) best qs,
        selected_inputs ++ [best],
        or_trace map_size selected_inputs_map new_input_map).

(** The [while (compare_trace_minis(...))] loop; [None] when [fuel] rounds
    were not enough. *)
Fixpoint cover_loop (fuel : nat) (map_size : Z) (all_discovered : list Z)
    (sc : scratch) (qs : qstore) (selected_inputs : list nat)
    (selected_inputs_map : list Z)
  : option (result (scratch * qstore * list nat * list Z)) :=
  match fuel with
  | O => None
  | S fuel' =>
      if negb (compare_trace_minis map_size all_discovered selected_inputs_map)
      then Some (Ok (sc, qs, selected_inputs, selected_inputs_map))
      else
        match cover_round map_size sc qs selected_inputs selected_inputs_map with
        | Ok (sc, qs, selected_inputs, selected_inputs_map) =>
            cover_loop fuel' map_size all_discovered sc qs selected_inputs
                       selected_inputs_map
        | Fatal k => Some (Fatal k)
        | Crash c => Some (Crash c)
        end
  end.

(** The indices of the queue entries with [favored] set, in queue order. *)
Definition favored_indices (qb : list queue_entry) : list nat :=
  List.filter (fun i => match qb !! i with Some e => favored e | None => false end)
              (seq 0 (length qb)).

(** [set_NCDm_favored] with [fuel] rounds for its [while]. The array [favs]
    has 1024 slots; the text buffers built for the two [printf]s are left
    out. *)
Definition set_NCDm_favored_fuel (fuel : nat) (st : afl_state)
  : option (result afl_state) :=
  let qs := {| queue_buf := map (set_ncdm_favored false) (queue_buf (store st));
               stack_entry := stack_entry (store st) |} in
  let all_discovered := all_discovered_of (map_size st) (virgin_bits st) in
  let selected_inputs_map := replicate (Z.to_nat (Z.shiftr (map_size st) 3)) 0 in
  match cover_loop fuel (map_size st) all_discovered (statics st) qs []
                   selected_inputs_map with
  | None => None
  | Some r =>
      Some (do (sc, qs, selected_inputs, selected_inputs_map) <- r;
            let favs := favored_indices (queue_buf qs) in
            if 1024 <? Z.of_nat (length favs) then Crash OutOfBounds
            else
              do (sc, qs, favored_NCDm) <- calc_NCDm sc qs (map QBuf favs);
              Ok (set_statics sc (set_store qs st)))
  end.

(** Every round selects an entry that no later round can select, so one
    round more than there are queue entries is enough (see
    [set_NCDm_favored_total]). *)
Definition set_NCDm_favored (st : afl_state) : option (result afl_state) :=
  set_NCDm_favored_fuel (S (length (queue_buf (store st)))) st.

End Cover.

(** The bytewise OR of the traces of the entries with [ncdm_favored] set,
    over the words the routine walks. *)
Definition favored_union (map_size : Z) (qb : list queue_entry) : list Z :=
  fold_left
    (fun u e =>
       if ncdm_favored e
       then or_trace map_size u (default [] (trace_mini e))
       else u)
    qb (replicate (Z.to_nat (Z.shiftr map_size 3)) 0).

(** ** InterestingnessPipeline: the path of [res] in save_if_interesting *)

(** The switches of [afl_state_t] the normal path tests, and the value of
    [FSRV_RUN_ERROR] (an enumerator of [forkserver.h]). *)
Record sii_config := mk_sii_config {
  crash_mode : Z;
  ncd_based_queue : bool;
  hashfuzz_enabled : bool;
  hashfuzz_mimic_transformation : bool;
  FSRV_RUN_ERROR : Z
}.

(** What the calls made on the normal path return on one execution:
    [has_new_bits_unclassified], the test of the partition bit against
    [hashfuzz_discovered_partitions], the lookup in
    [hashfuzzFoundPartitions], [check_if_new_partition] and
    [calibrate_case]. *)
Record sii_calls := mk_sii_calls {
  ret_has_new_bits : Z;
  partition_seen : bool;
  path_found : bool;
  ret_check_if_new_partition : Z;
  ret_calibrate_case : Z
}.

(** How the normal path is left: by a [return], or by reaching
    [switch (fault)] with the given [keeping]. *)
Inductive sii_exit :=
  | Returned (keeping : Z)
  | ReachedSwitch (keeping : Z).

(** Read of a local that has a value only once it has been assigned. *)
Definition read_local (v : option Z) : result Z :=
  match v with
  | Some z => Ok z
  | None => Crash UninitRead
  end.

(** The value of [interesting] when [if (likely(!interesting))] tests it:
    [new_bits], possibly raised by the hashfuzz block. *)
Definition sii_interesting (cfg : sii_config) (calls : sii_calls) : bool :=
  let new_bits := ret_has_new_bits calls in
  let interesting := negb (new_bits =? 0) in
  if hashfuzz_enabled cfg
  then
    if hashfuzz_mimic_transformation cfg
    then (if negb (partition_seen calls) then true else interesting)
    else
      if interesting || path_found calls
      then interesting || (0 <=? ret_check_if_new_partition calls)
      else interesting
  else interesting.

(** [save_if_interesting] from its entry to [switch (fault)], with the
    effects of the calls on the fuzzer state left out. [res] is declared
    without an initialiser, so it starts as [None]. *)
Definition save_if_interesting_normal (cfg : sii_config) (calls : sii_calls)
    (len_ fault : Z) : result sii_exit :=
  if len_ =? 0 then Ok (Returned 0)
  else
    let keeping := 0 in
    let res : option Z := None in
    if fault =? crash_mode cfg
    then
      (* new_bits = has_new_bits_unclassified(...); interesting = new_bits;
         if (afl->ncd_based_queue) save_to_edge_entries(afl, &new, new_bits);
         if (afl->hashfuzz_enabled) { ... } *)
      let interesting := sii_interesting cfg calls in
      if negb interesting then Ok (Returned 0)
      else
        (* if (!afl->ncd_based_queue) add_to_queue(...) *)
        let res :=
          if negb (ncd_based_queue cfg) then Some (ret_calibrate_case calls)
          else res in
        do res_v <- read_local res;
        if res_v =? FSRV_RUN_ERROR cfg then Fatal FatalRunError
        else
          let keeping := 1 in
          Ok (ReachedSwitch keeping)
    else Ok (ReachedSwitch keeping).

(** ** Notions used by the statements *)

(** The bytes a second classification leaves alone: those below 3 and those
    from 32 on. A class of 4, 8, 16 or 32 is itself a count in the range of
    the next bucket. *)
Definition class_is_fixed (v : Z) : Prop := v <= 2 \/ 32 <= v.

(** What [grow_scratch] leaves in [prevLongest] for a demand that keeps the
    shift within an [int]: [2 ^ (floor(log2 demand) + 2)]. *)
Definition grown_capacity (demand : Z) : Z := 2 ^ (Z.log2 demand + 2).

(** A capacity is a power of two. *)
Definition is_pow2 (n : Z) : Prop := exists k, 0 <= k /\ n = 2 ^ k.

(** The bytes of an entry that the metric reads: the first [len] bytes of
    its testcase. *)
Definition payload (e : queue_entry) : list Z :=
  buf_prefix (len e) (default [] (testcase_buf e)).

Definition payload_at (qs : qstore) (p : qptr) : list Z :=
  match get_entry qs p with
  | Some e => payload e
  | None => []
  end.

Definition payloads (qs : qstore) (ps : list qptr) : list (list Z) :=
  map (payload_at qs) ps.

Definition entry_len (qs : qstore) (p : qptr) : Z :=
  match get_entry qs p with
  | Some e => len e
  | None => 0
  end.

(** The sum of the lengths of the entries, and the [u32] that [calc_NCDm]
    accumulates for it. *)
Definition sum_len (qs : qstore) (ps : list qptr) : Z :=
  fold_right (fun p t => entry_len qs p + t) 0 ps.

Definition total_len (qs : qstore) (ps : list qptr) : Z :=
  fold_left (fun t p => wrap32 (t + entry_len qs p)) ps 0.

(** Two entries that differ at most in [compressed_len]. *)
Definition cl_equiv (e e' : queue_entry) : Prop :=
  set_compressed_len e 0 = set_compressed_len e' 0.

(** Two stores with the same entries up to [compressed_len]. *)
Definition store_cl_equiv (qs qs' : qstore) : Prop :=
  Forall2 cl_equiv (queue_buf qs) (queue_buf qs')
  /\ cl_equiv (stack_entry qs) (stack_entry qs').

Section DiversityNotions.
Context {X : Compressor}.

(** The scratch as the two growth sites leave it: untouched, or with
    [maxCompressedLen] the bound of [prevLongest]. *)
Definition scratch_ok (sc : scratch) : Prop :=
  0 <= prevLongest sc <= 2 ^ 30
  /\ (maxCompressedLen sc = LZ4_compressBound (prevLongest sc)
      \/ (prevLongest sc = 0 /\ maxCompressedLen sc = 0)).

(** An entry the metric can score: it has its testcase, and its
    [compressed_len] is the compressed size of the testcase, or is still 0
    with a scratch large enough to compute it. *)
Definition entry_ready (sc : scratch) (e : queue_entry) : Prop :=
  exists buf,
    testcase_buf e = Some buf
    /\ 0 <= len e <= Z.of_nat (length buf)
    /\ ((compressed_len e = spec_C (payload e) /\ compressed_len e <> 0)
        \/ (compressed_len e = 0
            /\ LZ4_compressBound (len e) <= maxCompressedLen sc)).

Definition ptr_ready (sc : scratch) (qs : qstore) (p : qptr) : Prop :=
  exists e, get_entry qs p = Some e /\ entry_ready sc e.

End DiversityNotions.

(** The loop bodies are unfolded by hand in the proofs. *)
Arguments ncdm_scan_step : simpl never.
Arguments concat_step : simpl never.
Arguments ncdm_subset_step : simpl never.
Arguments calc_NCDm : simpl never.
Arguments eviction_step : simpl never.
Arguments find_eviction_candidate : simpl never.
Arguments grow_scratch : simpl never.
Arguments wrap32 : simpl never.

(** ** BitmapOps: the counters *)

(** [((u32 * )mem)[w]]: a 32-bit load from a byte buffer, little-endian as
    on the 64-bit targets this build is for. *)
Definition read_u32 (mem : list Z) (w : nat) : Z :=
  rd mem (4 * w) + 256 * rd mem (4 * w + 1) + 65536 * rd mem (4 * w + 2)
  + 16777216 * rd mem (4 * w + 3).

(** The [u32] words the three counters walk: [map_size >> 2] of them. *)
Definition map_words32 (map_size : Z) : list nat :=
  seq 0 (Z.to_nat (wrap32 (Z.shiftr map_size 2))).

(** Body of the loop of [count_bits] for the word [v]. *)
Definition count_bits_word (ret v : Z) : Z :=
  if v =? 0xffffffff then wrap32 (ret + 32)
  else
    let v := wrap32 (v - Z.land (Z.shiftr v 1) 0x55555555) in
    let v := wrap32 (Z.land v 0x33333333 + Z.land (Z.shiftr v 2) 0x33333333) in
    wrap32 (ret + Z.shiftr
                    (wrap32 (Z.land (wrap32 (v + Z.shiftr v 4)) 0xF0F0F0F
                             * 0x01010101))
                    24).

Definition count_bits (map_size : Z) (mem : list Z) : Z :=
  fold_left (fun ret w => count_bits_word ret (read_u32 mem w))
            (map_words32 map_size) 0.

(** Body of the loop of [count_bytes] for the word [v]. *)
Definition count_bytes_word (ret v : Z) : Z :=
  if v =? 0 then ret
  else
    let ret := if negb (Z.land v 0x000000ff =? 0) then wrap32 (ret + 1) else ret in
    let ret := if negb (Z.land v 0x0000ff00 =? 0) then wrap32 (ret + 1) else ret in
    let ret := if negb (Z.land v 0x00ff0000 =? 0) then wrap32 (ret + 1) else ret in
    let ret := if negb (Z.land v 0xff000000 =? 0) then wrap32 (ret + 1) else ret in
    ret.

Definition count_bytes (map_size : Z) (mem : list Z) : Z :=
  fold_left (fun ret w => count_bytes_word ret (read_u32 mem w))
            (map_words32 map_size) 0.

(** Body of the loop of [count_non_255_bytes] for the word [v]. *)
Definition count_non_255_bytes_word (ret v : Z) : Z :=
  if v =? 0xffffffff then ret
  else
    let ret := if negb (Z.land v 0x000000ff =? 0x000000ff) then wrap32 (ret + 1) else ret in
    let ret := if negb (Z.land v 0x0000ff00 =? 0x0000ff00) then wrap32 (ret + 1) else ret in
    let ret := if negb (Z.land v 0x00ff0000 =? 0x00ff0000) then wrap32 (ret + 1) else ret in
    let ret := if negb (Z.land v 0xff000000 =? 0xff000000) then wrap32 (ret + 1) else ret in
    ret.

Definition count_non_255_bytes (map_size : Z) (mem : list Z) : Z :=
  fold_left (fun ret w => count_non_255_bytes_word ret (read_u32 mem w))
            (map_words32 map_size) 0.

(** [((u64 * )trace)[w]], little-endian. *)
Definition read_u64 (mem : list Z) (w : nat) : Z :=
  fold_right (fun k acc => rd mem (8 * w + k) + 256 * acc) 0 (seq 0 8).

(** [count_minified_trace_bits]: for each of the [map_size >> 6] words,
    [for (u8 i = 0; i < 64; i++) total += (( *t) >> i) & 1]. *)
Definition count_minified_trace_bits (map_size : Z) (trace : list Z) : Z :=
  fold_left
    (fun total w =>
       fold_left (fun total i =>
                    wrap32 (total + Z.land (Z.shiftr (read_u64 trace w)
                                                     (Z.of_nat i)) 1))
                 (seq 0 64) total)
    (seq 0 (Z.to_nat (wrap32 (Z.shiftr map_size 6)))) 0.

(** ** BitmapOps: init_count_class16 *)

(** Body of the loop over [b2]:
    [count_class_lookup16[(b1 << 8) + b2] =
       (count_class_lookup8[b1] << 8) | count_class_lookup8[b2]]. *)
Definition init_count_class16_step (b1 : Z) (table : list Z) (b2 : Z) : list Z :=
  <[Z.to_nat (Z.shiftl b1 8 + b2) :=
      Z.lor (Z.shiftl (lookup8 count_class_lookup8 b1) 8)
            (lookup8 count_class_lookup8 b2)]> table.

(** The table [count_class_lookup16] once [init_count_class16] has run on
    the zeroed array of 65536 entries. *)
Definition init_count_class16 : list Z :=
  fold_left (fun table b1 =>
               fold_left (init_count_class16_step b1) (seqZ 0 256) table)
            (seqZ 0 256) (replicate (Z.to_nat 65536) 0).

(** ** Hashfuzz: check_if_new_partition *)

(** [struct path_partitions] (declared in [hashfuzz.h]): the fields the
    routine uses. *)
Record path_partitions := mk_path_partitions {
  checksum : Z;
  foundPartitions : Z;
  foundPartitionsCount : Z
}.

(** The value of an [s8] holding the [u8] [v]. *)
Definition s8_of_u8 (v : Z) : Z := if v <? 128 then v else v - 256.

(** [check_if_new_partition] on the map [hashfuzzFoundPartitions], keyed by
    [checksum] (modelled from the spec like [queue_input_hashmap]): the map
    after the call and the value returned. [partition] is a [u8] and
    [1 << partition] an [int] stored in a [u32]. *)
Definition check_if_new_partition (hm : gmap Z path_partitions)
    (checksum_ partition : Z) : gmap Z path_partitions * Z :=
  let partitionBitmap := wrap32 (Z.shiftl 1 partition) in
  match hm !! checksum_ with
  | Some found_v =>
      if negb (Z.land (foundPartitions found_v) partitionBitmap =? 0)
      then (hm, -1)      (* We've already found an input in this partition *)
      else
        (* This input discovers a new partition for this path *)
        let foundAlready := foundPartitionsCount found_v mod 256 in
        (<[checksum_ :=
             {| checksum := checksum found_v;
                foundPartitions := Z.lor (foundPartitions found_v) partitionBitmap;
                foundPartitionsCount := foundPartitionsCount found_v + 1 |}]> hm,
         s8_of_u8 foundAlready)
  | None =>
      (<[checksum_ := {| checksum := checksum_;
                         foundPartitions := partitionBitmap;
                         foundPartitionsCount := 1 |}]> hm,
       0)
  end.

(** ** Notions used by the statements on the added routines *)

(** The number of bits set among the [width] lowest bits of [v]. *)
Definition popcount (width : nat) (v : Z) : Z :=
  fold_right (fun j acc => (if Z.testbit v (Z.of_nat j) then 1 else 0) + acc)
             0 (seq 0 width).

Definition popcount_bytes (bs : list Z) : Z :=
  fold_right (fun b acc => popcount 8 b + acc) 0 bs.

(** The number of elements of [bs] that satisfy the test [f]. *)
Definition count_if (f : Z -> bool) (bs : list Z) : Z :=
  Z.of_nat (length (List.filter f bs)).

(** Bit [j] of byte [k] of a packed trace. *)
Definition trace_bit (t : list Z) (k : nat) (j : Z) : bool :=
  Z.testbit (rd t k) j.

(** The InputHashIndex agrees with the queue: every bucket is filed under
    its own hash and lists, without repetition, entries of the queue that
    carry this hash and whose [duplicates] is the number of the others; and
    every entry of the queue is listed in the bucket of its hash. *)
Definition hash_index_ok (qs : qstore) (hm : gmap Z queue_input_hash) : Prop :=
  (forall h b, hm !! h = Some b ->
     hash b = h /\ NoDup (inputs b)
     /\ forall i, i ∈ inputs b ->
          exists e, queue_buf qs !! i = Some e /\ input_hash e = h
                    /\ duplicates e = inputs_count b - 1)
  /\ (forall i e, queue_buf qs !! i = Some e ->
        exists b, hm !! input_hash e = Some b /\ i ∈ inputs b).

(** Partition [p] is recorded for the path [c]. *)
Definition partition_recorded (hm : gmap Z path_partitions) (c p : Z) : Prop :=
  exists pp, hm !! c = Some pp /\ Z.testbit (foundPartitions pp) p = true.

(** Every [foundPartitionsCount] is the number of partitions 0..30 recorded
    in its [foundPartitions]. *)
Definition partitions_counted (hm : gmap Z path_partitions) : Prop :=
  forall c pp, hm !! c = Some pp ->
    foundPartitionsCount pp = popcount 31 (foundPartitions pp).

(** ** A compressor to run the metric on *)

(** The simplest compressor with the documented behaviour of [lz4.h]: it
    stores the source behind a one-byte token, so that the compressed size
    is the source size plus one, or 0 when the destination is too small.
    The theorems hold for every compressor with the laws; this one
    instantiates them. *)
Definition stored_block : Compressor :=
  {| hash64 := fun src => fold_left (fun h b => wrap64 (31 * h + b)) src 0;
     LZ4_compress_default := fun src cap =>
       let n := Z.min (Z.of_nat (length src) + 1) 2147483647 in
       if n <=? cap then n else 0;
     LZ4_compressBound := fun n => n + 1;
     queue_testcase_get := fun e => default [] (testcase_buf e) |}.

(** A queue entry with testcase [buf] whose [compressed_len] is [c]. *)
Definition scored_entry (buf : list Z) (c : Z) : queue_entry :=
  set_compressed_len (entry_of_bytes buf) c.

(** ** A small queue with its index *)

(** A queue entry with testcase [buf], content hash [h], packed trace [tm],
    compressed length [c] and [d] duplicates. *)
Definition indexed_entry (buf : list Z) (h : Z) (tm : list Z) (c d : Z)
  : queue_entry :=
  set_duplicates d
    (set_input_hash h
       (set_trace_mini_compressed (entry_of_bytes buf) (Some tm) c)).

(** Two queued entries with different hashes and a caller's entry that has
    the hash of the second one, and the index of the two. *)
Definition small_queue : qstore :=
  {| queue_buf := [indexed_entry [1; 2] 5 [3; 0] 3 0;
                   indexed_entry [7] 9 [1; 128] 2 0];
     stack_entry := indexed_entry [8; 8; 8] 9 [1; 129] 4 0 |}.

Definition small_index : gmap Z queue_input_hash :=
  <[5 := {| hash := 5; inputs := [0%nat]; allocated_inputs := 8 |}]>
    (<[9 := {| hash := 9; inputs := [1%nat]; allocated_inputs := 8 |}]> ∅).

(** ** is_interesting *)

(** The [u16] number [h] of a byte buffer, little-endian. *)
Definition read_u16 (mem : list Z) (h : nat) : Z :=
  rd mem (2 * h) + 256 * rd mem (2 * h + 1).

(** Body of the loop over the four [u16] of a word, for the half-word
    [h = edgeNum + i]; [table] is the array [count_class_lookup16] as it
    stands at the call. The copy [mem16] is classified, not the trace. *)
Definition is_interesting_step (table : list Z) (st : afl_state) (h : nat)
  : result afl_state :=
  let class := rd table (Z.to_nat (read_u16 (trace_bits st) h)) in
  if class =? 0 then Ok st
  else
    let reps := count_reps 16 class 0 in
    let edge_entries_pos := Z.to_nat (wrap32 (16 * Z.of_nat h + reps)) in
    do this_edge <- cell_at st edge_entries_pos;
    Ok (update_cell (fun c => set_hit_count (hit_count c + 1) c)
                    edge_entries_pos st).

(** [is_interesting]: the state and the value returned. A word that is zero
    is skipped as a whole by the source, which is what skipping each of its
    zero half-words does. *)
Definition is_interesting (table : list Z) (st : afl_state)
  : result (afl_state * Z) :=
  if edge_entry_count st =? 0 then Ok (st, 0)
  else
    do st <- foldM (is_interesting_step table)
                   (seq 0 (4 * Z.to_nat (wrap32 (Z.shiftr (map_size st) 3))))
                   st;
    Ok (st, 1).

(** The cell that a pair of trace bytes [lo], [hi] (edges [2h] and [2h+1])
    stands for in [is_interesting]: the cell of the high byte when it is not
    zero, else the cell of the low byte when that is not zero. *)
Definition hit_cell_of_pair (h : nat) (lo hi : Z) : option nat :=
  if negb (hi =? 0)
  then Some (8 * (2 * h + 1)
             + Z.to_nat (bucket_of_class (lookup8 count_class_lookup8 hi)))%nat
  else if negb (lo =? 0)
  then Some (8 * (2 * h)
             + Z.to_nat (bucket_of_class (lookup8 count_class_lookup8 lo)))%nat
  else None.

(** Cell [pos] is the one some pair of bytes of the trace stands for. *)
Definition is_interesting_hit (map_size : Z) (trace : list Z) (pos : nat) : bool :=
  let h := (pos / 16)%nat in
  (h <? 4 * Z.to_nat (wrap32 (Z.shiftr map_size 3)))%nat
  && bool_decide (hit_cell_of_pair h (rd trace (2 * h)) (rd trace (2 * h + 1))
                  = Some pos).

(** ** A small fuzzer state *)

(** A cell that holds nothing yet. *)
Definition empty_cell (pos : nat) : edge_entry :=
  {| edge_num := Z.of_nat (pos / 8); edge_frequency := Z.of_nat (pos mod 8);
     hit_count := 0; discovery_execs := 0; replacement_count := 0;
     entries := []; normalised_compression_dist := f32_zero |}.

(** A state with a map of eight edges and their 64 cells, on the small
    queue. *)
Definition small_state : afl_state :=
  {| map_size := 8; trace_bits := [0; 3; 1; 0; 0; 0; 0; 200];
     total_execs := 0; ncd_entries_per_edge := 2; edge_entry_count := 64;
     edge_entries := map empty_cell (seq 0 64);
     store := small_queue; queue_input_hashmap := small_index;
     top_rated := replicate 8 None; virgin_bits := replicate 8 255;
     pending_edge_entries := 0; discovered_edge_entries := 0;
     statics := scratch_init |}.

(** ** Statement notions: the greedy cover *)

(** A trace adds coverage to the running cover. *)
Definition adds_coverage (map_size : Z) (cover : list Z)
    (tm : option (list Z)) : bool :=
  match tm with
  | Some tm => trace_contains_new_coverage map_size tm cover
  | None => false
  end.

(** The number of traces that add coverage to the cover. *)
Definition cov_count (map_size : Z) (traces : list (option (list Z)))
    (cover : list Z) : nat :=
  length (List.filter (adds_coverage map_size cover) traces).

Definition traces_of (qs : qstore) : list (option (list Z)) :=
  map trace_mini (queue_buf qs).

(** Two entries that differ at most in [compressed_len] and
    [ncdm_favored]. *)
Definition fav_equiv (e e' : queue_entry) : Prop :=
  set_ncdm_favored false (set_compressed_len e 0)
  = set_ncdm_favored false (set_compressed_len e' 0).

(** Bit [j] of byte [i] of the cover is set exactly when an entry marked
    [ncdm_favored] has it set in its trace. *)
Definition cover_of_favored (map_size : Z) (qs : qstore) (cover : list Z) : Prop :=
  forall i j, (i < word_span map_size)%nat -> 0 <= j ->
    (trace_bit cover i j = true
     <-> exists s e tm,
           queue_buf qs !! s = Some e /\ ncdm_favored e = true
           /\ trace_mini e = Some tm /\ trace_bit tm i j = true).

(** Two stores with the same entries up to [compressed_len] and
    [ncdm_favored]. *)
Definition store_fav_equiv (qs qs' : qstore) : Prop :=
  length (queue_buf qs') = length (queue_buf qs)
  /\ (forall s e, queue_buf qs !! s = Some e ->
        exists e', queue_buf qs' !! s = Some e' /\ fav_equiv e e')
  /\ cl_equiv (stack_entry qs) (stack_entry qs').

(** ** A small state to cover *)

(** A map of 64 edges of which edges 1 and 10 are discovered, and a queue of
    two entries, the first with edge 1 in its trace and the second with
    edge 10. *)
Definition cover_state : afl_state :=
  {| map_size := 64; trace_bits := replicate 64 0;
     total_execs := 0; ncd_entries_per_edge := 2; edge_entry_count := 512;
     edge_entries := map empty_cell (seq 0 512);
     store :=
       {| queue_buf := [indexed_entry [1; 2] 5 [2; 0; 0; 0; 0; 0; 0; 0] 3 0;
                        indexed_entry [7] 9 [0; 4; 0; 0; 0; 0; 0; 0] 2 0];
          stack_entry := entry_of_bytes [] |};
     queue_input_hashmap := small_index;
     top_rated := replicate 64 None;
     virgin_bits := <[1%nat := 254]> (<[10%nat := 127]> (replicate 64 255));
     pending_edge_entries := 0; discovered_edge_entries := 0;
     statics := scratch_init |}.

(** ** Statement notions: hit counts *)



(** Collaborators that leave everything as it is, to run the insertion
    routine. *)
Definition idle_collaborators : Collaborators :=
  {| calibrate_case := fun st q =>
       ({| c_cal_failed := 0; c_exec_us := 0; c_exec_cksum := 0;
           c_bitmap_size := 0; c_handicap := 0 |}, top_rated st);
     get_fav_factor := fun st e => len e;
     update_bitmap_score := fun st q => top_rated st |}.

(** ** Statement notions: the index along the insertion *)

(** What the InputHashIndex reads of an entry: its hash and its
    [duplicates]. *)
Definition entry_key (e : queue_entry) : Z * Z := (input_hash e, duplicates e).

Definition index_view (qs : qstore) : list (Z * Z) :=
  map entry_key (queue_buf qs).

(** [hash_index_ok] on what the index reads of the queue. *)
Definition hash_index_view (v : list (Z * Z)) (hm : gmap Z queue_input_hash)
  : Prop :=
  (forall h b, hm !! h = Some b ->
     hash b = h /\ NoDup (inputs b)
     /\ forall i, i ∈ inputs b -> v !! i = Some (h, inputs_count b - 1))
  /\ (forall i h d, v !! i = Some (h, d) ->
        exists b, hm !! h = Some b /\ i ∈ inputs b).

(** Two states with the same index, the same hash of the input and the same
    keys of the queue. *)
Definition same_index (st st' : afl_state) : Prop :=
  index_view (store st') = index_view (store st)
  /\ input_hash (stack_entry (store st')) = input_hash (stack_entry (store st))
  /\ queue_input_hashmap st' = queue_input_hashmap st.

(** The local [found] of [save_to_edge_entries] points to the bucket of the
    hash of the input, or is NULL when there is none. *)
Definition found_ok (st : afl_state) (loc : ste_locals) : Prop :=
  found loc
  = found_ptr (queue_input_hashmap st) (input_hash (stack_entry (store st))).

(** ** Statement notions: a call that stores nothing *)

(** The queue has the same entries up to [compressed_len], and the index,
    the entry lists of the cells and [top_rated] are the same. *)
Definition nothing_stored (st st' : afl_state) : Prop :=
  Forall2 cl_equiv (queue_buf (store st)) (queue_buf (store st'))
  /\ queue_input_hashmap st' = queue_input_hashmap st
  /\ map entries (edge_entries st') = map entries (edge_entries st)
  /\ top_rated st' = top_rated st.

(** The small state after its input has been offered once, with the same
    input offered again. *)
Definition stored_state : afl_state :=
  match @save_to_edge_entries stored_block idle_collaborators small_state 0 with
  | Ok (st, _) =>
      set_store (set_entry (store st) QStack (stack_entry (store small_state))) st
  | _ => small_state
  end.

(** ** Statement notions: the scans of a cell *)

(** [get_fav_factor] of the queue entry [c] of a state. *)
Definition fav_score_of `{Collaborators} (st : afl_state) (c : nat) : Z :=
  match queue_buf (store st) !! c with
  | Some e => get_fav_factor st e
  | None => 0
  end.

(** The entries of the eight cells of edge [i], bucket by bucket. *)
Definition edge_candidates (st : afl_state) (i : nat) : list nat :=
  flat_map (fun reps => match edge_entries st !! (8 * i + reps)%nat with
                        | Some c => entries c
                        | None => []
                        end)
           (seq 0 8).

(** [duplicates] of the queue entry [c], 0 when there is none. *)
Definition duplicates_of (qs : qstore) (c : nat) : Z :=
  match queue_buf qs !! c with
  | Some e => duplicates e
  | None => 0
  end.

(** What the search for the best score holds after the entries [seen]:
    nothing yet, every score seen being the largest [u64]; or an entry seen
    whose score is the least. *)
Definition best_fav_inv `{Collaborators} (st : afl_state) (seen : list nat)
    (acc : Z * option nat) : Prop :=
  match acc.2 with
  | None => acc.1 = UINT64_MAX /\ forall c, c ∈ seen -> UINT64_MAX <= fav_score_of st c
  | Some b =>
      b ∈ seen /\ acc.1 = fav_score_of st b /\ fav_score_of st b < UINT64_MAX
      /\ forall c, c ∈ seen -> fav_score_of st b <= fav_score_of st c
  end.

(* ===================================================================== *)
(** * Part II: theorems                                                   *)
(* ===================================================================== *)

(** ** BitmapOps *)

Lemma byte_in_seqZ (v : Z) : is_byte v -> v ∈ seqZ 0 256.
Proof. unfold is_byte. intros Hv. apply elem_of_seqZ. lia. Qed.

(** A property of bytes that a boolean test decides holds of every byte
    once the test has been run on the 256 of them. *)
Lemma for_all_bytes (P : Z -> bool) :
  forallb P (seqZ 0 256) = true -> forall v, is_byte v -> P v = true.
Proof.
  intros Hall v Hv. rewrite forallb_forall in Hall.
  apply Hall, list_elem_of_In, byte_in_seqZ, Hv.
Qed.

(** The table is the bucketing of the spec: 0, 1, 2 to themselves, 3 to 4,
    4..7 to 8, 8..15 to 16, 16..31 to 32, 32..127 to 64, 128..255 to 128. *)
Lemma count_class_lookup8_buckets (v : Z) :
  is_byte v ->
  lookup8 count_class_lookup8 v =
    if v <=? 2 then v
    else if v <=? 3 then 4
    else if v <=? 7 then 8
    else if v <=? 15 then 16
    else if v <=? 31 then 32
    else if v <=? 127 then 64
    else 128.
Proof.
  intros Hv.
  pose proof (for_all_bytes
    (fun v => lookup8 count_class_lookup8 v =?
       (if v <=? 2 then v else if v <=? 3 then 4 else if v <=? 7 then 8
        else if v <=? 15 then 16 else if v <=? 31 then 32
        else if v <=? 127 then 64 else 128))) as H.
  simpl in H. apply Z.eqb_eq, H; [vm_compute; reflexivity | exact Hv].
Qed.

Lemma count_class_lookup8_twice (v : Z) :
  is_byte v ->
  lookup8 count_class_lookup8 (lookup8 count_class_lookup8 v)
  = (if (v <=? 2) || (32 <=? v) then lookup8 count_class_lookup8 v
     else 2 * lookup8 count_class_lookup8 v).
Proof.
  intros Hv.
  pose proof (for_all_bytes
    (fun v => lookup8 count_class_lookup8 (lookup8 count_class_lookup8 v) =?
       (if (v <=? 2) || (32 <=? v) then lookup8 count_class_lookup8 v
        else 2 * lookup8 count_class_lookup8 v))) as H.
  simpl in H. apply Z.eqb_eq, H; [vm_compute; reflexivity | exact Hv].
Qed.

Lemma count_class_lookup8_pos (v : Z) :
  is_byte v -> v <> 0 -> 0 < lookup8 count_class_lookup8 v.
Proof.
  intros Hv Hne. rewrite (count_class_lookup8_buckets v Hv).
  unfold is_byte in Hv. repeat case_match; lia.
Qed.

Lemma count_class_lookup8_idempotent_iff (v : Z) :
  is_byte v ->
  lookup8 count_class_lookup8 (lookup8 count_class_lookup8 v)
  = lookup8 count_class_lookup8 v
  <-> class_is_fixed v.
Proof.
  intros Hv. rewrite (count_class_lookup8_twice v Hv). unfold class_is_fixed.
  destruct (Z.leb_spec v 2); simpl; [intuition lia|].
  destruct (Z.leb_spec 32 v); simpl; [intuition lia|].
  pose proof (count_class_lookup8_pos v Hv). split; [|lia].
  intros Heq. lia.
Qed.

(** C6, as stated: classification is idempotent on every byte. It fails at
    3, whose class 4 is classified again as 8; and on the trace [[3]]. *)
Lemma classify_counts_not_idempotent :
  is_byte 3
  /\ lookup8 count_class_lookup8 (lookup8 count_class_lookup8 3)
     <> lookup8 count_class_lookup8 3
  /\ classify_counts (classify_counts [3]) <> classify_counts [3].
Proof. unfold is_byte. split; [lia|]. split; vm_compute; discriminate. Qed.

(** C6, amended. A second classification changes nothing exactly on the
    bytes 0, 1, 2 and 32..255: for a byte [v],
    [count_class_lookup8[count_class_lookup8[v]] = count_class_lookup8[v]]
    if and only if [v <= 2] or [32 <= v], and for a trace [t] of bytes
    [classify (classify t) = classify t] if and only if every byte of [t]
    is one of these. *)
Theorem classify_counts_idempotent_iff (v : Z) (t : list Z) :
  is_byte v ->
  Forall is_byte t ->
  (lookup8 count_class_lookup8 (lookup8 count_class_lookup8 v)
   = lookup8 count_class_lookup8 v <-> class_is_fixed v)
  /\ (classify_counts (classify_counts t) = classify_counts t
      <-> Forall class_is_fixed t).
Proof.
  intros Hv Ht. split.
  - by apply count_class_lookup8_idempotent_iff.
  - unfold classify_counts. rewrite map_map.
    induction Ht as [|b t' Hb _ IH]; simpl.
    + split; [constructor | reflexivity].
    + pose proof (count_class_lookup8_idempotent_iff b Hb) as Hb'.
      split.
      * intros Heq. injection Heq as Hhd Htl. constructor; tauto.
      * intros Hall. apply Forall_cons in Hall as [Hfix Hall].
        f_equal; tauto.
Qed.

Lemma classify_counts_idempotent_iff_witness :
  (lookup8 count_class_lookup8 (lookup8 count_class_lookup8 200)
   = lookup8 count_class_lookup8 200 <-> class_is_fixed 200)
  /\ (classify_counts (classify_counts [0; 2; 200; 37; 255])
      = classify_counts [0; 2; 200; 37; 255]
      <-> Forall class_is_fixed [0; 2; 200; 37; 255]).
Proof.
  apply (classify_counts_idempotent_iff 200 [0; 2; 200; 37; 255]).
  - unfold is_byte. lia.
  - repeat constructor; unfold is_byte; lia.
Defined.

(** ** InterestingnessPipeline *)

Lemma save_if_interesting_ncd_path_reads_res (cfg : sii_config)
    (calls : sii_calls) (len_ fault : Z) :
  len_ <> 0 ->
  fault = crash_mode cfg ->
  ncd_based_queue cfg = true ->
  sii_interesting cfg calls = true ->
  save_if_interesting_normal cfg calls len_ fault = Crash UninitRead.
Proof.
  intros Hlen Hfault Hncd Hint. unfold save_if_interesting_normal.
  destruct (Z.eqb_spec len_ 0) as [?|_]; [done|].
  rewrite Hfault, Z.eqb_refl, Hint, Hncd. reflexivity.
Qed.

(** C9. There is an execution of [save_if_interesting] on the normal path
    ([fault] equal to [crash_mode], NCD-based queueing enabled, input deemed
    interesting) on which [res] is read, for the comparison with
    [FSRV_RUN_ERROR], without having been assigned; in fact every such
    execution does so. *)
Theorem save_if_interesting_reads_unassigned_res :
  (exists cfg calls len_ fault,
      len_ <> 0 /\ fault = crash_mode cfg /\ ncd_based_queue cfg = true
      /\ sii_interesting cfg calls = true
      /\ save_if_interesting_normal cfg calls len_ fault = Crash UninitRead)
  /\ (forall cfg calls len_ fault,
        len_ <> 0 -> fault = crash_mode cfg -> ncd_based_queue cfg = true ->
        sii_interesting cfg calls = true ->
        save_if_interesting_normal cfg calls len_ fault = Crash UninitRead).
Proof.
  split.
  - exists {| crash_mode := 0; ncd_based_queue := true; hashfuzz_enabled := false;
              hashfuzz_mimic_transformation := false; FSRV_RUN_ERROR := 3 |},
           {| ret_has_new_bits := 2; partition_seen := false; path_found := false;
              ret_check_if_new_partition := 0; ret_calibrate_case := 0 |},
           4, 0.
    repeat split; done.
  - apply save_if_interesting_ncd_path_reads_res.
Qed.

(** With the plain queue the same path assigns [res] before the read. *)
Lemma save_if_interesting_plain_path_assigns_res (cfg : sii_config)
    (calls : sii_calls) (len_ fault : Z) :
  len_ <> 0 ->
  fault = crash_mode cfg ->
  ncd_based_queue cfg = false ->
  save_if_interesting_normal cfg calls len_ fault <> Crash UninitRead.
Proof.
  intros Hlen Hfault Hncd. unfold save_if_interesting_normal.
  destruct (Z.eqb_spec len_ 0) as [?|_]; [done|].
  rewrite Hfault, Z.eqb_refl, Hncd.
  destruct (sii_interesting cfg calls); simpl; [|done].
  destruct (_ =? _); done.
Qed.

(** ** InputHashIndex *)

(** C10. In [move_queue_entry_to_correct_input_hash] the field
    [found->hash] is read before [found] is tested: a call whose evictee has
    an [input_hash] with no bucket in the index ends in the NULL
    dereference, and no call at all reaches the fatal branch that reports a
    missing [queue_input_hash]. *)
Theorem move_reads_found_before_null_check (qs : qstore)
    (hm : gmap Z queue_input_hash) (evictee : nat) (new : qptr)
    (e : queue_entry) :
  queue_buf qs !! evictee = Some e ->
  hashmap_get hm (input_hash e) = None ->
  move_queue_entry_to_correct_input_hash qs hm evictee new = Crash NullDeref
  /\ (forall qs' hm' evictee' new',
        move_queue_entry_to_correct_input_hash qs' hm' evictee' new'
        <> Fatal FatalMissingQueueInputHash).
Proof.
  intros He Hnone. split.
  - unfold move_queue_entry_to_correct_input_hash, load. simpl.
    rewrite He. simpl. rewrite Hnone. reflexivity.
  - clear He Hnone. intros qs' hm' evictee' new'.
    unfold move_queue_entry_to_correct_input_hash, load. simpl.
    destruct (queue_buf qs' !! evictee') as [e'|]; simpl; [|done].
    destruct (hashmap_get hm' (input_hash e')) as [b|]; simpl; [|done].
    destruct (negb _); [done|].
    destruct (fold_left _ _ _) as [[qs1 inputs1] removed].
    destruct (negb removed); [done|].
    destruct (get_entry qs1 new') as [ne|]; simpl; [|done].
    destruct (hashmap_get _ _); done.
Qed.

Lemma move_reads_found_before_null_check_witness :
  move_queue_entry_to_correct_input_hash
    {| queue_buf := [entry_of_bytes [1; 2]]; stack_entry := entry_of_bytes [3] |}
    ∅ 0 QStack = Crash NullDeref
  /\ (forall qs' hm' evictee' new',
        move_queue_entry_to_correct_input_hash qs' hm' evictee' new'
        <> Fatal FatalMissingQueueInputHash).
Proof.
  apply (move_reads_found_before_null_check
           {| queue_buf := [entry_of_bytes [1; 2]];
              stack_entry := entry_of_bytes [3] |}
           ∅ 0 QStack (entry_of_bytes [1; 2])).
  - reflexivity.
  - reflexivity.
Defined.

(** ** DiversityMetric: the scratch capacity *)

Lemma bit_count_log2 (fuel : nat) (val bitcnt : Z) :
  0 <= val < 2 ^ Z.of_nat fuel ->
  bit_count fuel val bitcnt = bitcnt + Z.log2 val.
Proof.
  revert val bitcnt. induction fuel as [|fuel IH]; intros val bitcnt Hval.
  - simpl in *. assert (val = 0) as -> by lia. simpl. lia.
  - simpl. destruct (Z.ltb_spec 1 val) as [Hgt|Hle].
    + rewrite IH.
      * rewrite Z.log2_shiftr by lia.
        assert (1 <= Z.log2 val) by (apply Z.log2_le_pow2; simpl; lia).
        lia.
      * rewrite Z.shiftr_div_pow2 by lia.
        rewrite Nat2Z.inj_succ, Z.pow_succ_r in Hval by lia.
        split; [apply Z.div_pos; lia|].
        apply Z.div_lt_upper_bound; simpl; lia.
    + assert (val = 0 \/ val = 1) as [-> | ->] by lia; simpl; lia.
Qed.

Lemma grow_scratch_prevLongest `{Compressor} (val : Z) :
  0 <= val < 2 ^ 29 ->
  prevLongest (grow_scratch val) = grown_capacity val.
Proof.
  intros Hval. unfold grow_scratch, grown_capacity. cbn [prevLongest].
  rewrite bit_count_log2 by (change (2 ^ Z.of_nat 32) with 4294967296; lia).
  rewrite Z.add_0_l, Z.shiftl_1_l. unfold wrap32.
  apply Z.mod_small. split; [apply Z.pow_nonneg; lia|].
  assert (Z.log2 val < 29).
  { destruct (Z.eq_dec val 0) as [->|]; [simpl; lia|].
    apply Z.log2_lt_pow2; lia. }
  pose proof (Z.log2_nonneg val).
  change 4294967296 with (2 ^ 32). apply Z.pow_lt_mono_r; lia.
Qed.

Lemma grown_capacity_gt (val : Z) : 0 <= val -> 2 * val < grown_capacity val.
Proof.
  intros Hval. unfold grown_capacity.
  pose proof (Z.log2_nonneg val).
  rewrite Z.pow_add_r by lia.
  destruct (Z.eq_dec val 0) as [->|Hne]; [simpl; lia|].
  pose proof (Z.log2_spec val ltac:(lia)) as [_ Hlt].
  rewrite Z.pow_succ_r in Hlt by lia. lia.
Qed.

Lemma grown_capacity_pow2 (val : Z) : is_pow2 (grown_capacity val).
Proof.
  exists (Z.log2 val + 2). pose proof (Z.log2_nonneg val). split; [lia|done].
Qed.

(** ** Loops that may end the call *)

Lemma foldM_app {A S : Type} (body : S -> A -> result S) (l1 l2 : list A) (s : S) :
  foldM body (l1 ++ l2) s = do s' <- foldM body l1 s; foldM body l2 s'.
Proof.
  revert s. induction l1 as [|a l1 IH]; intros s; simpl; [done|].
  destruct (body s a); simpl; auto.
Qed.

Lemma fold_left_ext {A B : Type} (f g : A -> B -> A) (l : list B) (a : A) :
  (forall a b, f a b = g a b) -> fold_left f l a = fold_left g l a.
Proof.
  intros Hfg. revert a. induction l as [|b l IH]; intros a; simpl; [done|].
  by rewrite Hfg, IH.
Qed.

(** A property that every successful round keeps holds when the loop
    returns. *)
Lemma foldM_invariant {A S : Type} (body : S -> A -> result S) (P : S -> Prop)
    (l : list A) (s s' : S) :
  (forall s a s', a ∈ l -> P s -> body s a = Ok s' -> P s') ->
  P s -> foldM body l s = Ok s' -> P s'.
Proof.
  revert s. induction l as [|a l IH]; intros s Hstep Hs Hrun; simpl in Hrun.
  - by injection Hrun as <-.
  - destruct (body s a) as [s1| |] eqn:Hbody; simpl in Hrun; try done.
    eapply IH; [|eapply Hstep; [|exact Hs|exact Hbody]|exact Hrun].
    + intros ? ? ? Hin. apply Hstep. by right.
    + by left.
Qed.

(** ** Entries up to [compressed_len] *)

Lemma cl_equiv_refl (e : queue_entry) : cl_equiv e e.
Proof. reflexivity. Qed.

Lemma cl_equiv_trans (e1 e2 e3 : queue_entry) :
  cl_equiv e1 e2 -> cl_equiv e2 e3 -> cl_equiv e1 e3.
Proof. unfold cl_equiv. congruence. Qed.

Lemma cl_equiv_sym (e1 e2 : queue_entry) : cl_equiv e1 e2 -> cl_equiv e2 e1.
Proof. unfold cl_equiv. congruence. Qed.

Lemma cl_equiv_set (e : queue_entry) (v : Z) : cl_equiv e (set_compressed_len e v).
Proof. reflexivity. Qed.

Lemma cl_equiv_len (e e' : queue_entry) : cl_equiv e e' -> len e = len e'.
Proof. intros H. apply (f_equal len) in H. exact H. Qed.

Lemma cl_equiv_testcase_buf (e e' : queue_entry) :
  cl_equiv e e' -> testcase_buf e = testcase_buf e'.
Proof. intros H. apply (f_equal testcase_buf) in H. exact H. Qed.

Lemma cl_equiv_payload (e e' : queue_entry) : cl_equiv e e' -> payload e = payload e'.
Proof.
  intros H. unfold payload.
  by rewrite (cl_equiv_len _ _ H), (cl_equiv_testcase_buf _ _ H).
Qed.

Lemma cl_equiv_input_hash (e e' : queue_entry) :
  cl_equiv e e' -> input_hash e = input_hash e'.
Proof. intros H. apply (f_equal input_hash) in H. exact H. Qed.

Lemma cl_equiv_duplicates (e e' : queue_entry) :
  cl_equiv e e' -> duplicates e = duplicates e'.
Proof. intros H. apply (f_equal duplicates) in H. exact H. Qed.

Lemma cl_equiv_trace_mini (e e' : queue_entry) :
  cl_equiv e e' -> trace_mini e = trace_mini e'.
Proof. intros H. apply (f_equal trace_mini) in H. exact H. Qed.

Lemma cl_equiv_favored (e e' : queue_entry) :
  cl_equiv e e' -> favored e = favored e'.
Proof. intros H. apply (f_equal favored) in H. exact H. Qed.

Lemma cl_equiv_ncdm_favored (e e' : queue_entry) :
  cl_equiv e e' -> ncdm_favored e = ncdm_favored e'.
Proof. intros H. apply (f_equal ncdm_favored) in H. exact H. Qed.

Lemma store_cl_equiv_refl (qs : qstore) : store_cl_equiv qs qs.
Proof.
  split; [|reflexivity]. apply Forall2_same_length_lookup_2; [done|].
  intros i x y Hx Hy. rewrite Hx in Hy. injection Hy as <-. reflexivity.
Qed.

Lemma store_cl_equiv_trans (q1 q2 q3 : qstore) :
  store_cl_equiv q1 q2 -> store_cl_equiv q2 q3 -> store_cl_equiv q1 q3.
Proof.
  intros [H12 S12] [H23 S23]. split; [|by eapply cl_equiv_trans].
  eapply Forall2_trans; [|exact H12|exact H23].
  intros ? ? ?. apply cl_equiv_trans.
Qed.

Lemma store_cl_equiv_length (qs qs' : qstore) :
  store_cl_equiv qs qs' -> length (queue_buf qs) = length (queue_buf qs').
Proof. intros [H _]. by eapply Forall2_length. Qed.

(** Entry by entry: the same pointers are live, and to equivalent
    entries. *)
Lemma store_cl_equiv_get (qs qs' : qstore) (p : qptr) :
  store_cl_equiv qs qs' ->
  match get_entry qs p with
  | Some e => exists e', get_entry qs' p = Some e' /\ cl_equiv e e'
  | None => get_entry qs' p = None
  end.
Proof.
  intros [Hq Hs]. destruct p as [i|]; simpl.
  - destruct (queue_buf qs !! i) as [e|] eqn:He.
    + destruct (Forall2_lookup_l _ _ _ _ _ Hq He) as (e' & He' & Hee').
      eauto.
    + apply lookup_ge_None. apply lookup_ge_None in He.
      by rewrite <- (Forall2_length _ _ _ Hq).
  - eauto.
Qed.

Lemma store_cl_equiv_set_entry (qs : qstore) (p : qptr) (e e' : queue_entry) :
  get_entry qs p = Some e -> cl_equiv e e' ->
  store_cl_equiv qs (set_entry qs p e').
Proof.
  intros Hget Hee'. destruct p as [i|]; simpl in *.
  - split; [|reflexivity]. simpl.
    apply Forall2_same_length_lookup_2; [by rewrite length_insert|].
    intros j x y Hx Hy. destruct (decide (i = j)) as [->|Hne].
    + rewrite list_lookup_insert_eq in Hy by (by eapply lookup_lt_Some).
      congruence.
    + rewrite list_lookup_insert_ne in Hy by done.
      rewrite Hx in Hy. injection Hy as <-. reflexivity.
  - injection Hget as <-. split; simpl; [|done].
    apply (proj1 (store_cl_equiv_refl qs)).
Qed.

Lemma get_set_entry_eq (qs : qstore) (p : qptr) (e e' : queue_entry) :
  get_entry qs p = Some e -> get_entry (set_entry qs p e') p = Some e'.
Proof.
  destruct p as [i|]; simpl; [|done].
  intros H. apply list_lookup_insert_eq. by eapply lookup_lt_Some.
Qed.

Lemma get_set_entry_ne (qs : qstore) (p q : qptr) (e' : queue_entry) :
  p <> q -> get_entry (set_entry qs p e') q = get_entry qs q.
Proof.
  destruct p as [i|], q as [j|]; simpl; try done.
  intros H. apply list_lookup_insert_ne. congruence.
Qed.

(** ** DiversityMetric: NCDm *)

Lemma entry_len_cl_equiv (qs qs' : qstore) (p : qptr) :
  store_cl_equiv qs qs' -> entry_len qs' p = entry_len qs p.
Proof.
  intros H. pose proof (store_cl_equiv_get qs qs' p H) as Hp.
  unfold entry_len. destruct (get_entry qs p) as [e|].
  - destruct Hp as (e' & -> & Hee'). symmetry. by apply cl_equiv_len.
  - by rewrite Hp.
Qed.

Lemma payload_at_cl_equiv (qs qs' : qstore) (p : qptr) :
  store_cl_equiv qs qs' -> payload_at qs' p = payload_at qs p.
Proof.
  intros H. pose proof (store_cl_equiv_get qs qs' p H) as Hp.
  unfold payload_at. destruct (get_entry qs p) as [e|].
  - destruct Hp as (e' & -> & Hee'). symmetry. by apply cl_equiv_payload.
  - by rewrite Hp.
Qed.

Lemma payloads_cl_equiv (qs qs' : qstore) (ps : list qptr) :
  store_cl_equiv qs qs' -> payloads qs' ps = payloads qs ps.
Proof.
  intros H. unfold payloads. apply map_ext. intros p.
  by apply payload_at_cl_equiv.
Qed.

Lemma sum_len_cl_equiv (qs qs' : qstore) (ps : list qptr) :
  store_cl_equiv qs qs' -> sum_len qs' ps = sum_len qs ps.
Proof.
  intros H. unfold sum_len. induction ps as [|p ps IH]; simpl; [done|].
  by rewrite IH, (entry_len_cl_equiv _ _ _ H).
Qed.

(** What one round of the first loop of [calc_NCDm] does when it returns. *)
Lemma ncdm_scan_step_inv `{Compressor} (sc : scratch) (qs qs' : qstore)
    (t t' m m' : Z) (p : qptr) :
  ncdm_scan_step sc (qs, t, m) p = Ok (qs', t', m') ->
  exists e e',
    get_entry qs p = Some e /\ cl_equiv e e' /\ qs' = set_entry qs p e'
    /\ t' = wrap32 (t + len e).
Proof.
  unfold ncdm_scan_step, load. destruct (get_entry qs p) as [e|]; simpl; [|done].
  intros Heq. injection Heq as <- <- <-.
  eexists e, _. split; [done|]. split; [|split; reflexivity].
  destruct (_ || _); [apply cl_equiv_set | apply cl_equiv_refl].
Qed.

(** The first loop only ever writes [compressed_len], and its [totalLen] is
    [total_len]. *)
Lemma ncdm_scan_frame `{Compressor} (sc : scratch) (ps : list qptr)
    (qs qs' : qstore) (t t' m m' : Z) :
  foldM (ncdm_scan_step sc) ps (qs, t, m) = Ok (qs', t', m') ->
  store_cl_equiv qs qs'
  /\ t' = fold_left (fun t p => wrap32 (t + entry_len qs p)) ps t.
Proof.
  revert qs t m. induction ps as [|p ps IH]; intros qs t m Hrun; simpl in Hrun.
  - injection Hrun as <- <- <-. split; [apply store_cl_equiv_refl|done].
  - destruct (ncdm_scan_step sc (qs, t, m) p) as [[[qs1 t1] m1]| |] eqn:Hstep;
      simpl in Hrun; try done.
    apply ncdm_scan_step_inv in Hstep as (e & e' & Hget & Hee' & -> & ->).
    apply IH in Hrun as [Hequiv ->].
    pose proof (store_cl_equiv_set_entry qs p e e' Hget Hee') as Hset.
    split; [by eapply store_cl_equiv_trans|].
    simpl. unfold entry_len at 3. rewrite Hget.
    apply fold_left_ext. intros t0 q. by rewrite (entry_len_cl_equiv _ _ _ Hset).
Qed.

(** [calc_NCDm] changes the store only in [compressed_len] fields, and the
    scratch only by the growth step. *)
Lemma calc_NCDm_frame `{Compressor} (sc sc' : scratch) (qs qs' : qstore)
    (ps : list qptr) (r : float) :
  calc_NCDm sc qs ps = Ok (sc', qs', r) ->
  store_cl_equiv qs qs'
  /\ sc' = (if prevLongest sc <=? total_len qs ps
            then grow_scratch (total_len qs ps) else sc).
Proof.
  unfold calc_NCDm. intros Hrun.
  destruct (foldM (ncdm_scan_step sc) ps (qs, 0, UINT32_MAX))
    as [[[qs1 t1] m1]| |] eqn:Hscan; simpl in Hrun; try done.
  apply ncdm_scan_frame in Hscan as [Hequiv ->].
  destruct (concat_payload qs1 ps); simpl in Hrun; try done.
  destruct (foldM _ (seq 0 (length ps)) 0); simpl in Hrun; try done.
  destruct (_ =? 0); injection Hrun as <- <- <-; done.
Qed.

Lemma fold_min_foldr (g : qptr -> Z) (l : list qptr) (m : Z) :
  fold_left (fun m p => Z.min (g p) m) l m = fold_right Z.min m (map g l).
Proof.
  revert m. induction l as [|x l IH]; intros m; simpl; [done|].
  rewrite IH. clear IH. induction l as [|y l IH]; simpl; [done|].
  rewrite IH. lia.
Qed.

Lemma fold_max_foldr (cs : list Z) (a : Z) :
  0 <= a ->
  fold_left (fun mx c => Z.max mx c) cs a = Z.max a (fold_right Z.max 0 cs).
Proof.
  revert a. induction cs as [|c cs IH]; intros a Ha; simpl; [lia|].
  rewrite IH by lia. lia.
Qed.

Lemma total_len_no_wrap (qs : qstore) (ps : list qptr) (t : Z) :
  Forall (fun p => 0 <= entry_len qs p) ps ->
  0 <= t -> t + sum_len qs ps < 4294967296 ->
  fold_left (fun t p => wrap32 (t + entry_len qs p)) ps t = t + sum_len qs ps.
Proof.
  revert t. induction ps as [|p ps IH]; intros t Hall Ht Hsum; simpl in *; [lia|].
  apply Forall_cons in Hall as [Hp Hall].
  assert (0 <= sum_len qs ps).
  { clear -Hall. induction Hall; simpl; lia. }
  unfold wrap32 at 2. rewrite Z.mod_small by lia.
  rewrite IH; [lia|done|lia|lia].
Qed.

Lemma payload_length (e : queue_entry) (buf : list Z) :
  testcase_buf e = Some buf -> 0 <= len e <= Z.of_nat (length buf) ->
  Z.of_nat (length (payload e)) = len e.
Proof.
  intros Hbuf Hlen. unfold payload, buf_prefix. rewrite Hbuf. simpl.
  rewrite length_take. lia.
Qed.

Section NCDm.
Context {X : Compressor} {L : CompressorLaws X}.

Lemma spec_C_range (x : list Z) : 0 <= spec_C x <= 2147483647.
Proof. apply LZ4_size_range. Qed.

Lemma entry_ready_len (sc : scratch) (qs : qstore) (p : qptr) :
  ptr_ready sc qs p ->
  0 <= entry_len qs p /\ Z.of_nat (length (payload_at qs p)) = entry_len qs p.
Proof.
  intros (e & Hget & buf & Hbuf & Hlen & _). unfold entry_len, payload_at.
  rewrite Hget. split; [lia|]. by eapply payload_length.
Qed.

Lemma ptr_ready_cap_mono (sc sc' : scratch) (qs : qstore) (p : qptr) :
  maxCompressedLen sc <= maxCompressedLen sc' ->
  ptr_ready sc qs p -> ptr_ready sc' qs p.
Proof.
  intros Hcap (e & Hget & buf & Hbuf & Hlen & Hcl).
  exists e. split; [done|]. exists buf. split; [done|]. split; [done|].
  destruct Hcl as [Hcached|[Hzero Hroom]]; [by left|right; split; [done|lia]].
Qed.

(** One round of the first loop on an entry that is ready. *)
Lemma ncdm_scan_step_ready (sc : scratch) (qs : qstore) (t m : Z) (p : qptr) :
  ptr_ready sc qs p ->
  exists qs',
    ncdm_scan_step sc (qs, t, m) p
    = Ok (qs', wrap32 (t + entry_len qs p), Z.min (spec_C (payload_at qs p)) m)
    /\ store_cl_equiv qs qs'
    /\ (forall q, ptr_ready sc qs q -> ptr_ready sc qs' q).
Proof.
  intros (e & Hget & buf & Hbuf & Hlen & Hcl).
  unfold ncdm_scan_step, load, entry_len, payload_at. rewrite Hget. simpl.
  rewrite Hbuf.
  assert (Hplen : Z.of_nat (length (payload e)) = len e)
    by (by eapply payload_length).
  destruct Hcl as [[Hcached Hnz]|[Hzero Hroom]].
  - (* the compressed length is known *)
    destruct (Z.eqb_spec (compressed_len e) 0) as [?|_]; [done|].
    rewrite bool_decide_eq_false_2 by done. simpl.
    exists (set_entry qs p e). split; [|split].
    + do 3 f_equal. rewrite Hcached.
      destruct (Z.ltb_spec (spec_C (payload e)) m); lia.
    + by apply (store_cl_equiv_set_entry _ _ e).
    + intros q (eq & Hq & Hready). destruct (decide (p = q)) as [<-|Hne].
      * exists e. rewrite (get_set_entry_eq _ _ e) by done.
        split; [done|]. rewrite Hget in Hq. by injection Hq as <-.
      * exists eq. by rewrite get_set_entry_ne.
  - (* it is computed now, with room to spare *)
    rewrite Hzero. simpl.
    assert (Hc : LZ4_compress_default (buf_prefix (len e) buf)
                                      (maxCompressedLen sc)
                 = spec_C (payload e)).
    { unfold spec_C, payload. rewrite Hbuf. simpl.
      apply LZ4_enough_capacity.
      unfold payload in Hplen. rewrite Hbuf in Hplen. simpl in Hplen.
      by rewrite Hplen. }
    rewrite Hc.
    eexists. split; [|split].
    + do 3 f_equal. destruct (Z.ltb_spec (spec_C (payload e)) m); lia.
    + apply (store_cl_equiv_set_entry _ _ e); [done|apply cl_equiv_set].
    + intros q (eq & Hq & Hready). destruct (decide (p = q)) as [<-|Hne].
      * eexists. rewrite (get_set_entry_eq _ _ e) by done.
        split; [done|]. exists buf. simpl. repeat split; try done; try lia.
        destruct (Z.eq_dec (spec_C (payload e)) 0) as [Hz|Hnz'].
        -- right. split; [done|lia].
        -- left. split; [|done]. unfold payload. simpl. reflexivity.
      * exists eq. by rewrite get_set_entry_ne.
Qed.

(** The first loop on entries that are ready. *)
Lemma ncdm_scan_ready (sc : scratch) (ps : list qptr) (qs : qstore) (t m : Z) :
  Forall (ptr_ready sc qs) ps ->
  exists qs',
    foldM (ncdm_scan_step sc) ps (qs, t, m)
    = Ok (qs',
          fold_left (fun t p => wrap32 (t + entry_len qs p)) ps t,
          fold_left (fun m p => Z.min (spec_C (payload_at qs p)) m) ps m)
    /\ store_cl_equiv qs qs'
    /\ (forall q, ptr_ready sc qs q -> ptr_ready sc qs' q).
Proof.
  revert qs t m. induction ps as [|p ps IH]; intros qs t m Hall; simpl.
  - exists qs. split; [done|]. split; [apply store_cl_equiv_refl|done].
  - apply Forall_cons in Hall as [Hp Hall].
    destruct (ncdm_scan_step_ready sc qs t m p Hp) as (qs1 & -> & Heq1 & Hr1).
    simpl.
    destruct (IH qs1 (wrap32 (t + entry_len qs p))
                 (Z.min (spec_C (payload_at qs p)) m)) as (qs' & -> & Heq & Hr).
    { eapply Forall_impl; [exact Hall|]. intros q. apply Hr1. }
    exists qs'. split; [|split].
    + do 2 f_equal; [f_equal|]; apply fold_left_ext; intros a q.
      * by rewrite (entry_len_cl_equiv _ _ _ Heq1).
      * by rewrite (payload_at_cl_equiv _ _ _ Heq1).
    + by eapply store_cl_equiv_trans.
    + intros q Hq. by apply Hr, Hr1.
Qed.

(** The [memcpy] loops on entries that are ready. *)
Lemma concat_payload_ready (sc : scratch) (qs : qstore) (ps : list qptr)
    (data : list Z) :
  Forall (ptr_ready sc qs) ps ->
  foldM (concat_step qs) ps data = Ok (data ++ concat (payloads qs ps)).
Proof.
  revert data. induction ps as [|p ps IH]; intros data Hall; simpl.
  - by rewrite app_nil_r.
  - apply Forall_cons in Hall as [(e & Hget & buf & Hbuf & _) Hall].
    unfold concat_step at 1, load, payload_at. rewrite Hget. simpl.
    rewrite Hbuf. simpl. rewrite IH by done.
    unfold payload. rewrite Hbuf. simpl. by rewrite <- app_assoc.
Qed.

Lemma payloads_length_sum (sc : scratch) (qs : qstore) (ps : list qptr) :
  Forall (ptr_ready sc qs) ps ->
  Z.of_nat (length (concat (payloads qs ps))) = sum_len qs ps.
Proof.
  induction 1 as [|p ps Hp _ IH]; simpl; [done|].
  rewrite length_app, Nat2Z.inj_add, IH.
  by rewrite (proj2 (entry_ready_len _ _ _ Hp)).
Qed.

Lemma payloads_delete (qs : qstore) (ps : list qptr) (i : nat) :
  payloads qs (delete i ps) = delete i (payloads qs ps).
Proof.
  unfold payloads. revert i. induction ps as [|p ps IH]; intros [|i]; simpl;
    try done. by rewrite IH.
Qed.

Lemma sum_len_nonneg (sc : scratch) (qs : qstore) (ps : list qptr) :
  Forall (ptr_ready sc qs) ps -> 0 <= sum_len qs ps.
Proof.
  induction 1 as [|p ps Hp _ IH]; simpl; [done|].
  pose proof (proj1 (entry_ready_len _ _ _ Hp)). lia.
Qed.

Lemma sum_len_delete (sc : scratch) (qs : qstore) (ps : list qptr) (i : nat) :
  Forall (ptr_ready sc qs) ps ->
  0 <= sum_len qs (delete i ps) <= sum_len qs ps.
Proof.
  intros Hall. revert i. induction Hall as [|p ps Hp Hall IH]; intros i.
  - destruct i; simpl; lia.
  - pose proof (proj1 (entry_ready_len _ _ _ Hp)).
    pose proof (sum_len_nonneg _ _ _ Hall).
    destruct i as [|i]; simpl; [lia|].
    specialize (IH i). lia.
Qed.

End NCDm.

Lemma foldr_min_cap (a M : Z) (l : list Z) :
  a <= M -> Z.min a (fold_right Z.min M l) = fold_right Z.min a l.
Proof. intros Ha. induction l as [|x l IH]; simpl; lia. Qed.

Lemma foldr_max_nonneg (l : list Z) : 0 <= fold_right Z.max 0 l.
Proof. induction l; simpl; lia. Qed.

Section NCDmValue.
Context {X : Compressor} {L : CompressorLaws X}.

(** The scratch after the growth step of [calc_NCDm] holds any source of at
    most [totalLen] bytes. *)
Lemma scratch_after_growth (sc : scratch) (T : Z) :
  scratch_ok sc -> 0 <= T < 2 ^ 29 ->
  let sc' := if prevLongest sc <=? T then grow_scratch T else sc in
  scratch_ok sc'
  /\ prevLongest sc <= prevLongest sc'
  /\ maxCompressedLen sc <= maxCompressedLen sc'
  /\ T < prevLongest sc'
  /\ (forall n, 0 <= n <= T -> LZ4_compressBound n <= maxCompressedLen sc').
Proof.
  intros [Hrange Hcap] HT. simpl.
  destruct (Z.leb_spec (prevLongest sc) T) as [Hgrow|Hkeep].
  - pose proof (grow_scratch_prevLongest T HT) as Hprev.
    pose proof (grown_capacity_gt T ltac:(lia)) as Hgt.
    assert (Hle : grown_capacity T <= 2 ^ 30).
    { unfold grown_capacity.
      assert (Z.log2 T < 29).
      { destruct (Z.eq_dec T 0) as [->|]; [simpl; lia|].
        apply Z.log2_lt_pow2; lia. }
      pose proof (Z.log2_nonneg T).
      apply Z.pow_le_mono_r; lia. }
    assert (Hmax : maxCompressedLen (grow_scratch T)
                   = LZ4_compressBound (prevLongest (grow_scratch T)))
      by reflexivity.
    unfold scratch_ok. rewrite Hmax, Hprev.
    split; [split; [lia|by left]|].
    split; [lia|]. split; [|split; [lia|]].
    + destruct Hcap as [->|[_ ->]].
      * apply LZ4_compressBound_mono; lia.
      * etransitivity; [apply LZ4_compressBound_nonneg|].
        apply LZ4_compressBound_mono; lia.
    + intros n Hn. apply LZ4_compressBound_mono; lia.
  - split; [done|]. split; [lia|]. split; [lia|]. split; [lia|].
    intros n Hn. destruct Hcap as [->|[? _]]; [|lia].
    apply LZ4_compressBound_mono; lia.
Qed.

(** The loop over [leftOut] on entries that are ready, with a scratch that
    holds their concatenation. *)
Lemma ncdm_subset_ready (sc sc' : scratch) (qs : qstore) (ps : list qptr)
    (idx : list nat) (a : Z) :
  Forall (ptr_ready sc qs) ps ->
  (forall n, 0 <= n <= sum_len qs ps ->
             LZ4_compressBound n <= maxCompressedLen sc') ->
  foldM (ncdm_subset_step sc' qs ps) idx a
  = Ok (fold_left (fun mx c => Z.max mx c)
          (map (fun i => spec_C (concat (delete i (payloads qs ps)))) idx) a).
Proof.
  intros Hall Hcap. revert a. induction idx as [|i idx IH]; intros a; simpl.
  - done.
  - unfold ncdm_subset_step at 1, concat_payload.
    pose proof (Forall_delete _ _ i Hall) as Hdel.
    rewrite (concat_payload_ready sc) by done. simpl.
    rewrite payloads_delete.
    assert (Hc : LZ4_compress_default (concat (delete i (payloads qs ps)))
                                      (maxCompressedLen sc')
                 = spec_C (concat (delete i (payloads qs ps)))).
    { apply LZ4_enough_capacity, Hcap.
      rewrite <- payloads_delete, (payloads_length_sum sc) by done.
      by apply (sum_len_delete sc). }
    rewrite Hc, IH. do 2 f_equal.
    destruct (Z.ltb_spec a (spec_C (concat (delete i (payloads qs ps))))); lia.
Qed.

(** [calc_NCDm] on entries that are ready: it returns, with the NCDm of the
    spec for their testcases, and leaves them ready. *)
Lemma calc_NCDm_spec (sc : scratch) (qs : qstore) (ps : list qptr) :
  scratch_ok sc ->
  Forall (ptr_ready sc qs) ps ->
  sum_len qs ps < 2 ^ 29 ->
  exists sc' qs',
    calc_NCDm sc qs ps = Ok (sc', qs', spec_NCDm (payloads qs ps))
    /\ sc' = (if prevLongest sc <=? sum_len qs ps
              then grow_scratch (sum_len qs ps) else sc)
    /\ scratch_ok sc'
    /\ store_cl_equiv qs qs'
    /\ (forall q, ptr_ready sc qs q -> ptr_ready sc' qs' q).
Proof.
  intros Hsc Hall Hsum.
  pose proof (sum_len_nonneg _ _ _ Hall) as Hnn.
  destruct (ncdm_scan_ready sc ps qs 0 UINT32_MAX Hall)
    as (qs1 & Hscan & Hequiv & Hready).
  rewrite total_len_no_wrap in Hscan; cycle 1.
  { eapply Forall_impl; [exact Hall|]. intros p Hp.
    apply (entry_ready_len _ _ _ Hp). }
  { lia. }
  { lia. }
  rewrite Z.add_0_l in Hscan.
  destruct (scratch_after_growth sc (sum_len qs ps) Hsc ltac:(lia))
    as (Hsc' & _ & Hcapmono & _ & Hroom).
  set (sc' := if prevLongest sc <=? sum_len qs ps
              then grow_scratch (sum_len qs ps) else sc) in *.
  assert (Hall1 : Forall (ptr_ready sc qs1) ps).
  { eapply Forall_impl; [exact Hall|]. intros p. apply Hready. }
  exists sc', qs1. split; [|split; [done|split; [done|split; [done|]]]].
  - unfold calc_NCDm. rewrite Hscan. simpl. fold sc'.
    unfold concat_payload. rewrite (concat_payload_ready sc) by done. simpl.
    rewrite (ncdm_subset_ready sc sc') by
      (try done; by rewrite (sum_len_cl_equiv _ _ _ Hequiv)).
    simpl. rewrite (payloads_cl_equiv _ _ _ Hequiv).
    rewrite fold_max_foldr by lia.
    rewrite Z.max_r by apply foldr_max_nonneg.
    assert (Hlen : length (payloads qs ps) = length ps)
      by (unfold payloads; apply length_map).
    unfold spec_NCDm, spec_max. rewrite Hlen.
    destruct (_ =? 0) eqn:Hmax0; [done|].
    assert (Hfull : LZ4_compress_default (concat (payloads qs ps))
                                         (maxCompressedLen sc')
                    = spec_C (concat (payloads qs ps))).
    { unfold spec_C. apply LZ4_enough_capacity, Hroom.
      rewrite (payloads_length_sum sc) by done. lia. }
    assert (Hmin : fold_left (fun m p => Z.min (spec_C (payload_at qs p)) m)
                             ps UINT32_MAX
                   = spec_min (map spec_C (payloads qs ps))).
    { rewrite fold_min_foldr. unfold payloads. rewrite map_map.
      destruct ps as [|p ps]; simpl.
      - (* no entry: the largest subset size is 0 *)
        simpl in Hmax0. discriminate.
      - apply foldr_min_cap. pose proof (spec_C_range (payload_at qs p)).
        unfold UINT32_MAX. lia. }
    by rewrite Hfull, Hmin.
  - intros q Hq. eapply ptr_ready_cap_mono; [exact Hcapmono|by apply Hready].
Qed.

End NCDmValue.

(** * Further properties of the routines of the file *)

(** ** BitmapOps: buckets and cell positions *)

Lemma bucket_of_class_table (v : Z) :
  is_byte v -> v <> 0 ->
  let class := lookup8 count_class_lookup8 v in
  0 <= bucket_of_class class <= 7 /\ class = 2 ^ bucket_of_class class.
Proof.
  intros Hv Hne.
  pose proof (for_all_bytes
    (fun v => (v =? 0)
              || ((0 <=? bucket_of_class (lookup8 count_class_lookup8 v))
                  && (bucket_of_class (lookup8 count_class_lookup8 v) <=? 7)
                  && (lookup8 count_class_lookup8 v
                      =? 2 ^ bucket_of_class (lookup8 count_class_lookup8 v))))) as H.
  specialize (H ltac:(vm_compute; reflexivity) v Hv). simpl in H.
  apply orb_true_iff in H as [H|H]; [lia|].
  apply andb_true_iff in H as [H H3]. apply andb_true_iff in H as [H1 H2].
  simpl. lia.
Qed.

(** The cell a non-zero trace byte selects. For the byte [v] of edge [edge],
    [save_to_edge_entries] computes the bucket [reps] by shifting the class
    and the position [8 * edge + reps]: the bucket is the base-2 logarithm
    of the class and lies in 0..7, so the position is one of the eight cells
    of the edge and tells edge and bucket apart. *)
Theorem cell_position_of_trace_byte (edge : nat) (v : Z) :
  is_byte v -> v <> 0 -> 8 * Z.of_nat edge + 7 < 4294967296 ->
  let class := lookup8 count_class_lookup8 v in
  let reps := bucket_of_class class in
  let pos := Z.to_nat (wrap32 (8 * Z.of_nat edge + reps)) in
  class = 2 ^ reps /\ 0 <= reps <= 7
  /\ (pos / 8 = edge)%nat /\ Z.of_nat (pos mod 8) = reps.
Proof.
  intros Hv Hne Hedge class reps pos.
  destruct (bucket_of_class_table v Hv Hne) as [Hr Hc].
  fold class in Hr, Hc. fold reps in Hr, Hc.
  assert (Hpos : pos = (8 * edge + Z.to_nat reps)%nat).
  { unfold pos, wrap32. rewrite Z.mod_small by lia. lia. }
  split; [done|]. split; [done|]. rewrite Hpos. split.
  - symmetry. apply (Nat.div_unique _ 8 edge (Z.to_nat reps)); lia.
  - assert ((8 * edge + Z.to_nat reps) mod 8 = Z.to_nat reps)%nat as ->; [|lia].
    symmetry. apply (Nat.mod_unique _ 8 edge (Z.to_nat reps)); lia.
Qed.

Lemma cell_position_of_trace_byte_witness :
  let class := lookup8 count_class_lookup8 5 in
  let reps := bucket_of_class class in
  let pos := Z.to_nat (wrap32 (8 * Z.of_nat 4 + reps)) in
  class = 2 ^ reps /\ 0 <= reps <= 7
  /\ (pos / 8 = 4)%nat /\ Z.of_nat (pos mod 8) = reps.
Proof.
  apply (cell_position_of_trace_byte 4 5); unfold is_byte; lia.
Defined.

(** Simplifying a trace gives the same bytes whether or not its counts were
    classified first, and never a zero byte: [simplify_lookup] sends 0 to 1
    and every other byte, classified or not, to 128. *)
Theorem simplify_after_classify (v : Z) :
  is_byte v ->
  lookup8 simplify_lookup (lookup8 count_class_lookup8 v)
  = lookup8 simplify_lookup v
  /\ lookup8 simplify_lookup v = (if v =? 0 then 1 else 128).
Proof.
  intros Hv.
  pose proof (for_all_bytes
    (fun v => (lookup8 simplify_lookup (lookup8 count_class_lookup8 v)
               =? lookup8 simplify_lookup v)
              && (lookup8 simplify_lookup v =? (if v =? 0 then 1 else 128)))) as H.
  specialize (H ltac:(vm_compute; reflexivity) v Hv). simpl in H.
  apply andb_true_iff in H as [H1 H2]. lia.
Qed.

Lemma simplify_after_classify_witness :
  lookup8 simplify_lookup (lookup8 count_class_lookup8 9)
  = lookup8 simplify_lookup 9
  /\ lookup8 simplify_lookup 9 = (if 9 =? 0 then 1 else 128).
Proof. apply (simplify_after_classify 9). unfold is_byte. lia. Defined.

(** ** Reads and writes of a buffer *)

Lemma rd_lookup (l : list Z) (i : nat) : rd l i = default 0 (l !! i).
Proof. unfold rd. by rewrite nth_lookup. Qed.

Lemma rd_insert_eq (l : list Z) (i : nat) (x : Z) :
  (i < length l)%nat -> rd (<[i := x]> l) i = x.
Proof. intros H. by rewrite rd_lookup, list_lookup_insert_eq. Qed.

Lemma rd_insert_ne (l : list Z) (i j : nat) (x : Z) :
  i <> j -> rd (<[i := x]> l) j = rd l j.
Proof. intros H. by rewrite !rd_lookup, list_lookup_insert_ne. Qed.

Lemma rd_replicate (n i : nat) : rd (replicate n 0) i = 0.
Proof.
  rewrite rd_lookup. destruct (replicate n 0 !! i) as [x|] eqn:H; [|done].
  by apply lookup_replicate in H as [-> _].
Qed.

Lemma rd_take (l : list Z) (n i : nat) : (i < n)%nat -> rd (take n l) i = rd l i.
Proof. intros H. by rewrite !rd_lookup, lookup_take_lt. Qed.

Lemma rd_is_byte (l : list Z) (i : nat) : Forall is_byte l -> is_byte (rd l i).
Proof.
  intros Hl. rewrite rd_lookup. destruct (l !! i) as [x|] eqn:H; simpl.
  - by eapply Forall_lookup_1.
  - unfold is_byte. lia.
Qed.

Lemma fold_left_seq_S {A : Type} (f : A -> nat -> A) (n : nat) (a : A) :
  fold_left f (seq 0 (S n)) a = f (fold_left f (seq 0 n) a) n.
Proof. by rewrite seq_S, fold_left_app. Qed.

(** ** BitmapOps: minimize_bits *)

Lemma minimize_bits_step_length (src dst : list Z) (i : nat) :
  length (minimize_bits_step src dst i) = length dst.
Proof.
  unfold minimize_bits_step. destruct (_ =? 0); [done|]. apply length_insert.
Qed.

Lemma minimize_bits_prefix_length (src : list Z) (m : nat) (dst : list Z) :
  length (fold_left (minimize_bits_step src) (seq 0 m) dst) = length dst.
Proof.
  induction m as [|m IH]; [done|].
  by rewrite fold_left_seq_S, minimize_bits_step_length.
Qed.

Lemma minimize_bits_prefix_bits (src : list Z) (m : nat) (dst : list Z)
    (k : nat) (j : Z) :
  (k < length dst)%nat -> 0 <= j ->
  Z.testbit (rd (fold_left (minimize_bits_step src) (seq 0 m) dst) k) j
  = Z.testbit (rd dst k) j
    || ((j <? 8) && (8 * Z.of_nat k + j <? Z.of_nat m)
        && negb (rd src (Z.to_nat (8 * Z.of_nat k + j)) =? 0)).
Proof.
  intros Hk Hj. induction m as [|m IH].
  - simpl. destruct (j <? 8); simpl; [|by rewrite orb_false_r].
    destruct (Z.ltb_spec (8 * Z.of_nat k + j) (Z.of_nat 0)); [lia|].
    by rewrite orb_false_r.
  - rewrite fold_left_seq_S.
    set (d := fold_left (minimize_bits_step src) (seq 0 m) dst) in *.
    assert (Hlen : length d = length dst)
      by apply minimize_bits_prefix_length.
    assert (Hshift : Z.shiftr (Z.of_nat m) 3 = Z.of_nat m / 8)
      by (by rewrite Z.shiftr_div_pow2).
    assert (Hland : Z.land (Z.of_nat m) 7 = Z.of_nat m mod 8)
      by (change 7 with (Z.ones 3); by rewrite Z.land_ones).
    pose proof (Z.div_mod (Z.of_nat m) 8 ltac:(lia)) as Hdm.
    pose proof (Z.mod_pos_bound (Z.of_nat m) 8 ltac:(lia)) as Hmod.
    unfold minimize_bits_step.
    destruct (Z.eqb_spec (rd src m) 0) as [Hzero|Hnz].
    + (* nothing is written for a zero byte *)
      rewrite IH. f_equal.
      destruct (Z.ltb_spec j 8); simpl; [|done].
      destruct (Z.ltb_spec (8 * Z.of_nat k + j) (Z.of_nat m)),
               (Z.ltb_spec (8 * Z.of_nat k + j) (Z.of_nat (S m)));
        simpl; try done; try lia.
      assert (Z.to_nat (8 * Z.of_nat k + j) = m) as -> by lia.
      rewrite Hzero. done.
    + rewrite Hshift, Hland.
      destruct (decide (Z.to_nat (Z.of_nat m / 8) = k)) as [Heq|Hne].
      * (* the byte that is written *)
        rewrite Heq, rd_insert_eq by lia.
        rewrite Z.lor_spec, IH, Z.shiftl_1_l, Z.pow2_bits_eqb by lia.
        rewrite <- orb_assoc. f_equal.
        assert (Hk8 : Z.of_nat m / 8 = Z.of_nat k) by lia.
        destruct (Z.ltb_spec j 8); simpl.
        -- destruct (Z.eqb_spec (Z.of_nat m mod 8) j) as [Hj8|Hj8].
           ++ assert (Z.to_nat (8 * Z.of_nat k + j) = m) as Hm by lia.
              rewrite Hm.
              destruct (Z.eqb_spec (rd src m) 0); [done|]. simpl.
              destruct (Z.ltb_spec (8 * Z.of_nat k + j) (Z.of_nat m)); [lia|].
              destruct (Z.ltb_spec (8 * Z.of_nat k + j) (Z.of_nat (S m))); [|lia].
              done.
           ++ rewrite orb_false_r.
              destruct (Z.ltb_spec (8 * Z.of_nat k + j) (Z.of_nat m)),
                (Z.ltb_spec (8 * Z.of_nat k + j) (Z.of_nat (S m)));
                simpl; try done; lia.
        -- destruct (Z.eqb_spec (Z.of_nat m mod 8) j); [lia|done].
      * (* another byte *)
        rewrite rd_insert_ne by done. rewrite IH. f_equal.
        destruct (Z.ltb_spec j 8); simpl; [|done].
        destruct (Z.ltb_spec (8 * Z.of_nat k + j) (Z.of_nat m)),
                 (Z.ltb_spec (8 * Z.of_nat k + j) (Z.of_nat (S m)));
          simpl; try done; lia.
Qed.

(** [minimize_bits] ORs one bit per non-zero byte of [src] into [dst] and
    writes nothing else: afterwards bit [j] of byte [k] of [dst] is what it
    was, or is set because [j < 8], [8k + j < map_size] and
    [src[8k + j]] is not zero. The buffer keeps its length. *)
Theorem minimize_bits_sets_exactly (map_size : Z) (dst src : list Z)
    (k : nat) (j : Z) :
  (k < length dst)%nat -> 0 <= j ->
  trace_bit (minimize_bits map_size dst src) k j
  = trace_bit dst k j
    || ((j <? 8) && (8 * Z.of_nat k + j <? map_size)
        && negb (rd src (Z.to_nat (8 * Z.of_nat k + j)) =? 0))
  /\ length (minimize_bits map_size dst src) = length dst.
Proof.
  intros Hk Hj. unfold trace_bit, minimize_bits. split.
  - rewrite minimize_bits_prefix_bits by done. do 2 f_equal.
    destruct (Z.ltb_spec (8 * Z.of_nat k + j) (Z.of_nat (Z.to_nat map_size))),
             (Z.ltb_spec (8 * Z.of_nat k + j) map_size); try done; lia.
  - apply minimize_bits_prefix_length.
Qed.

Lemma minimize_bits_sets_exactly_witness :
  trace_bit (minimize_bits 16 [0; 0] [0; 9; 0; 0; 1; 0; 0; 0; 0; 0; 0; 0; 0; 0; 0; 7]) 1 7
  = trace_bit [0; 0] 1 7
    || ((7 <? 8) && (8 * Z.of_nat 1 + 7 <? 16)
        && negb (rd [0; 9; 0; 0; 1; 0; 0; 0; 0; 0; 0; 0; 0; 0; 0; 7]
                    (Z.to_nat (8 * Z.of_nat 1 + 7)) =? 0))
  /\ length (minimize_bits 16 [0; 0]
               [0; 9; 0; 0; 1; 0; 0; 0; 0; 0; 0; 0; 0; 0; 0; 7]) = length [0; 0].
Proof.
  apply (minimize_bits_sets_exactly 16 [0; 0]
           [0; 9; 0; 0; 1; 0; 0; 0; 0; 0; 0; 0; 0; 0; 0; 7] 1 7); simpl; lia.
Defined.

(** ** Queue: comparing and merging packed traces *)

Lemma lor_absorbs_iff (a b : Z) :
  Z.lor a b = b <-> (forall j, 0 <= j -> Z.testbit a j = true -> Z.testbit b j = true).
Proof.
  split.
  - intros Heq j Hj Ha. rewrite <- Heq, Z.lor_spec, Ha. done.
  - intros Hsub. apply Z.bits_inj'. intros j Hj. rewrite Z.lor_spec.
    specialize (Hsub j Hj). destruct (Z.testbit a j); [|done].
    by rewrite Hsub.
Qed.

Lemma existsb_seq_false (f : nat -> bool) (n : nat) :
  existsb f (seq 0 n) = false <-> (forall i, (i < n)%nat -> f i = false).
Proof.
  split.
  - intros H i Hi. destruct (f i) eqn:Hfi; [|done].
    assert (existsb f (seq 0 n) = true); [|congruence].
    apply existsb_exists. exists i. split; [apply in_seq; lia|done].
  - intros H. destruct (existsb f (seq 0 n)) eqn:Hex; [|done].
    apply existsb_exists in Hex as (i & Hin & Hfi). apply in_seq in Hin.
    rewrite H in Hfi by lia. done.
Qed.

Lemma trace_contains_new_coverage_false (map_size : Z) (trace1 trace2 : list Z) :
  trace_contains_new_coverage map_size trace1 trace2 = false
  <-> (forall i, (i < word_span map_size)%nat ->
         Z.lor (rd trace1 i) (rd trace2 i) = rd trace2 i).
Proof.
  unfold trace_contains_new_coverage. rewrite existsb_seq_false.
  split; intros H i Hi; specialize (H i Hi).
  - apply negb_false_iff in H. lia.
  - apply negb_false_iff. lia.
Qed.

(** What the two comparisons of packed traces decide, over the words they
    walk: [trace_contains_new_coverage] returns 0 exactly when every bit set
    in [trace1] is set in [trace2]; [compare_trace_minis] returns 0 exactly
    when the two traces have the same bytes; so traces that compare equal
    hold no new coverage for one another. *)
Theorem trace_comparisons_decide (map_size : Z) (trace1 trace2 : list Z) :
  (trace_contains_new_coverage map_size trace1 trace2 = false
   <-> (forall i j, (i < word_span map_size)%nat -> 0 <= j ->
          trace_bit trace1 i j = true -> trace_bit trace2 i j = true))
  /\ (compare_trace_minis map_size trace1 trace2 = false
      <-> (forall i, (i < word_span map_size)%nat -> rd trace1 i = rd trace2 i))
  /\ (compare_trace_minis map_size trace1 trace2 = false ->
      trace_contains_new_coverage map_size trace1 trace2 = false
      /\ trace_contains_new_coverage map_size trace2 trace1 = false).
Proof.
  assert (Hcmp : compare_trace_minis map_size trace1 trace2 = false
      <-> (forall i, (i < word_span map_size)%nat -> rd trace1 i = rd trace2 i)).
  { unfold compare_trace_minis. rewrite existsb_seq_false.
    split; intros H i Hi; specialize (H i Hi).
    - apply negb_false_iff in H. lia.
    - apply negb_false_iff. lia. }
  split; [|split; [exact Hcmp|]].
  - rewrite trace_contains_new_coverage_false. unfold trace_bit. split.
    + intros H i j Hi Hj. apply (proj1 (lor_absorbs_iff _ _) (H i Hi) j Hj).
    + intros H i Hi. apply lor_absorbs_iff. intros j Hj. by apply H.
  - intros Heq. rewrite Hcmp in Heq.
    split; apply trace_contains_new_coverage_false; intros i Hi;
      rewrite (Heq i Hi); apply Z.lor_diag.
Qed.

Lemma or_trace_prefix (m : nat) (discovered new_input_map : list Z) (i : nat) :
  (i < length discovered)%nat ->
  let d := fold_left (fun d i => <[i := Z.lor (rd d i) (rd new_input_map i)]> d)
                     (seq 0 m) discovered in
  length d = length discovered
  /\ rd d i = (if (i <? m)%nat then Z.lor (rd discovered i) (rd new_input_map i)
               else rd discovered i).
Proof.
  intros Hi. cbv zeta. induction m as [|m [IHlen IHrd]].
  - done.
  - rewrite fold_left_seq_S.
    set (d := fold_left _ (seq 0 m) discovered) in *.
    split; [by rewrite length_insert|].
    destruct (decide (m = i)) as [->|Hne].
    + rewrite rd_insert_eq by lia. rewrite IHrd.
      destruct (Nat.ltb_spec i i); [lia|].
      destruct (Nat.ltb_spec i (S i)); [done|lia].
    + rewrite rd_insert_ne by done. rewrite IHrd.
      destruct (Nat.ltb_spec i m), (Nat.ltb_spec i (S m)); try done; lia.
Qed.

Lemma or_trace_rd (map_size : Z) (discovered new_input_map : list Z) (i : nat) :
  (i < length discovered)%nat ->
  rd (or_trace map_size discovered new_input_map) i
  = (if (i <? word_span map_size)%nat
     then Z.lor (rd discovered i) (rd new_input_map i)
     else rd discovered i).
Proof. intros Hi. apply (or_trace_prefix (word_span map_size)), Hi. Qed.

(** The merge of a selected trace into the running cover, as
    [set_NCDm_favored] does it with [*discovered |= *new_input_map]: when the
    cover is as long as the words walked, the merged cover holds every bit
    of the old cover and of the trace and no other; the trace has no new
    coverage against it; and a trace without new coverage against the old
    cover has none against the new one. *)
Theorem or_trace_absorbs (map_size : Z) (cover t : list Z) :
  (word_span map_size <= length cover)%nat ->
  (forall i j, (i < word_span map_size)%nat -> 0 <= j ->
     trace_bit (or_trace map_size cover t) i j
     = trace_bit cover i j || trace_bit t i j)
  /\ trace_contains_new_coverage map_size t (or_trace map_size cover t) = false
  /\ (forall u, trace_contains_new_coverage map_size u cover = false ->
        trace_contains_new_coverage map_size u (or_trace map_size cover t) = false).
Proof.
  intros Hlen.
  assert (Hrd : forall i, (i < word_span map_size)%nat ->
            rd (or_trace map_size cover t) i = Z.lor (rd cover i) (rd t i)).
  { intros i Hi. rewrite or_trace_rd by lia.
    destruct (Nat.ltb_spec i (word_span map_size)); [done|lia]. }
  split; [|split].
  - intros i j Hi Hj. unfold trace_bit. by rewrite Hrd, Z.lor_spec.
  - apply trace_contains_new_coverage_false. intros i Hi. rewrite Hrd by done.
    rewrite Z.lor_assoc, (Z.lor_comm (rd t i)), <- Z.lor_assoc, Z.lor_diag. done.
  - intros u Hu. rewrite trace_contains_new_coverage_false in Hu.
    apply trace_contains_new_coverage_false. intros i Hi. rewrite Hrd by done.
    by rewrite Z.lor_assoc, Hu.
Qed.

Lemma or_trace_absorbs_witness :
  (forall i j, (i < word_span 64)%nat -> 0 <= j ->
     trace_bit (or_trace 64 [1; 0; 0; 0; 0; 0; 0; 0] [6; 0; 0; 0; 0; 0; 0; 128]) i j
     = trace_bit [1; 0; 0; 0; 0; 0; 0; 0] i j
       || trace_bit [6; 0; 0; 0; 0; 0; 0; 128] i j)
  /\ trace_contains_new_coverage 64 [6; 0; 0; 0; 0; 0; 0; 128]
       (or_trace 64 [1; 0; 0; 0; 0; 0; 0; 0] [6; 0; 0; 0; 0; 0; 0; 128]) = false
  /\ (forall u, trace_contains_new_coverage 64 u [1; 0; 0; 0; 0; 0; 0; 0] = false ->
        trace_contains_new_coverage 64 u
          (or_trace 64 [1; 0; 0; 0; 0; 0; 0; 0] [6; 0; 0; 0; 0; 0; 0; 128]) = false).
Proof.
  apply (or_trace_absorbs 64 [1; 0; 0; 0; 0; 0; 0; 0] [6; 0; 0; 0; 0; 0; 0; 128]).
  vm_compute. lia.
Defined.

(** ** Hashfuzz: check_if_new_partition *)

Lemma land_pow2_eq_0 (a p : Z) :
  0 <= p -> (Z.land a (2 ^ p) =? 0) = negb (Z.testbit a p).
Proof.
  intros Hp. destruct (Z.testbit a p) eqn:Hbit; simpl.
  - apply Z.eqb_neq. intros Hz.
    assert (Z.testbit (Z.land a (2 ^ p)) p = true)
      by (by rewrite Z.land_spec, Hbit, Z.pow2_bits_true).
    rewrite Hz, Z.bits_0 in H. done.
  - apply Z.eqb_eq. apply Z.bits_inj'. intros j Hj.
    rewrite Z.land_spec, Z.bits_0, Z.pow2_bits_eqb by done.
    destruct (Z.eqb_spec p j) as [->|]; [by rewrite Hbit|apply andb_false_r].
Qed.

Lemma popcount_range (w : nat) (v : Z) : 0 <= popcount w v <= Z.of_nat w.
Proof.
  unfold popcount. induction w as [|w IH]; [simpl; lia|].
  rewrite seq_S, fold_right_app. simpl.
  assert (Hgen : forall l a, fold_right
            (fun j acc => (if Z.testbit v (Z.of_nat j) then 1 else 0) + acc) a l
          = a + fold_right
            (fun j acc => (if Z.testbit v (Z.of_nat j) then 1 else 0) + acc) 0 l).
  { induction l as [|x l IHl]; intros a; simpl; [lia|]. rewrite IHl. lia. }
  rewrite Hgen. destruct (Z.testbit v (Z.of_nat w)); lia.
Qed.

Lemma popcount_S (w : nat) (v : Z) :
  popcount (S w) v = popcount w v + (if Z.testbit v (Z.of_nat w) then 1 else 0).
Proof.
  unfold popcount. rewrite seq_S, fold_right_app. simpl.
  generalize (if Z.testbit v (Z.of_nat w) then 1 else 0). intros c.
  induction (seq 0 w) as [|x l IHl]; simpl; [lia|]. rewrite IHl. lia.
Qed.

(** Setting a bit that was clear adds one to the count when the bit is
    among those counted. *)
Lemma popcount_set_bit (w : nat) (v p : Z) :
  0 <= p -> Z.testbit v p = false ->
  popcount w (Z.lor v (2 ^ p)) = popcount w v + (if p <? Z.of_nat w then 1 else 0).
Proof.
  intros Hp Hbit. induction w as [|w IH].
  - unfold popcount. simpl. destruct (Z.ltb_spec p (Z.of_nat 0)); lia.
  - rewrite !popcount_S, IH, Z.lor_spec, Z.pow2_bits_eqb by done.
    destruct (Z.eqb_spec p (Z.of_nat w)) as [->|Hne].
    + rewrite Hbit. simpl.
      destruct (Z.ltb_spec (Z.of_nat w) (Z.of_nat w)); [lia|].
      destruct (Z.ltb_spec (Z.of_nat w) (Z.of_nat (S w))); lia.
    + rewrite orb_false_r.
      destruct (Z.ltb_spec p (Z.of_nat w)), (Z.ltb_spec p (Z.of_nat (S w))); lia.
Qed.

Lemma popcount_pow2 (w : nat) (p : Z) :
  0 <= p < Z.of_nat w -> popcount w (2 ^ p) = 1.
Proof.
  intros Hp. rewrite <- (Z.lor_0_l (2 ^ p)).
  rewrite popcount_set_bit by (try apply Z.bits_0; lia).
  destruct (Z.ltb_spec p (Z.of_nat w)); [|lia].
  pose proof (popcount_range w 0) as H0.
  assert (popcount w 0 = 0); [|lia].
  clear. induction w as [|w IH]; [done|].
  rewrite popcount_S, IH, Z.bits_0. done.
Qed.

(** [check_if_new_partition] for a partition whose bit the shift can
    produce (0..30), on a map whose counts are right. It returns -1 exactly
    when the partition is already recorded for the checksum, and otherwise
    the number of partitions recorded for it before, which is 0 for a
    checksum not seen yet; afterwards the partition is recorded and the
    counts are right again, an immediate second call returns -1 and changes
    nothing, and no other checksum is touched. *)
Theorem check_if_new_partition_returns (hm : gmap Z path_partitions)
    (c p : Z) :
  0 <= p < 31 ->
  partitions_counted hm ->
  let hm' := fst (check_if_new_partition hm c p) in
  let r := snd (check_if_new_partition hm c p) in
  (r = -1 <-> partition_recorded hm c p)
  /\ (r <> -1 ->
      r = match hm !! c with
          | Some pp => popcount 31 (foundPartitions pp)
          | None => 0
          end /\ 0 <= r <= 30)
  /\ partition_recorded hm' c p
  /\ partitions_counted hm'
  /\ check_if_new_partition hm' c p = (hm', -1)
  /\ (forall c', c' <> c -> hm' !! c' = hm !! c').
Proof.
  intros Hp Hcount.
  assert (Hbm : wrap32 (Z.shiftl 1 p) = 2 ^ p).
  { rewrite Z.shiftl_1_l. unfold wrap32. apply Z.mod_small.
    split; [apply Z.pow_nonneg; lia|].
    change 4294967296 with (2 ^ 32). apply Z.pow_lt_mono_r; lia. }
  assert (Hagain : forall hm1 pp, hm1 !! c = Some pp ->
            Z.testbit (foundPartitions pp) p = true ->
            check_if_new_partition hm1 c p = (hm1, -1)).
  { intros hm1 pp Hget Hbit. unfold check_if_new_partition.
    rewrite Hget, Hbm, land_pow2_eq_0, Hbit by lia. done. }
  destruct (check_if_new_partition hm c p) as [hm' r] eqn:Hcall. simpl.
  unfold check_if_new_partition in Hcall. rewrite Hbm in Hcall.
  destruct (hm !! c) as [pp|] eqn:Hget.
  - rewrite land_pow2_eq_0 in Hcall by lia.
    destruct (Z.testbit (foundPartitions pp) p) eqn:Hbit; simpl in Hcall;
      injection Hcall as <- <-.
    + (* already recorded *)
      split; [split; [intros _; by exists pp|done]|].
      split; [done|]. split; [by exists pp|]. split; [done|].
      split; [by apply (Hagain hm pp)|done].
    + (* a new partition of a known path *)
      pose proof (Hcount c pp Hget) as Hpp.
      pose proof (popcount_range 31 (foundPartitions pp)) as Hrange.
      pose proof (popcount_set_bit 31 (foundPartitions pp) p ltac:(lia) Hbit)
        as Hset.
      destruct (Z.ltb_spec p (Z.of_nat 31)) as [_|?]; [|lia].
      assert (Hlt : popcount 31 (foundPartitions pp) <= 30).
      { pose proof (popcount_range 31 (Z.lor (foundPartitions pp) (2 ^ p))). lia. }
      assert (Hret : s8_of_u8 (foundPartitionsCount pp mod 256)
                     = popcount 31 (foundPartitions pp)).
      { rewrite Hpp, Z.mod_small by lia. unfold s8_of_u8.
        destruct (Z.ltb_spec (popcount 31 (foundPartitions pp)) 128); lia. }
      rewrite Hret.
      split.
      { split; [lia|]. intros (pp' & Hget' & Hbit'). congruence. }
      split; [intros _; split; [done|lia]|].
      split.
      { eexists. rewrite lookup_insert_eq. split; [done|]. simpl.
        by rewrite Z.lor_spec, Z.pow2_bits_true, orb_true_r by lia. }
      split.
      { intros c' pp' Hget'. destruct (decide (c = c')) as [<-|Hne].
        - rewrite lookup_insert_eq in Hget'. injection Hget' as <-. simpl. lia.
        - rewrite lookup_insert_ne in Hget' by done. by apply (Hcount c'). }
      split.
      { eapply Hagain; [apply lookup_insert_eq|]. simpl.
        by rewrite Z.lor_spec, Z.pow2_bits_true, orb_true_r by lia. }
      intros c' Hne. by rewrite lookup_insert_ne.
  - (* a path not seen yet *)
    injection Hcall as <- <-. split.
    { split; [lia|]. intros (pp' & Hget' & _). congruence. }
    split; [intros _; split; [done|lia]|].
    split.
    { eexists. rewrite lookup_insert_eq. split; [done|]. simpl.
      by rewrite Z.pow2_bits_true by lia. }
    split.
    { intros c' pp' Hget'. destruct (decide (c = c')) as [<-|Hne].
      - rewrite lookup_insert_eq in Hget'. injection Hget' as <-. simpl.
        symmetry. apply popcount_pow2. lia.
      - rewrite lookup_insert_ne in Hget' by done. by apply (Hcount c'). }
    split.
    { eapply Hagain; [apply lookup_insert_eq|]. simpl.
      by rewrite Z.pow2_bits_true by lia. }
    intros c' Hne. by rewrite lookup_insert_ne.
Qed.

Lemma check_if_new_partition_returns_witness :
  let hm := {[ 77 := {| checksum := 77; foundPartitions := 8;
                        foundPartitionsCount := 1 |} ]} in
  (0 <= 5 < 31 /\ partitions_counted hm)
  /\ snd (check_if_new_partition hm 77 5) <> -1
  /\ check_if_new_partition (fst (check_if_new_partition hm 77 5)) 77 5
     = (fst (check_if_new_partition hm 77 5), -1).
Proof.
  intros hm.
  assert (H1 : 0 <= 5 < 31) by lia.
  assert (H2 : partitions_counted hm).
  { intros c pp H. apply lookup_singleton_Some in H as [<- <-]. reflexivity. }
  split; [by split|].
  destruct (check_if_new_partition_returns hm 77 5 H1 H2)
    as (_ & _ & _ & _ & Hagain & _).
  split; [vm_compute; discriminate|exact Hagain].
Defined.

(** ** BitmapOps: count_bytes and count_non_255_bytes *)

Lemma land_byte_mask (v k : Z) :
  0 <= k -> Z.land v (255 * 2 ^ k) = ((v / 2 ^ k) mod 256) * 2 ^ k.
Proof.
  intros Hk. rewrite <- Z.shiftl_mul_pow2, <- Z.shiftr_div_pow2 by done.
  change 256 with (2 ^ 8). rewrite <- Z.land_ones by lia.
  change (Z.ones 8) with 255.
  rewrite <- (Z.shiftl_mul_pow2 (Z.land _ _)) by done.
  apply Z.bits_inj'. intros j Hj. rewrite Z.land_spec.
  destruct (Z.lt_ge_cases j k) as [Hlt|Hge].
  - rewrite !Z.shiftl_spec_low by done. apply andb_false_r.
  - rewrite !Z.shiftl_spec, Z.land_spec, Z.shiftr_spec by lia.
    by replace (j - k + k) with j by lia.
Qed.

Lemma lookup_rd (l : list Z) (i : nat) :
  (i < length l)%nat -> l !! i = Some (rd l i).
Proof.
  intros H. rewrite rd_lookup. destruct (l !! i) eqn:Hl; [done|].
  apply lookup_ge_None in Hl. lia.
Qed.

Lemma take_word (l : list Z) (m : nat) :
  (4 * m + 4 <= length l)%nat ->
  take (4 * S m) l
  = take (4 * m) l ++ [rd l (4 * m); rd l (4 * m + 1); rd l (4 * m + 2);
                       rd l (4 * m + 3)].
Proof.
  intros H. replace (4 * S m)%nat with (S (S (S (S (4 * m))))) by lia.
  rewrite (take_S_r _ _ (rd l (4 * m + 3)))
    by (replace (S (S (S (4 * m)))) with (4 * m + 3)%nat by lia;
        apply lookup_rd; lia).
  rewrite (take_S_r _ _ (rd l (4 * m + 2)))
    by (replace (S (S (4 * m))) with (4 * m + 2)%nat by lia;
        apply lookup_rd; lia).
  rewrite (take_S_r _ _ (rd l (4 * m + 1)))
    by (replace (S (4 * m)) with (4 * m + 1)%nat by lia;
        apply lookup_rd; lia).
  rewrite (take_S_r _ _ (rd l (4 * m))) by (apply lookup_rd; lia).
  by rewrite <- !app_assoc.
Qed.

Lemma count_if_app (f : Z -> bool) (l1 l2 : list Z) :
  count_if f (l1 ++ l2) = count_if f l1 + count_if f l2.
Proof. unfold count_if. rewrite List.filter_app, length_app. lia. Qed.

Lemma count_if_range (f : Z -> bool) (l : list Z) :
  0 <= count_if f l <= Z.of_nat (length l).
Proof.
  unfold count_if. pose proof (List.filter_length_le f l). lia.
Qed.

(** The four masks of the two byte counters pick the four bytes of the
    word. *)
Lemma word_byte_masks (b0 b1 b2 b3 : Z) :
  is_byte b0 -> is_byte b1 -> is_byte b2 -> is_byte b3 ->
  let v := b0 + 256 * b1 + 65536 * b2 + 16777216 * b3 in
  Z.land v 0x000000ff = b0 /\ Z.land v 0x0000ff00 = b1 * 256
  /\ Z.land v 0x00ff0000 = b2 * 65536 /\ Z.land v 0xff000000 = b3 * 16777216.
Proof.
  intros H0 H1 H2 H3 v. unfold is_byte in *.
  change 0x000000ff with (255 * 2 ^ 0). change 0x0000ff00 with (255 * 2 ^ 8).
  change 0x00ff0000 with (255 * 2 ^ 16). change 0xff000000 with (255 * 2 ^ 24).
  rewrite !land_byte_mask by lia.
  change (2 ^ 0) with 1. change (2 ^ 8) with 256. change (2 ^ 16) with 65536.
  change (2 ^ 24) with 16777216.
  subst v. repeat split; Z.div_mod_to_equations; lia.
Qed.

Lemma count_bytes_word_spec (ret b0 b1 b2 b3 : Z) :
  is_byte b0 -> is_byte b1 -> is_byte b2 -> is_byte b3 ->
  0 <= ret -> ret + 4 < 4294967296 ->
  let v := b0 + 256 * b1 + 65536 * b2 + 16777216 * b3 in
  count_bytes_word ret v
  = ret + count_if (fun b => negb (b =? 0)) [b0; b1; b2; b3]
  /\ count_non_255_bytes_word ret v
     = ret + count_if (fun b => negb (b =? 255)) [b0; b1; b2; b3].
Proof.
  intros H0 H1 H2 H3 Hret Hmax v.
  destruct (word_byte_masks b0 b1 b2 b3 H0 H1 H2 H3) as (M0 & M1 & M2 & M3).
  fold v in M0, M1, M2, M3.
  unfold is_byte in *.
  unfold count_bytes_word, count_non_255_bytes_word, count_if.
  rewrite M0, M1, M2, M3. unfold wrap32. simpl List.filter.
  split.
  - destruct (Z.eqb_spec v 0) as [Hv|Hv].
    + assert (b0 = 0 /\ b1 = 0 /\ b2 = 0 /\ b3 = 0) as (-> & -> & -> & ->)
        by (subst v; lia).
      simpl. lia.
    + destruct (Z.eqb_spec b0 0), (Z.eqb_spec b1 0), (Z.eqb_spec b2 0),
        (Z.eqb_spec b3 0);
        repeat match goal with
               | |- context [?x * ?c =? 0] =>
                   destruct (Z.eqb_spec (x * c) 0); try lia
               end;
        simpl; Z.div_mod_to_equations; lia.
  - destruct (Z.eqb_spec v 4294967295) as [Hv|Hv].
    + assert (b0 = 255 /\ b1 = 255 /\ b2 = 255 /\ b3 = 255)
        as (-> & -> & -> & ->) by (subst v; lia).
      simpl. lia.
    + change 0x000000ff with 255. change 0x0000ff00 with (255 * 256).
      change 0x00ff0000 with (255 * 65536).
      change 0xff000000 with (255 * 16777216).
      destruct (Z.eqb_spec b0 255), (Z.eqb_spec b1 255), (Z.eqb_spec b2 255),
        (Z.eqb_spec b3 255);
        repeat match goal with
               | |- context [?x * ?c =? ?y] =>
                   destruct (Z.eqb_spec (x * c) y); try lia
               end;
        simpl; Z.div_mod_to_equations; lia.
Qed.

(** [count_bytes] returns the number of non-zero bytes, and
    [count_non_255_bytes] the number of bytes other than 255, among the
    [4 * (map_size >> 2)] bytes they walk as 32-bit words; the shortcuts
    for an all-zero and an all-ones word do not change the count. *)
Theorem count_bytes_counts (map_size : Z) (mem : list Z) :
  Forall is_byte mem ->
  0 <= map_size < 4294967296 ->
  (4 * Z.to_nat (Z.shiftr map_size 2) <= length mem)%nat ->
  let walked := take (4 * Z.to_nat (Z.shiftr map_size 2)) mem in
  count_bytes map_size mem = count_if (fun b => negb (b =? 0)) walked
  /\ count_non_255_bytes map_size mem
     = count_if (fun b => negb (b =? 255)) walked.
Proof.
  intros Hbytes Hms Hlen walked. subst walked.
  assert (Hn : Z.shiftr map_size 2 < 1073741824).
  { rewrite Z.shiftr_div_pow2 by lia. apply Z.div_lt_upper_bound; simpl; lia. }
  assert (Hn0 : 0 <= Z.shiftr map_size 2) by (apply Z.shiftr_nonneg; lia).
  unfold count_bytes, count_non_255_bytes, map_words32.
  unfold wrap32 at 1 2. rewrite Z.mod_small by lia.
  assert (Hgen : forall m, (m <= Z.to_nat (Z.shiftr map_size 2))%nat ->
    fold_left (fun ret w => count_bytes_word ret (read_u32 mem w)) (seq 0 m) 0
    = count_if (fun b => negb (b =? 0)) (take (4 * m) mem)
    /\ fold_left (fun ret w => count_non_255_bytes_word ret (read_u32 mem w))
                 (seq 0 m) 0
       = count_if (fun b => negb (b =? 255)) (take (4 * m) mem)).
  { induction m as [|m IH]; intros Hm; [done|].
    destruct (IH ltac:(lia)) as [IH1 IH2].
    rewrite !fold_left_seq_S, IH1, IH2, take_word by lia.
    rewrite !count_if_app.
    pose proof (count_if_range (fun b => negb (b =? 0)) (take (4 * m) mem)) as R1.
    pose proof (count_if_range (fun b => negb (b =? 255)) (take (4 * m) mem)) as R2.
    rewrite length_take in R1, R2.
    unfold read_u32.
    split; apply count_bytes_word_spec; try apply rd_is_byte; try done; lia. }
  apply Hgen. lia.
Qed.

Lemma count_bytes_counts_witness :
  let mem := [255; 255; 255; 255; 0; 0; 0; 0; 1; 0; 3; 255] in
  let walked := take (4 * Z.to_nat (Z.shiftr 12 2)) mem in
  count_bytes 12 mem = count_if (fun b => negb (b =? 0)) walked
  /\ count_non_255_bytes 12 mem = count_if (fun b => negb (b =? 255)) walked.
Proof.
  apply (count_bytes_counts 12 [255; 255; 255; 255; 0; 0; 0; 0; 1; 0; 3; 255]).
  - repeat constructor; unfold is_byte; lia.
  - lia.
  - simpl. lia.
Defined.

(** ** BitmapOps: bits of little-endian words *)

Lemma testbit_combine (lo hi n j : Z) :
  0 <= n -> 0 <= lo < 2 ^ n -> 0 <= j ->
  Z.testbit (lo + hi * 2 ^ n) j
  = (if j <? n then Z.testbit lo j else Z.testbit hi (j - n)).
Proof.
  intros Hn Hlo Hj. destruct (Z.ltb_spec j n) as [Hlt|Hge].
  - rewrite !Z.testbit_odd, !Z.shiftr_div_pow2 by done.
    replace (2 ^ n) with (2 ^ (n - j) * 2 ^ j)
      by (rewrite <- Z.pow_add_r by lia; f_equal; lia).
    rewrite Z.mul_assoc, Z.div_add by (apply Z.pow_nonzero; lia).
    replace (n - j) with (Z.succ (n - j - 1)) by lia.
    rewrite Z.pow_succ_r by lia.
    replace (hi * (2 * 2 ^ (n - j - 1))) with (2 * (hi * 2 ^ (n - j - 1))) by lia.
    apply Z.odd_add_mul_2.
  - rewrite !Z.testbit_odd, !Z.shiftr_div_pow2 by lia.
    replace (2 ^ j) with (2 ^ n * 2 ^ (j - n))
      by (rewrite <- Z.pow_add_r by lia; f_equal; lia).
    rewrite <- Z.div_div by (try apply Z.pow_pos_nonneg; try apply Z.pow_nonzero; lia).
    rewrite Z.div_add by (apply Z.pow_nonzero; lia).
    rewrite (Z.div_small lo) by lia. done.
Qed.

Lemma land_small (lo m n : Z) :
  0 <= n -> 0 <= lo < 2 ^ n -> 0 <= Z.land lo m < 2 ^ n.
Proof.
  intros Hn Hlo.
  assert (H : Z.land lo m = Z.land lo m mod 2 ^ n).
  { rewrite <- Z.land_ones by done.
    rewrite <- Z.land_assoc, (Z.land_comm m), Z.land_assoc.
    rewrite (Z.land_ones lo) by done. by rewrite Z.mod_small. }
  rewrite H. apply Z.mod_pos_bound. apply Z.pow_pos_nonneg; lia.
Qed.

(** A mask applies to the low [n] bits and to the rest separately. *)
Lemma land_split (lo hi m n : Z) :
  0 <= n -> 0 <= lo < 2 ^ n ->
  Z.land (lo + hi * 2 ^ n) m
  = Z.land lo (m mod 2 ^ n) + Z.land hi (m / 2 ^ n) * 2 ^ n.
Proof.
  intros Hn Hlo. apply Z.bits_inj'. intros j Hj.
  pose proof (land_small lo (m mod 2 ^ n) n Hn Hlo) as Hsmall.
  rewrite Z.land_spec, !testbit_combine by done.
  destruct (Z.ltb_spec j n) as [Hlt|Hge].
  - by rewrite Z.land_spec, Z.mod_pow2_bits_low.
  - rewrite Z.land_spec, Z.div_pow2_bits by lia.
    by replace (j - n + n) with j by lia.
Qed.

Lemma land_le32 (c0 c1 c2 c3 m : Z) :
  is_byte c0 -> is_byte c1 -> is_byte c2 ->
  Z.land (c0 + 256 * c1 + 65536 * c2 + 16777216 * c3) m
  = Z.land c0 (m mod 256) + 256 * Z.land c1 ((m / 256) mod 256)
    + 65536 * Z.land c2 ((m / 65536) mod 256)
    + 16777216 * Z.land c3 (m / 16777216).
Proof.
  unfold is_byte. intros H0 H1 H2.
  replace (c0 + 256 * c1 + 65536 * c2 + 16777216 * c3)
    with (c0 + (c1 + (c2 + c3 * 2 ^ 8) * 2 ^ 8) * 2 ^ 8) by lia.
  rewrite (land_split c0) by lia.
  rewrite (land_split c1) by lia.
  rewrite (land_split c2) by lia.
  change (2 ^ 8) with 256.
  rewrite !Z.div_div by lia.
  change (256 * 256 * 256) with 16777216. change (256 * 256) with 65536. lia.
Qed.

Lemma popcount_ext (w : nat) (x y : Z) :
  (forall j, 0 <= j < Z.of_nat w -> Z.testbit x j = Z.testbit y j) ->
  popcount w x = popcount w y.
Proof.
  induction w as [|w IH]; intros H; [done|].
  rewrite !popcount_S, IH, H by (try lia; intros; apply H; lia). done.
Qed.

Lemma popcount_byte_then_rest (w : nat) (b v : Z) :
  is_byte b -> popcount (8 + w) (b + 256 * v) = popcount 8 b + popcount w v.
Proof.
  unfold is_byte. intros Hb.
  assert (Hbit : forall j, 0 <= j ->
            Z.testbit (b + 256 * v) j
            = (if j <? 8 then Z.testbit b j else Z.testbit v (j - 8))).
  { intros j Hj. replace (b + 256 * v) with (b + v * 2 ^ 8) by lia.
    apply testbit_combine; lia. }
  induction w as [|w IH].
  - rewrite Nat.add_0_r. unfold popcount at 3. simpl fold_right.
    rewrite Z.add_0_r. apply popcount_ext. intros j Hj. rewrite Hbit by lia.
    destruct (Z.ltb_spec j 8); [done|lia].
  - replace (8 + S w)%nat with (S (8 + w)) by lia.
    rewrite (popcount_S (8 + w)), (popcount_S w v), IH, Hbit by lia.
    destruct (Z.ltb_spec (Z.of_nat (8 + w)) 8); [lia|].
    replace (Z.of_nat (8 + w) - 8) with (Z.of_nat w) by lia. lia.
Qed.

Lemma popcount_bytes_app (l1 l2 : list Z) :
  popcount_bytes (l1 ++ l2) = popcount_bytes l1 + popcount_bytes l2.
Proof.
  unfold popcount_bytes. induction l1 as [|b l1 IH]; simpl; [done|].
  rewrite IH. lia.
Qed.

Lemma popcount_bytes_range (l : list Z) :
  0 <= popcount_bytes l <= 8 * Z.of_nat (length l).
Proof.
  unfold popcount_bytes. induction l as [|b l IH]; simpl; [lia|].
  pose proof (popcount_range 8 b). lia.
Qed.

Lemma take_chunk (l : list Z) (k n : nat) :
  (k + n <= length l)%nat ->
  take (k + n) l = take k l ++ map (fun i => rd l (k + i)) (seq 0 n).
Proof.
  induction n as [|n IH]; intros H.
  - by rewrite Nat.add_0_r, app_nil_r.
  - replace (k + S n)%nat with (S (k + n)) by lia.
    rewrite (take_S_r _ _ (rd l (k + n))) by (apply lookup_rd; lia).
    rewrite IH by lia. rewrite seq_S, map_app, app_assoc. done.
Qed.

(** ** BitmapOps: count_minified_trace_bits *)

Lemma bit_of_shift (v : Z) (i : nat) :
  Z.land (Z.shiftr v (Z.of_nat i)) 1
  = (if Z.testbit v (Z.of_nat i) then 1 else 0).
Proof.
  change 1 with (Z.ones 1) at 1. rewrite Z.land_ones by lia.
  rewrite Z.testbit_odd. change (2 ^ 1) with 2. apply Zmod_odd.
Qed.

Lemma count_word_bits (v total : Z) (w : nat) :
  0 <= total -> total + Z.of_nat w < 4294967296 ->
  fold_left (fun total i => wrap32 (total + Z.land (Z.shiftr v (Z.of_nat i)) 1))
            (seq 0 w) total
  = total + popcount w v.
Proof.
  intros Ht. induction w as [|w IH]; intros Hmax.
  - unfold popcount. simpl. lia.
  - rewrite fold_left_seq_S, IH, popcount_S, bit_of_shift by lia.
    pose proof (popcount_range w v). unfold wrap32.
    rewrite Z.mod_small; [lia|]. destruct (Z.testbit v (Z.of_nat w)); lia.
Qed.

Lemma popcount_read_u64 (mem : list Z) (w : nat) :
  Forall is_byte mem ->
  popcount 64 (read_u64 mem w)
  = popcount_bytes (map (fun i => rd mem (8 * w + i)) (seq 0 8)).
Proof.
  intros Hmem. unfold read_u64, popcount_bytes.
  change 64%nat with (8 + (8 + (8 + (8 + (8 + (8 + (8 + (8 + 0))))))))%nat.
  simpl seq. simpl map. simpl fold_right.
  rewrite !popcount_byte_then_rest by (by apply rd_is_byte).
  unfold popcount at 9. simpl fold_right. lia.
Qed.

(** [count_minified_trace_bits] returns the number of bits set in the bytes
    of the trace it walks, [map_size >> 6] words of 64 bits. *)
Theorem count_minified_trace_bits_counts (map_size : Z) (trace : list Z) :
  Forall is_byte trace ->
  0 <= map_size < 4294967296 ->
  (word_span map_size <= length trace)%nat ->
  count_minified_trace_bits map_size trace
  = popcount_bytes (take (word_span map_size) trace).
Proof.
  intros Hbytes Hms Hlen. unfold count_minified_trace_bits.
  unfold word_span in *.
  assert (Hn : wrap32 (Z.shiftr map_size 6) < 67108864).
  { unfold wrap32. rewrite Z.shiftr_div_pow2 by lia.
    rewrite Z.mod_small.
    - apply Z.div_lt_upper_bound; simpl; lia.
    - split; [apply Z.div_pos; simpl; lia|].
      apply Z.div_lt_upper_bound; simpl; lia. }
  assert (Hn0 : 0 <= wrap32 (Z.shiftr map_size 6))
    by (unfold wrap32; apply Z.mod_pos_bound; lia).
  set (n := Z.to_nat (wrap32 (Z.shiftr map_size 6))) in *.
  assert (Hgen : forall m, (m <= n)%nat ->
    fold_left
      (fun total w =>
         fold_left (fun total i =>
                      wrap32 (total + Z.land (Z.shiftr (read_u64 trace w)
                                                       (Z.of_nat i)) 1))
                   (seq 0 64) total)
      (seq 0 m) 0
    = popcount_bytes (take (8 * m) trace)).
  { induction m as [|m IH]; intros Hm; [done|].
    rewrite fold_left_seq_S, IH by lia.
    pose proof (popcount_bytes_range (take (8 * m) trace)) as R.
    rewrite length_take in R.
    rewrite count_word_bits by lia.
    replace (8 * S m)%nat with (8 * m + 8)%nat by lia.
    rewrite take_chunk by lia.
    rewrite popcount_bytes_app, popcount_read_u64 by done. done. }
  apply Hgen. lia.
Qed.

Lemma count_minified_trace_bits_counts_witness :
  count_minified_trace_bits 64 [18; 0; 0; 255; 0; 0; 0; 128]
  = popcount_bytes (take (word_span 64) [18; 0; 0; 255; 0; 0; 0; 128]).
Proof.
  apply (count_minified_trace_bits_counts 64 [18; 0; 0; 255; 0; 0; 0; 128]).
  - repeat constructor; unfold is_byte; lia.
  - lia.
  - vm_compute. lia.
Defined.

(** ** BitmapOps: count_bits *)

(** The three folding steps of [count_bits] work on each byte of the word
    separately; on a byte they leave its number of set bits. *)
Lemma count_bits_byte (b : Z) :
  is_byte b ->
  let a := Z.land b 170 in
  let c := b - a / 2 in
  let q := Z.land c 204 in
  let d := Z.land c 51 + q / 4 in
  a mod 2 = 0 /\ 0 <= a /\ 0 <= c <= 255 /\ q mod 4 = 0 /\ 0 <= q
  /\ 0 <= d <= 255 /\ d mod 16 <= 4 /\ d / 16 <= 4
  /\ d mod 16 + d / 16 = popcount 8 b.
Proof.
  intros Hb.
  pose proof (for_all_bytes
    (fun b =>
       let a := Z.land b 170 in
       let c := b - a / 2 in
       let q := Z.land c 204 in
       let d := Z.land c 51 + q / 4 in
       (a mod 2 =? 0) && (0 <=? a) && (0 <=? c) && (c <=? 255)
       && (q mod 4 =? 0) && (0 <=? q) && (0 <=? d) && (d <=? 255)
       && (d mod 16 <=? 4) && (d / 16 <=? 4)
       && (d mod 16 + d / 16 =? popcount 8 b))
    ltac:(vm_compute; reflexivity) b Hb) as H.
  cbv zeta in *. rewrite !andb_true_iff in H.
  destruct H as ((((((((((A1 & A2) & A3) & A4) & A5) & A6) & A7) & A8) & A9) & A10) & A11).
  repeat split; lia.
Qed.

Lemma count_bits_pairs (b0 b1 b2 b3 : Z) :
  is_byte b0 -> is_byte b1 -> is_byte b2 -> is_byte b3 ->
  let v := b0 + 256 * b1 + 65536 * b2 + 16777216 * b3 in
  wrap32 (v - Z.land (Z.shiftr v 1) 0x55555555)
  = (b0 - Z.land b0 170 / 2) + 256 * (b1 - Z.land b1 170 / 2)
    + 65536 * (b2 - Z.land b2 170 / 2) + 16777216 * (b3 - Z.land b3 170 / 2).
Proof.
  intros H0 H1 H2 H3 v.
  destruct (count_bits_byte b0 H0) as (A0 & A0' & C0 & _).
  destruct (count_bits_byte b1 H1) as (A1 & A1' & C1 & _).
  destruct (count_bits_byte b2 H2) as (A2 & A2' & C2 & _).
  destruct (count_bits_byte b3 H3) as (A3 & A3' & C3 & _).
  cbv zeta in *.
  change 0x55555555 with (Z.shiftr 0xAAAAAAAA 1).
  rewrite <- Z.shiftr_land. unfold v. rewrite land_le32 by done.
  change (0xAAAAAAAA mod 256) with 170.
  change ((0xAAAAAAAA / 256) mod 256) with 170.
  change ((0xAAAAAAAA / 65536) mod 256) with 170.
  change (0xAAAAAAAA / 16777216) with 170.
  rewrite Z.shiftr_div_pow2 by lia. change (2 ^ 1) with 2.
  unfold is_byte in *. clear v.
  generalize dependent (Z.land b0 170). generalize dependent (Z.land b1 170).
  generalize dependent (Z.land b2 170). generalize dependent (Z.land b3 170).
  intros a3 A3 A3' C3 a2 A2 A2' C2 a1 A1 A1' C1 a0 A0 A0' C0.
  replace ((a0 + 256 * a1 + 65536 * a2 + 16777216 * a3) / 2)
    with (a0 / 2 + 256 * (a1 / 2) + 65536 * (a2 / 2) + 16777216 * (a3 / 2))
    by (Z.div_mod_to_equations; lia).
  unfold wrap32. rewrite Z.mod_small; lia.
Qed.

Lemma count_bits_nibbles (c0 c1 c2 c3 : Z) :
  is_byte c0 -> is_byte c1 -> is_byte c2 -> is_byte c3 ->
  Z.land c0 204 mod 4 = 0 -> Z.land c1 204 mod 4 = 0 ->
  Z.land c2 204 mod 4 = 0 -> Z.land c3 204 mod 4 = 0 ->
  0 <= Z.land c0 51 + Z.land c0 204 / 4 <= 255 ->
  0 <= Z.land c1 51 + Z.land c1 204 / 4 <= 255 ->
  0 <= Z.land c2 51 + Z.land c2 204 / 4 <= 255 ->
  0 <= Z.land c3 51 + Z.land c3 204 / 4 <= 255 ->
  let v := c0 + 256 * c1 + 65536 * c2 + 16777216 * c3 in
  wrap32 (Z.land v 0x33333333 + Z.land (Z.shiftr v 2) 0x33333333)
  = (Z.land c0 51 + Z.land c0 204 / 4) + 256 * (Z.land c1 51 + Z.land c1 204 / 4)
    + 65536 * (Z.land c2 51 + Z.land c2 204 / 4)
    + 16777216 * (Z.land c3 51 + Z.land c3 204 / 4).
Proof.
  intros H0 H1 H2 H3 Q0 Q1 Q2 Q3 D0 D1 D2 D3 v.
  change 0x33333333 with (Z.shiftr 0xCCCCCCCC 2) at 2.
  rewrite <- Z.shiftr_land. unfold v. rewrite !land_le32 by done.
  change (0xCCCCCCCC mod 256) with 204.
  change ((0xCCCCCCCC / 256) mod 256) with 204.
  change ((0xCCCCCCCC / 65536) mod 256) with 204.
  change (0xCCCCCCCC / 16777216) with 204.
  change (0x33333333 mod 256) with 51.
  change ((0x33333333 / 256) mod 256) with 51.
  change ((0x33333333 / 65536) mod 256) with 51.
  change (0x33333333 / 16777216) with 51.
  rewrite Z.shiftr_div_pow2 by lia. change (2 ^ 2) with 4. clear v H0 H1 H2 H3.
  generalize dependent (Z.land c0 204). generalize dependent (Z.land c1 204).
  generalize dependent (Z.land c2 204). generalize dependent (Z.land c3 204).
  generalize (Z.land c0 51) (Z.land c1 51) (Z.land c2 51) (Z.land c3 51).
  intros p0 p1 p2 p3 q3 Q3 D3 q2 Q2 D2 q1 Q1 D1 q0 Q0 D0.
  replace ((q0 + 256 * q1 + 65536 * q2 + 16777216 * q3) / 4)
    with (q0 / 4 + 256 * (q1 / 4) + 65536 * (q2 / 4) + 16777216 * (q3 / 4))
    by (Z.div_mod_to_equations; lia).
  unfold wrap32. rewrite Z.mod_small; lia.
Qed.

Lemma count_bits_bytes (l0 h0 l1 h1 l2 h2 l3 h3 : Z) :
  0 <= l0 <= 4 -> 0 <= h0 <= 4 -> 0 <= l1 <= 4 -> 0 <= h1 <= 4 ->
  0 <= l2 <= 4 -> 0 <= h2 <= 4 -> 0 <= l3 <= 4 -> 0 <= h3 <= 4 ->
  let v := (l0 + 16 * h0) + 256 * (l1 + 16 * h1) + 65536 * (l2 + 16 * h2)
           + 16777216 * (l3 + 16 * h3) in
  Z.land (wrap32 (v + Z.shiftr v 4)) 0xF0F0F0F
  = (l0 + h0) + 256 * (l1 + h1) + 65536 * (l2 + h2) + 16777216 * (l3 + h3).
Proof.
  intros L0 U0 L1 U1 L2 U2 L3 U3 v.
  assert (S : wrap32 (v + Z.shiftr v 4)
              = ((l0 + h0) + 16 * (h0 + l1)) + 256 * ((l1 + h1) + 16 * (h1 + l2))
                + 65536 * ((l2 + h2) + 16 * (h2 + l3))
                + 16777216 * ((l3 + h3) + 16 * h3)).
  { rewrite Z.shiftr_div_pow2 by lia. change (2 ^ 4) with 16.
    replace (v / 16)
      with (h0 + 16 * l1 + 256 * h1 + 4096 * l2 + 65536 * h2 + 1048576 * l3
            + 16777216 * h3)
      by (subst v; Z.div_mod_to_equations; lia).
    unfold wrap32. rewrite Z.mod_small; subst v; lia. }
  rewrite S. clear S v.
  assert (M : forall e x, 0 <= e <= 8 -> 0 <= x -> Z.land (e + 16 * x) 15 = e).
  { intros e x He Hx. change 15 with (Z.ones 4). rewrite Z.land_ones by lia.
    change (2 ^ 4) with 16. Z.div_mod_to_equations. lia. }
  rewrite land_le32 by (unfold is_byte; lia).
  change (0xF0F0F0F mod 256) with 15.
  change ((0xF0F0F0F / 256) mod 256) with 15.
  change ((0xF0F0F0F / 65536) mod 256) with 15.
  change (0xF0F0F0F / 16777216) with 15.
  rewrite !M by lia. done.
Qed.

Lemma count_bits_sum (ret e0 e1 e2 e3 : Z) :
  0 <= e0 <= 8 -> 0 <= e1 <= 8 -> 0 <= e2 <= 8 -> 0 <= e3 <= 8 ->
  0 <= ret -> ret + 32 < 4294967296 ->
  wrap32 (ret + Z.shiftr
                  (wrap32 ((e0 + 256 * e1 + 65536 * e2 + 16777216 * e3)
                           * 0x01010101))
                  24)
  = ret + (e0 + e1 + e2 + e3).
Proof.
  intros E0 E1 E2 E3 Hret Hmax.
  replace ((e0 + 256 * e1 + 65536 * e2 + 16777216 * e3) * 0x01010101)
    with ((e0 + 256 * (e0 + e1) + 65536 * (e0 + e1 + e2))
          + (e0 + e1 + e2 + e3) * 16777216
          + ((e1 + e2 + e3) + 256 * (e2 + e3) + 65536 * e3) * 4294967296)
    by lia.
  unfold wrap32 at 2. rewrite Z_mod_plus_full, Z.mod_small by lia.
  rewrite Z.shiftr_div_pow2 by lia. change (2 ^ 24) with 16777216.
  rewrite Z.div_add, Z.div_small by lia.
  unfold wrap32. rewrite Z.mod_small; lia.
Qed.

Lemma count_bits_word_spec (ret b0 b1 b2 b3 : Z) :
  is_byte b0 -> is_byte b1 -> is_byte b2 -> is_byte b3 ->
  0 <= ret -> ret + 32 < 4294967296 ->
  count_bits_word ret (b0 + 256 * b1 + 65536 * b2 + 16777216 * b3)
  = ret + popcount_bytes [b0; b1; b2; b3].
Proof.
  intros H0 H1 H2 H3 Hret Hmax.
  unfold popcount_bytes. simpl fold_right.
  unfold count_bits_word.
  destruct (Z.eqb_spec (b0 + 256 * b1 + 65536 * b2 + 16777216 * b3) 0xffffffff)
    as [Hv|Hv].
  { unfold is_byte in *.
    assert (b0 = 255 /\ b1 = 255 /\ b2 = 255 /\ b3 = 255) as (-> & -> & -> & ->)
      by lia.
    unfold wrap32. rewrite Z.mod_small by lia.
    change (popcount 8 255) with 8. lia. }
  clear Hv. cbv zeta. rewrite count_bits_pairs by done.
  destruct (count_bits_byte b0 H0) as (_ & _ & C0 & Q0 & _ & D0 & L0 & U0 & P0).
  destruct (count_bits_byte b1 H1) as (_ & _ & C1 & Q1 & _ & D1 & L1 & U1 & P1).
  destruct (count_bits_byte b2 H2) as (_ & _ & C2 & Q2 & _ & D2 & L2 & U2 & P2).
  destruct (count_bits_byte b3 H3) as (_ & _ & C3 & Q3 & _ & D3 & L3 & U3 & P3).
  cbv zeta in *.
  rewrite <- P0, <- P1, <- P2, <- P3. clear P0 P1 P2 P3 H0 H1 H2 H3.
  set (c0 := b0 - Z.land b0 170 / 2) in *. set (c1 := b1 - Z.land b1 170 / 2) in *.
  set (c2 := b2 - Z.land b2 170 / 2) in *. set (c3 := b3 - Z.land b3 170 / 2) in *.
  clearbody c0 c1 c2 c3.
  rewrite count_bits_nibbles by (unfold is_byte; lia).
  set (d0 := Z.land c0 51 + Z.land c0 204 / 4) in *.
  set (d1 := Z.land c1 51 + Z.land c1 204 / 4) in *.
  set (d2 := Z.land c2 51 + Z.land c2 204 / 4) in *.
  set (d3 := Z.land c3 51 + Z.land c3 204 / 4) in *.
  clearbody d0 d1 d2 d3. clear Q0 Q1 Q2 Q3 C0 C1 C2 C3 c0 c1 c2 c3.
  assert (N : forall d, 0 <= d -> d = d mod 16 + 16 * (d / 16)
                                  /\ 0 <= d mod 16 /\ 0 <= d / 16)
    by (intros d Hd; Z.div_mod_to_equations; lia).
  destruct (N d0 ltac:(lia)) as (N0 & N0l & N0h).
  destruct (N d1 ltac:(lia)) as (N1 & N1l & N1h).
  destruct (N d2 ltac:(lia)) as (N2 & N2l & N2h).
  destruct (N d3 ltac:(lia)) as (N3 & N3l & N3h).
  rewrite N0, N1, N2, N3 at 1 2. clear N N0 N1 N2 N3.
  rewrite count_bits_bytes by lia.
  rewrite count_bits_sum by lia. lia.
Qed.

(** [count_bits] returns the number of bits set in the bytes of the map it
    walks, [map_size >> 2] words of 32 bits, for a map of less than 2^29
    bytes, whose bits a 32-bit counter can count. *)
Theorem count_bits_counts (map_size : Z) (mem : list Z) :
  Forall is_byte mem ->
  0 <= map_size < 536870912 ->
  (4 * Z.to_nat (Z.shiftr map_size 2) <= length mem)%nat ->
  count_bits map_size mem
  = popcount_bytes (take (4 * Z.to_nat (Z.shiftr map_size 2)) mem).
Proof.
  intros Hbytes Hms Hlen. unfold count_bits, map_words32.
  assert (Hq : 0 <= Z.shiftr map_size 2 < 134217728).
  { rewrite Z.shiftr_div_pow2 by lia. change (2 ^ 2) with 4.
    Z.div_mod_to_equations. lia. }
  assert (Hw : wrap32 (Z.shiftr map_size 2) = Z.shiftr map_size 2)
    by (unfold wrap32; apply Z.mod_small; lia).
  rewrite Hw. set (n := Z.to_nat (Z.shiftr map_size 2)) in *.
  assert (Hgen : forall m, (m <= n)%nat ->
    fold_left (fun ret w => count_bits_word ret (read_u32 mem w)) (seq 0 m) 0
    = popcount_bytes (take (4 * m) mem)).
  { induction m as [|m IH]; intros Hm; [done|].
    rewrite fold_left_seq_S, IH by lia.
    pose proof (popcount_bytes_range (take (4 * m) mem)) as R.
    rewrite length_take in R.
    unfold read_u32. rewrite count_bits_word_spec
      by (try (by apply rd_is_byte); lia).
    replace (4 * S m)%nat with (4 * m + 4)%nat by lia.
    rewrite take_chunk by lia. rewrite popcount_bytes_app. simpl seq. simpl map.
    by rewrite Nat.add_0_r. }
  apply Hgen. lia.
Qed.

Lemma count_bits_counts_witness :
  count_bits 8 [255; 255; 255; 255; 3; 0; 128; 16]
  = popcount_bytes (take (4 * Z.to_nat (Z.shiftr 8 2))
                         [255; 255; 255; 255; 3; 0; 128; 16]).
Proof.
  apply (count_bits_counts 8 [255; 255; 255; 255; 3; 0; 128; 16]).
  - repeat constructor; unfold is_byte; lia.
  - lia.
  - vm_compute. lia.
Defined.

(** ** BitmapOps: init_count_class16 *)

Lemma fold_left_seqZ_S {A : Type} (f : A -> Z -> A) (n : nat) (a : A) :
  fold_left f (seqZ 0 (Z.of_nat (S n))) a
  = f (fold_left f (seqZ 0 (Z.of_nat n)) a) (Z.of_nat n).
Proof.
  unfold seqZ. rewrite !Nat2Z.id, seq_S, fmap_app, fold_left_app. simpl.
  by rewrite Z.add_0_r.
Qed.

Lemma lor_shiftl_add (a b n : Z) :
  0 <= n -> 0 <= b < 2 ^ n -> Z.lor (Z.shiftl a n) b = b + a * 2 ^ n.
Proof.
  intros Hn Hb. apply Z.bits_inj'. intros j Hj.
  rewrite Z.lor_spec, Z.shiftl_spec, testbit_combine by done.
  destruct (Z.ltb_spec j n) as [Hlt|Hge].
  - by rewrite Z.testbit_neg_r by lia.
  - rewrite <- (Z.mod_small b (2 ^ n)) at 1 by done.
    rewrite Z.mod_pow2_bits_high by lia. by rewrite orb_false_r.
Qed.

Lemma word16_bytes (lo hi : Z) :
  is_byte lo ->
  Z.shiftr (lo + 256 * hi) 8 = hi /\ Z.land (lo + 256 * hi) 255 = lo.
Proof.
  unfold is_byte. intros Hlo. split.
  - rewrite Z.shiftr_div_pow2 by lia. change (2 ^ 8) with 256.
    Z.div_mod_to_equations. lia.
  - change 255 with (Z.ones 8). rewrite Z.land_ones by lia.
    change (2 ^ 8) with 256. Z.div_mod_to_equations. lia.
Qed.

Lemma count_class_lookup8_byte (v : Z) :
  is_byte v -> is_byte (lookup8 count_class_lookup8 v).
Proof.
  intros Hv.
  pose proof (for_all_bytes
    (fun v => (0 <=? lookup8 count_class_lookup8 v)
              && (lookup8 count_class_lookup8 v <? 256))
    ltac:(vm_compute; reflexivity) v Hv) as H.
  simpl in H. apply andb_true_iff in H as [H1 H2]. unfold is_byte. lia.
Qed.

(** The inner loop of [init_count_class16] for [b1 = i] fills the entries
    [256 * i .. 256 * i + n - 1] and leaves the ones below as they are. *)
Lemma init_count_class16_inner (i n : nat) (table : list Z) :
  (i < 256)%nat -> (n <= 256)%nat -> length table = Z.to_nat 65536 ->
  (forall k, (k < 256 * i)%nat -> rd table k = count_class_lookup16 (Z.of_nat k)) ->
  let table' := fold_left (init_count_class16_step (Z.of_nat i))
                          (seqZ 0 (Z.of_nat n)) table in
  length table' = Z.to_nat 65536
  /\ forall k, (k < 256 * i + n)%nat ->
               rd table' k = count_class_lookup16 (Z.of_nat k).
Proof.
  intros Hi Hn Hlen Hlow. cbv zeta. induction n as [|n IH].
  - split; [done|]. intros k Hk. apply Hlow. lia.
  - destruct IH as [IHlen IHrd]; [lia|].
    rewrite fold_left_seqZ_S.
    set (t := fold_left (init_count_class16_step (Z.of_nat i))
                        (seqZ 0 (Z.of_nat n)) table) in *.
    unfold init_count_class16_step.
    assert (Hidx : Z.to_nat (Z.shiftl (Z.of_nat i) 8 + Z.of_nat n)
                   = (256 * i + n)%nat).
    { rewrite Z.shiftl_mul_pow2 by lia. change (2 ^ 8) with 256. lia. }
    rewrite Hidx. split; [by rewrite length_insert|].
    intros k Hk. destruct (decide (k = 256 * i + n)%nat) as [->|Hne].
    + rewrite rd_insert_eq by lia. unfold count_class_lookup16.
      replace (Z.of_nat (256 * i + n)) with (Z.of_nat n + 256 * Z.of_nat i) by lia.
      by destruct (word16_bytes (Z.of_nat n) (Z.of_nat i)
                     ltac:(unfold is_byte; lia)) as [-> ->].
    + rewrite rd_insert_ne by done. apply IHrd. lia.
Qed.

Lemma init_count_class16_outer (m : nat) :
  (m <= 256)%nat ->
  let table := fold_left
                 (fun table b1 =>
                    fold_left (init_count_class16_step b1) (seqZ 0 256) table)
                 (seqZ 0 (Z.of_nat m)) (replicate (Z.to_nat 65536) 0) in
  length table = Z.to_nat 65536
  /\ forall k, (k < 256 * m)%nat -> rd table k = count_class_lookup16 (Z.of_nat k).
Proof.
  cbv zeta. induction m as [|m IH]; intros Hm.
  - change (seqZ 0 (Z.of_nat 0)) with (@nil Z). cbn [fold_left].
    split; [by rewrite length_replicate|]. intros k Hk. lia.
  - destruct IH as [IHlen IHrd]; [lia|].
    rewrite fold_left_seqZ_S.
    destruct (init_count_class16_inner m 256 _ ltac:(lia) ltac:(lia) IHlen IHrd)
      as [Hlen Hrd].
    change (Z.of_nat 256) with 256 in *.
    split; [exact Hlen|]. intros k Hk. apply Hrd. lia.
Qed.

Lemma init_count_class16_table :
  length init_count_class16 = Z.to_nat 65536
  /\ forall k, (k < 256 * 256)%nat ->
               rd init_count_class16 k = count_class_lookup16 (Z.of_nat k).
Proof.
  pose proof (init_count_class16_outer 256 ltac:(lia)) as H.
  cbv zeta in H. change (Z.of_nat 256) with 256 in H. exact H.
Qed.

(** The table that [init_count_class16] fills has 65536 entries, and the
    entry of the 16-bit word made of the bytes [lo] and [hi] is the word
    made of their classes: one lookup in it classifies two bytes of a trace
    as [count_class_lookup8] does one by one. *)
Theorem init_count_class16_classifies_bytes (lo hi : Z) :
  is_byte lo -> is_byte hi ->
  length init_count_class16 = Z.to_nat 65536
  /\ rd init_count_class16 (Z.to_nat (lo + 256 * hi))
     = lookup8 count_class_lookup8 lo + 256 * lookup8 count_class_lookup8 hi.
Proof.
  intros Hlo Hhi.
  destruct init_count_class16_table as [Hlen Hrd].
  split; [exact Hlen|].
  pose proof (count_class_lookup8_byte lo Hlo) as Clo.
  pose proof (count_class_lookup8_byte hi Hhi) as Chi.
  pose proof Hlo as Hlo'. unfold is_byte in Hlo', Hhi, Clo, Chi.
  rewrite Hrd by lia. rewrite Z2Nat.id by lia.
  unfold count_class_lookup16.
  destruct (word16_bytes lo hi Hlo) as [-> ->].
  rewrite lor_shiftl_add by (change (2 ^ 8) with 256; lia).
  change (2 ^ 8) with 256. lia.
Qed.

Lemma init_count_class16_classifies_bytes_witness :
  length init_count_class16 = Z.to_nat 65536
  /\ rd init_count_class16 (Z.to_nat (3 + 256 * 200))
     = lookup8 count_class_lookup8 3 + 256 * lookup8 count_class_lookup8 200.
Proof.
  apply (init_count_class16_classifies_bytes 3 200); unfold is_byte; lia.
Defined.

(** ** The stored-block compressor has the laws *)

Lemma stored_block_laws : CompressorLaws stored_block.
Proof.
  split; simpl.
  - intros src cap Hcap.
    destruct (Z.leb_spec (Z.min (Z.of_nat (length src) + 1) 2147483647) cap),
      (Z.leb_spec (Z.min (Z.of_nat (length src) + 1) 2147483647)
                  (Z.of_nat (length src) + 1)); lia.
  - intros src cap.
    destruct (Z.leb_spec (Z.min (Z.of_nat (length src) + 1) 2147483647) cap); lia.
  - intros a b Hab Hb. lia.
  - lia.
Qed.

(** ** DiversityMetric: the growth of the scratch *)

(** The growth step of [calc_NCDm] and [fill_trace_mini_and_compressed_len]
    for a demand [val] below 2^29: the new [prevLongest] is the power of two
    [2^(floor(log2 val) + 2)], which is more than twice the demand and, for
    a demand that is not 0, at most four times the demand; and
    [maxCompressedLen] is the compressor's bound for it. *)
Theorem grow_scratch_capacity `{Compressor} (val : Z) :
  0 <= val < 2 ^ 29 ->
  let sc := grow_scratch val in
  prevLongest sc = 2 ^ (Z.log2 val + 2)
  /\ 2 * val < prevLongest sc
  /\ (1 <= val -> prevLongest sc <= 4 * val)
  /\ maxCompressedLen sc = LZ4_compressBound (prevLongest sc).
Proof.
  intros Hval sc. subst sc.
  assert (Hcap : maxCompressedLen (grow_scratch val)
                 = LZ4_compressBound (prevLongest (grow_scratch val))) by done.
  rewrite Hcap, grow_scratch_prevLongest by done. clear Hcap.
  pose proof (grown_capacity_gt val ltac:(lia)) as Hgt.
  unfold grown_capacity in *.
  split; [done|]. split; [done|]. split; [|done].
  intros Hpos. pose proof (Z.log2_spec val ltac:(lia)) as [Hle _].
  pose proof (Z.log2_nonneg val).
  rewrite Z.pow_add_r by lia. change (2 ^ 2) with 4. lia.
Qed.

Lemma grow_scratch_capacity_witness :
  let sc := @grow_scratch stored_block 5 in
  prevLongest sc = 2 ^ (Z.log2 5 + 2)
  /\ 2 * 5 < prevLongest sc
  /\ (1 <= 5 -> prevLongest sc <= 4 * 5)
  /\ maxCompressedLen sc = @LZ4_compressBound stored_block (prevLongest sc).
Proof. apply (@grow_scratch_capacity stored_block 5). lia. Defined.

(** ** DiversityMetric: the value of calc_NCDm *)

(** [calc_NCDm] on entries that are ready (each has its testcase, and its
    [compressed_len] is the compressed size of the testcase or is still 0
    with a scratch large enough to compute it) and whose lengths sum to less
    than 2^29: it returns [(C(all) - min C(x_i)) / max C(all without x_i)]
    in [float] arithmetic, or 0 when the largest subset size is 0; the
    scratch has grown exactly when its capacity was at most the summed
    length; the entries differ from before at most in [compressed_len] and
    are still ready. *)
Theorem calc_NCDm_value {X : Compressor} {L : CompressorLaws X}
    (sc : scratch) (qs : qstore) (ps : list qptr) :
  scratch_ok sc ->
  Forall (ptr_ready sc qs) ps ->
  sum_len qs ps < 2 ^ 29 ->
  exists sc' qs',
    calc_NCDm sc qs ps = Ok (sc', qs', spec_NCDm (payloads qs ps))
    /\ sc' = (if prevLongest sc <=? sum_len qs ps
              then grow_scratch (sum_len qs ps) else sc)
    /\ scratch_ok sc'
    /\ store_cl_equiv qs qs'
    /\ (forall q, ptr_ready sc qs q -> ptr_ready sc' qs' q).
Proof. apply calc_NCDm_spec. Qed.

Lemma calc_NCDm_value_witness :
  let qs := {| queue_buf := [scored_entry [1; 2; 3] 4; scored_entry [7; 7] 3];
               stack_entry := scored_entry [9] 2 |} in
  let ps := [QBuf 0; QBuf 1; QStack] in
  exists sc' qs',
    @calc_NCDm stored_block scratch_init qs ps
    = Ok (sc', qs', @spec_NCDm stored_block (payloads qs ps))
    /\ sc' = (if prevLongest scratch_init <=? sum_len qs ps
              then @grow_scratch stored_block (sum_len qs ps) else scratch_init)
    /\ @scratch_ok stored_block sc'
    /\ store_cl_equiv qs qs'
    /\ (forall q, @ptr_ready stored_block scratch_init qs q ->
                  @ptr_ready stored_block sc' qs' q).
Proof.
  apply (@calc_NCDm_value stored_block stored_block_laws).
  - vm_compute. intuition discriminate.
  - apply Forall_cons_2;
      [|apply Forall_cons_2; [|apply Forall_cons_2; [|apply Forall_nil_2]]];
      (eexists; split; [reflexivity|]);
      (eexists; split; [reflexivity|]); vm_compute;
      (split; [intuition discriminate
              |left; split; [reflexivity|discriminate]]).
  - vm_compute. reflexivity.
Defined.

(** ** fill_trace_mini_and_compressed_len *)

Section FillTraceMini.
Context {X : Compressor} {L : CompressorLaws X}.

(** The scratch after the growth step of
    [fill_trace_mini_and_compressed_len] holds the testcase. *)
Lemma scratch_after_fill_growth (sc : scratch) (n : Z) :
  scratch_ok sc -> 0 <= n < 2 ^ 29 -> 1 <= n \/ 0 < prevLongest sc ->
  let sc' := if prevLongest sc <? wrap32 (2 * n) then grow_scratch n else sc in
  sc' = (if prevLongest sc <? 2 * n then grow_scratch n else sc)
  /\ scratch_ok sc'
  /\ LZ4_compressBound n <= maxCompressedLen sc'.
Proof.
  intros Hsc Hn Hpos. cbv zeta.
  assert (Hw : wrap32 (2 * n) = 2 * n) by (unfold wrap32; apply Z.mod_small; lia).
  rewrite Hw. split; [done|].
  destruct (Z.ltb_spec (prevLongest sc) (2 * n)) as [Hgrow|Hkeep].
  - pose proof (scratch_after_growth scratch_init n) as H.
    cbv zeta in H. change (prevLongest scratch_init) with 0 in H.
    destruct (Z.leb_spec 0 n) as [_|]; [|lia].
    destruct H as (Hok & _ & _ & _ & Hroom); [|lia|].
    + unfold scratch_ok, scratch_init. simpl. split; [lia|right; done].
    + split; [done|]. apply Hroom. lia.
  - split; [done|]. destruct Hsc as [Hrange [->|[Hz _]]]; [|lia].
    apply LZ4_compressBound_mono; lia.
Qed.

(** [fill_trace_mini_and_compressed_len] on an entry that has its testcase
    (shorter than 2^29 bytes, and not empty unless the scratch was grown
    before), for a map whose size is a multiple of 8, so that every byte
    [i >> 3] that [minimize_bits] writes lies in the [map_size >> 3] bytes
    allocated. It stops with the fatal error exactly when the compressed
    size of the testcase is 0.
    Otherwise the entry gets the compressed size of its testcase and a trace
    of [map_size >> 3] bytes in which bit [j] of byte [k] is set exactly
    when byte [8k + j] of [trace_bits] is not zero; no other field changes,
    the scratch has grown exactly when [prevLongest] was below twice the
    length, and the entry is ready for [calc_NCDm]. *)
Theorem fill_trace_mini_and_compressed_len_result (map_size : Z)
    (trace_bits : list Z) (sc : scratch) (e : queue_entry) (buf : list Z) :
  scratch_ok sc ->
  testcase_buf e = Some buf ->
  0 <= len e <= Z.of_nat (length buf) ->
  len e < 2 ^ 29 ->
  1 <= len e \/ 0 < prevLongest sc ->
  0 <= map_size -> map_size mod 8 = 0 ->
  let sc' := if prevLongest sc <? 2 * len e then grow_scratch (len e) else sc in
  if spec_C (payload e) =? 0
  then fill_trace_mini_and_compressed_len map_size trace_bits sc e
       = Fatal FatalCompressFailed
  else
    exists tm,
      fill_trace_mini_and_compressed_len map_size trace_bits sc e
      = Ok (sc', set_trace_mini_compressed e (Some tm) (spec_C (payload e)))
      /\ Z.of_nat (length tm) = map_size / 8
      /\ (forall k j, (k < length tm)%nat -> 0 <= j < 8 ->
            trace_bit tm k j
            = negb (rd trace_bits (Z.to_nat (8 * Z.of_nat k + j)) =? 0))
      /\ scratch_ok sc'
      /\ entry_ready sc'
           (set_trace_mini_compressed e (Some tm) (spec_C (payload e))).
Proof.
  intros Hsc Hbuf Hlen Hmax Hpos Hms Hmult sc'.
  destruct (scratch_after_fill_growth sc (len e) Hsc ltac:(lia) Hpos)
    as (Heq & Hok & Hroom).
  cbv zeta in Heq, Hok, Hroom. rewrite Heq in Hok, Hroom. fold sc' in Hok, Hroom.
  assert (Hcomp : LZ4_compress_default (buf_prefix (len e) buf)
                                       (maxCompressedLen sc')
                  = spec_C (payload e)).
  { unfold spec_C, payload. rewrite Hbuf. simpl.
    apply LZ4_enough_capacity.
    pose proof (payload_length e buf Hbuf Hlen) as Hpl.
    unfold payload in Hpl. rewrite Hbuf in Hpl. simpl in Hpl. by rewrite Hpl. }
  unfold fill_trace_mini_and_compressed_len. rewrite Heq. fold sc'.
  rewrite Hbuf. simpl. rewrite Hcomp.
  destruct (Z.eqb_spec (spec_C (payload e)) 0) as [Hz|Hnz]; [done|].
  set (tm := minimize_bits map_size
               (replicate (Z.to_nat (Z.shiftr map_size 3)) 0) trace_bits).
  exists tm. split; [done|].
  assert (Hdiv : Z.shiftr map_size 3 = map_size / 8)
    by (rewrite Z.shiftr_div_pow2 by lia; done).
  assert (Hlentm : Z.of_nat (length tm) = map_size / 8).
  { unfold tm, minimize_bits.
    rewrite minimize_bits_prefix_length, length_replicate, Hdiv.
    apply Z2Nat.id. apply Z.div_pos; lia. }
  split; [done|]. split; [|split; [done|]].
  - intros k j Hk Hj. unfold trace_bit, tm, minimize_bits.
    rewrite minimize_bits_prefix_bits; cycle 1.
    { rewrite length_replicate, Hdiv. lia. }
    { lia. }
    rewrite rd_replicate, Z.bits_0. simpl.
    destruct (Z.ltb_spec j 8); [|lia].
    destruct (Z.ltb_spec (8 * Z.of_nat k + j) (Z.of_nat (Z.to_nat map_size)))
      as [|Hout]; [done|].
    exfalso. assert (Hk' : Z.of_nat k < map_size / 8) by lia.
    clear -Hk' Hj Hms Hout. Z.div_mod_to_equations. lia.
  - exists buf. split; [done|]. split; [done|]. left. done.
Qed.

End FillTraceMini.

Lemma fill_trace_mini_and_compressed_len_result_witness :
  let e := entry_of_bytes [1; 2; 3] in
  let trace_bits := [0; 3; 0; 0; 0; 0; 0; 1; 9; 0; 0; 0; 0; 0; 0; 0] in
  let sc' := if prevLongest scratch_init <? 2 * len e
             then @grow_scratch stored_block (len e) else scratch_init in
  if @spec_C stored_block (payload e) =? 0
  then @fill_trace_mini_and_compressed_len stored_block 16 trace_bits
         scratch_init e
       = Fatal FatalCompressFailed
  else
    exists tm,
      @fill_trace_mini_and_compressed_len stored_block 16 trace_bits
        scratch_init e
      = Ok (sc', set_trace_mini_compressed e (Some tm)
                   (@spec_C stored_block (payload e)))
      /\ Z.of_nat (length tm) = 16 / 8
      /\ (forall k j, (k < length tm)%nat -> 0 <= j < 8 ->
            trace_bit tm k j
            = negb (rd trace_bits (Z.to_nat (8 * Z.of_nat k + j)) =? 0))
      /\ @scratch_ok stored_block sc'
      /\ @entry_ready stored_block sc'
           (set_trace_mini_compressed e (Some tm)
              (@spec_C stored_block (payload e))).
Proof.
  apply (@fill_trace_mini_and_compressed_len_result stored_block
           stored_block_laws 16 _ scratch_init (entry_of_bytes [1; 2; 3])
           [1; 2; 3]).
  - vm_compute. intuition discriminate.
  - reflexivity.
  - vm_compute. intuition discriminate.
  - vm_compute. reflexivity.
  - left. vm_compute. discriminate.
  - lia.
  - reflexivity.
Defined.

(** ** InputHashIndex: the writes to the queue *)

Lemma lookup_update_queue (f : queue_entry -> queue_entry) (j : nat)
    (qs : qstore) (i : nat) :
  queue_buf (update_queue f j qs) !! i
  = if decide (i = j) then f <$> queue_buf qs !! i else queue_buf qs !! i.
Proof.
  unfold update_queue. simpl. destruct (decide (i = j)) as [->|Hne].
  - apply list_lookup_alter_eq.
  - by apply list_lookup_alter_ne.
Qed.

Lemma set_all_duplicates_cons (v : Z) (x : nat) (m : list nat) (qs : qstore) :
  set_all_duplicates v (x :: m) qs
  = set_all_duplicates v m (update_queue (set_duplicates v) x qs).
Proof. done. Qed.

Lemma set_all_duplicates_snoc (v : Z) (x : nat) (m : list nat) (qs : qstore) :
  set_all_duplicates v (m ++ [x]) qs
  = update_queue (set_duplicates v) x (set_all_duplicates v m qs).
Proof. unfold set_all_duplicates. by rewrite fold_left_app. Qed.

Lemma lookup_set_all_duplicates (v : Z) (m : list nat) (qs : qstore) (i : nat) :
  queue_buf (set_all_duplicates v m qs) !! i
  = if decide (i ∈ m) then set_duplicates v <$> queue_buf qs !! i
    else queue_buf qs !! i.
Proof.
  revert qs. induction m as [|x m IH]; intros qs.
  - destruct (decide (i ∈ [])) as [Hin|_]; [by apply elem_of_nil in Hin|done].
  - rewrite set_all_duplicates_cons, IH, lookup_update_queue.
    destruct (decide (i ∈ m)) as [Him|Him], (decide (i = x)) as [->|Hne],
      (decide (_ ∈ x :: m)) as [Hin|Hin]; try done.
    + by destruct (queue_buf qs !! x).
    + exfalso. apply Hin. by right.
    + exfalso. apply Hin. by right.
    + exfalso. apply Hin. by left.
    + apply elem_of_cons in Hin as [?|?]; done.
Qed.

Lemma stack_entry_set_all_duplicates (v : Z) (m : list nat) (qs : qstore) :
  stack_entry (set_all_duplicates v m qs) = stack_entry qs.
Proof. revert qs. induction m as [|x m IH]; intros qs; [done|]. by rewrite set_all_duplicates_cons, IH. Qed.

(** ** InputHashIndex: the removal loop *)

(** The removal loop on a bucket that lists the evictee: every listed entry
    gets the new [duplicates], and the entries after the first occurrence of
    the evictee move down by one, so that all but the last slot hold the
    bucket without it. *)
Lemma move_remove_loop (evictee : nat) (l1 l2 : list nat) (qs : qstore) :
  evictee ∉ l1 ->
  let l := l1 ++ evictee :: l2 in
  let count := Z.of_nat (length l) in
  count < 4294967296 ->
  exists l',
    fold_left (move_remove_step evictee count) (seq 0 (length l)) (qs, l, false)
    = (set_all_duplicates (if 2 <=? count then count - 2 else 0) l qs, l', true)
    /\ take (length l' - 1) l' = l1 ++ l2.
Proof.
  intros Hnotin l count Hcount.
  set (d := if 2 <=? count then count - 2 else 0).
  set (p := length l1). set (n := length l).
  assert (Hn : n = S (p + length l2)).
  { unfold n, l, p. rewrite length_app. simpl. lia. }
  assert (Hgen : forall k, (k <= n)%nat ->
    exists lk,
      fold_left (move_remove_step evictee count) (seq 0 k) (qs, l, false)
      = (set_all_duplicates d (take k l) qs, lk, bool_decide (p < k)%nat)
      /\ length lk = n
      /\ forall i, lk !! i
                   = if bool_decide (p <= i /\ i < k /\ S i < n)%nat
                     then l !! S i else l !! i).
  { induction k as [|k IH]; intros Hk.
    - exists l. split; [done|]. split; [done|]. intros i.
      rewrite bool_decide_eq_false_2; [done|lia].
    - destruct IH as (lk & Hrun & Hlen & Hpt); [lia|].
      rewrite fold_left_seq_S, Hrun. unfold move_remove_step at 1.
      destruct (lookup_lt_is_Some_2 l k ltac:(fold n; lia)) as [x Hx].
      assert (Hnth : nth k lk 0%nat = x).
      { rewrite nth_lookup, Hpt, bool_decide_eq_false_2 by lia. by rewrite Hx. }
      rewrite Hnth.
      assert (Hrem : bool_decide (p < k)%nat || bool_decide (x = evictee)
                     = bool_decide (p < S k)%nat).
      { destruct (decide (k < p)%nat) as [Hlt|Hge].
        - assert (x <> evictee).
          { intros ->. apply Hnotin. unfold l in Hx.
            rewrite lookup_app_l in Hx by (fold p; lia).
            by eapply list_elem_of_lookup_2. }
          rewrite !bool_decide_eq_false_2 by (done || lia). done.
        - destruct (decide (k = p)) as [->|Hne].
          + assert (x = evictee) as ->.
            { unfold l in Hx. rewrite lookup_app_r in Hx by (fold p; lia).
              fold p in Hx. replace (p - p)%nat with 0%nat in Hx by lia.
              by injection Hx. }
            rewrite (bool_decide_eq_true_2 (evictee = evictee)) by done.
            rewrite orb_true_r. by rewrite (bool_decide_eq_true_2 (p < S p)%nat) by lia.
          + rewrite (bool_decide_eq_true_2 (p < k)%nat) by lia.
            by rewrite (bool_decide_eq_true_2 (p < S k)%nat) by lia. }
      rewrite Hrem.
      assert (Hw : wrap32 (count - 1) = count - 1).
      { unfold wrap32. apply Z.mod_small. unfold count. fold n. lia. }
      rewrite Hw.
      eexists. split.
      { f_equal. f_equal.
        rewrite (take_S_r _ _ x) by done. by rewrite set_all_duplicates_snoc. }
      destruct (bool_decide (p < S k)%nat) eqn:Hp; simpl.
      + apply bool_decide_eq_true_1 in Hp.
        destruct (Z.ltb_spec (Z.of_nat k) (count - 1)) as [Hlt|Hge].
        * split; [by rewrite length_insert|]. intros i.
          destruct (decide (i = k)) as [->|Hne].
          -- rewrite list_lookup_insert_eq by lia.
             rewrite bool_decide_eq_true_2 by (unfold count in Hlt; fold n in Hlt; lia).
             rewrite nth_lookup, Hpt, bool_decide_eq_false_2 by lia.
             destruct (lookup_lt_is_Some_2 l (S k)) as [y Hy];
               [unfold count in Hlt; fold n in Hlt; lia|].
             by rewrite Hy.
          -- rewrite list_lookup_insert_ne by done. rewrite Hpt.
             destruct (decide (p <= i /\ i < k /\ S i < n)%nat).
             ++ rewrite !bool_decide_eq_true_2 by lia. done.
             ++ rewrite !bool_decide_eq_false_2 by lia. done.
        * split; [done|]. intros i. rewrite Hpt.
          unfold count in Hge. fold n in Hge.
          destruct (decide (p <= i /\ i < k /\ S i < n)%nat).
          -- rewrite !bool_decide_eq_true_2 by lia. done.
          -- rewrite !bool_decide_eq_false_2 by lia. done.
      + apply bool_decide_eq_false_1 in Hp.
        split; [done|]. intros i. rewrite Hpt.
        rewrite !bool_decide_eq_false_2 by lia. done. }
  destruct (Hgen n ltac:(lia)) as (ln & Hrun & Hlen & Hpt).
  exists ln. fold n. rewrite Hrun. split.
  - rewrite (take_ge l n) by (unfold n; lia).
    rewrite bool_decide_eq_true_2 by lia. done.
  - apply list_eq. intros i. rewrite Hlen.
    destruct (decide (i < n - 1)%nat) as [Hlt|Hge].
    + rewrite lookup_take_lt by lia. rewrite Hpt.
      destruct (decide (p <= i)%nat) as [Hpi|Hpi].
      * rewrite bool_decide_eq_true_2 by lia. unfold l.
        rewrite lookup_app_r by (fold p; lia). fold p.
        rewrite (lookup_app_r l1) by (fold p; lia). fold p.
        replace (S i - p)%nat with (S (i - p)) by lia. done.
      * rewrite bool_decide_eq_false_2 by lia. unfold l.
        rewrite !lookup_app_l by (fold p; lia). done.
    + rewrite lookup_take_ge by lia. symmetry. apply lookup_ge_None.
      rewrite length_app. fold p. lia.
Qed.

Lemma get_entry_set_all_duplicates (v : Z) (m : list nat) (qs : qstore)
    (p : qptr) (e : queue_entry) :
  get_entry qs p = Some e ->
  exists e', get_entry (set_all_duplicates v m qs) p = Some e'
             /\ input_hash e' = input_hash e.
Proof.
  destruct p as [i|]; simpl; intros He.
  - rewrite lookup_set_all_duplicates, He.
    destruct (decide (i ∈ m)); eexists; (split; [reflexivity|done]).
  - rewrite stack_entry_set_all_duplicates. injection He as <-. by eexists.
Qed.

(** ** InputHashIndex: move_queue_entry_to_correct_input_hash *)

(** What the move does when the evictee is listed in the bucket of its
    hash: the bucket loses it, the evictee takes the hash of the new entry
    and joins the bucket of that hash, which is created when there is none;
    the entries of both buckets get their new [duplicates]. *)
Lemma move_queue_entry_run (qs : qstore) (hm : gmap Z queue_input_hash)
    (evictee : nat) (new : qptr) (ee ne : queue_entry) (b : queue_input_hash)
    (l1 l2 : list nat) :
  queue_buf qs !! evictee = Some ee ->
  hm !! input_hash ee = Some b ->
  hash b = input_hash ee ->
  inputs b = l1 ++ evictee :: l2 ->
  evictee ∉ l1 ->
  inputs_count b < 4294967296 ->
  get_entry qs new = Some ne ->
  let count := inputs_count b in
  let qs1 := set_all_duplicates (if 2 <=? count then count - 2 else 0)
                                (inputs b) qs in
  let hm1 := <[input_hash ee := set_inputs (l1 ++ l2) b]> hm in
  let qs2 := update_queue (set_input_hash (input_hash ne)) evictee qs1 in
  move_queue_entry_to_correct_input_hash qs hm evictee new
  = Ok (match hm1 !! input_hash ne with
        | None =>
            (update_queue (set_duplicates 0) evictee qs2,
             <[input_hash ne := {| hash := input_hash ne; inputs := [evictee];
                                   allocated_inputs := 8 |}]> hm1)
        | Some fb =>
            (set_all_duplicates (Z.of_nat (length (inputs fb)))
                                (inputs fb ++ [evictee]) qs2,
             <[input_hash ne := bucket_append evictee fb]> hm1)
        end).
Proof.
  intros Hev Hb Hhash Hin Hnotin Hcount Hnew count qs1 hm1 qs2.
  unfold move_queue_entry_to_correct_input_hash, load. simpl get_entry.
  rewrite Hev. simpl. unfold hashmap_get. rewrite Hb. simpl.
  rewrite Hhash, Z.eqb_refl. simpl.
  unfold inputs_count in Hcount.
  destruct (move_remove_loop evictee l1 l2 qs Hnotin) as (l' & Hrun & Htake).
  { rewrite <- Hin. exact Hcount. }
  rewrite <- Hin in Hrun. fold (inputs_count b) in Hrun. rewrite Hrun.
  rewrite Htake. fold count. fold qs1. fold hm1. simpl.
  destruct (get_entry_set_all_duplicates
              (if 2 <=? count then count - 2 else 0) (inputs b) qs new ne Hnew)
    as (ne1 & Hne1 & Hh1).
  fold qs1 in Hne1. rewrite Hne1. simpl. rewrite Hh1. fold qs2.
  destruct (hm1 !! input_hash ne) as [fb|] eqn:Hfb; [|done].
  do 3 f_equal. unfold bucket_append, inputs_count. simpl.
  rewrite length_app. simpl.
  destruct (Z.leb_spec 1 (Z.of_nat (length (inputs fb) + 1))); lia.
Qed.

(** The entry of slot [i] after the writes of the move. *)
Lemma lookup_after_move (qs : qstore) (l M : list nat) (ev : nat)
    (c d hn : Z) (i : nat) :
  queue_buf (set_all_duplicates c (M ++ [ev])
               (update_queue (set_input_hash hn) ev
                  (set_all_duplicates d l qs))) !! i
  = (fun e =>
       (if decide (i ∈ (M ++ [ev])) then set_duplicates c else id)
         ((if decide (i = ev) then set_input_hash hn else id)
            ((if decide (i ∈ l) then set_duplicates d else id) e)))
    <$> queue_buf qs !! i.
Proof.
  rewrite lookup_set_all_duplicates, lookup_update_queue,
    lookup_set_all_duplicates.
  destruct (decide (i ∈ (M ++ [ev]))), (decide (i = ev)), (decide (i ∈ l)),
    (queue_buf qs !! i); reflexivity.
Qed.

Lemma stack_entry_after_move (qs : qstore) (l M : list nat) (ev : nat)
    (c d hn : Z) :
  stack_entry (set_all_duplicates c (M ++ [ev])
                 (update_queue (set_input_hash hn) ev
                    (set_all_duplicates d l qs)))
  = stack_entry qs.
Proof.
  by rewrite stack_entry_set_all_duplicates; simpl;
    rewrite stack_entry_set_all_duplicates.
Qed.

Lemma bucket_size_le_queue (qs : qstore) (hm : gmap Z queue_input_hash)
    (h : Z) (b : queue_input_hash) :
  hash_index_ok qs hm -> hm !! h = Some b ->
  (length (inputs b) <= length (queue_buf qs))%nat.
Proof.
  intros [Hb _] Hh. destruct (Hb h b Hh) as (_ & Hnd & Hmem).
  rewrite <- (length_seq (length (queue_buf qs)) 0).
  apply submseteq_length, NoDup_submseteq; [done|].
  intros i Hi. destruct (Hmem i Hi) as (e & He & _).
  apply elem_of_seq. apply lookup_lt_Some in He. lia.
Qed.

Lemma move_queue_entry_index (qs : qstore)
    (hm : gmap Z queue_input_hash) (evictee : nat) (new : qptr)
    (ee ne : queue_entry) :
  hash_index_ok qs hm ->
  queue_buf qs !! evictee = Some ee ->
  get_entry qs new = Some ne ->
  Z.of_nat (length (queue_buf qs)) < 4294967296 ->
  exists qs' hm',
    move_queue_entry_to_correct_input_hash qs hm evictee new = Ok (qs', hm')
    /\ hash_index_ok qs' hm'
    /\ stack_entry qs' = stack_entry qs
    /\ forall i e, queue_buf qs !! i = Some e ->
         exists e', queue_buf qs' !! i = Some e'
           /\ input_hash e'
              = (if decide (i = evictee) then input_hash ne else input_hash e)
           /\ set_duplicates 0 (set_input_hash 0 e')
              = set_duplicates 0 (set_input_hash 0 e).
Proof.
  intros Hok Hev Hnew Hlen.
  pose proof Hok as [Hbuckets Hlisted].
  destruct (Hlisted evictee ee Hev) as (b & Hb & Hevb).
  destruct (Hbuckets _ b Hb) as (Hhash & Hnd & Hmem).
  apply list_elem_of_split_l in Hevb as (l1 & l2 & Hin & Hnotin).
  pose proof (bucket_size_le_queue qs hm _ b Hok Hb) as Hsize.
  rewrite (move_queue_entry_run qs hm evictee new ee ne b l1 l2)
    by (try done; unfold inputs_count; lia).
  set (h_old := input_hash ee) in *. set (h_new := input_hash ne) in *.
  set (d := if 2 <=? inputs_count b then inputs_count b - 2 else 0).
  set (hm1 := <[h_old := set_inputs (l1 ++ l2) b]> hm).
  (* the bucket of the evictee without it *)
  assert (Hnd' : NoDup (l1 ++ l2) /\ (evictee ∉ (l1 ++ l2))
                 /\ forall i, i ∈ (l1 ++ l2) <-> i ∈ inputs b /\ i <> evictee).
  { rewrite Hin in Hnd. apply NoDup_app in Hnd as (Hnd1 & Hdisj & Hnd2).
    apply NoDup_cons in Hnd2 as [Hnot2 Hnd2].
    split; [|split].
    - apply NoDup_app. split; [done|]. split; [|done].
      intros x Hx1 Hx2. apply (Hdisj x Hx1). by right.
    - rewrite elem_of_app. tauto.
    - intros i. rewrite Hin, !elem_of_app, elem_of_cons. split.
      + intros [Hi|Hi]; (split; [tauto|]); intros ->; tauto.
      + tauto. }
  destruct Hnd' as (Hnd' & Hev' & Hmem').
  (* the buckets after the removal *)
  assert (Hhm1 : forall h bk, hm1 !! h = Some bk ->
            hash bk = h /\ NoDup (inputs bk) /\ (evictee ∉ inputs bk)
            /\ (forall i, i ∈ inputs bk ->
                  exists e, queue_buf qs !! i = Some e /\ input_hash e = h)
            /\ (h <> h_old -> hm !! h = Some bk)
            /\ (h = h_old -> inputs bk = l1 ++ l2)).
  { intros h bk. unfold hm1. rewrite lookup_insert.
    destruct (decide (h_old = h)) as [<-|Hne]; intros Hbk.
    - injection Hbk as <-. simpl. split; [done|]. split; [done|].
      split; [done|]. split; [|done].
      intros i Hi. apply Hmem' in Hi as [Hi _].
      destruct (Hmem i Hi) as (e & He & Hh & _). by exists e.
    - destruct (Hbuckets h bk Hbk) as (Hh & Hndk & Hmemk).
      split; [done|]. split; [done|]. split; [|split; [|done]].
      + intros Hin'. destruct (Hmemk _ Hin') as (e & He & Hhe & _).
        rewrite Hev in He. injection He as <-. done.
      + intros i Hi. destruct (Hmemk i Hi) as (e & He & Hhe & _). by exists e. }
  (* both outcomes as one *)
  set (M := match hm1 !! h_new with Some fb => inputs fb | None => [] end).
  set (bk_new := match hm1 !! h_new with
                 | Some fb => bucket_append evictee fb
                 | None => {| hash := h_new; inputs := [evictee];
                              allocated_inputs := 8 |}
                 end).
  set (qs' := set_all_duplicates (Z.of_nat (length M)) (M ++ [evictee])
                (update_queue (set_input_hash h_new) evictee
                   (set_all_duplicates d (inputs b) qs))).
  assert (Hres : match hm1 !! h_new with
                 | None =>
                     (update_queue (set_duplicates 0) evictee
                        (update_queue (set_input_hash h_new) evictee
                           (set_all_duplicates d (inputs b) qs)),
                      <[h_new := {| hash := h_new; inputs := [evictee];
                                    allocated_inputs := 8 |}]> hm1)
                 | Some fb =>
                     (set_all_duplicates (Z.of_nat (length (inputs fb)))
                        (inputs fb ++ [evictee])
                        (update_queue (set_input_hash h_new) evictee
                           (set_all_duplicates d (inputs b) qs)),
                      <[h_new := bucket_append evictee fb]> hm1)
                 end = (qs', <[h_new := bk_new]> hm1)).
  { unfold qs', M, bk_new. by destruct (hm1 !! h_new). }
  rewrite Hres. clear Hres.
  assert (HM : NoDup M /\ (evictee ∉ M)
               /\ (forall i, i ∈ M ->
                     exists e, queue_buf qs !! i = Some e /\ input_hash e = h_new)
               /\ hash bk_new = h_new /\ inputs bk_new = M ++ [evictee]
               /\ (forall bk, hm1 !! h_new = Some bk -> inputs bk = M)).
  { unfold M, bk_new. destruct (hm1 !! h_new) as [fb|] eqn:Hfb.
    - destruct (Hhm1 _ fb Hfb) as (H1 & H2 & H3 & H4 & _).
      repeat split; try done. by intros bk [= <-].
    - repeat split; try done; try apply NoDup_nil_2.
      + apply not_elem_of_nil.
      + intros i Hi. by apply elem_of_nil in Hi. }
  destruct HM as (HMnd & HMev & HMmem & Hbkh & Hbki & HMfb).
  clearbody M bk_new.
  (* membership is decided by the hash *)
  assert (Hbyhash : forall i e h bk, queue_buf qs !! i = Some e -> hm !! h = Some bk ->
            (i ∈ inputs bk <-> input_hash e = h)).
  { intros i e h bk He Hbk. split.
    - intros Hi. destruct (Hbuckets h bk Hbk) as (_ & _ & Hm).
      destruct (Hm i Hi) as (e0 & He0 & Hh0 & _). by simplify_eq.
    - intros <-. destruct (Hlisted i e He) as (bk0 & Hbk0 & Hi). by simplify_eq. }
  assert (HinM : forall i e, queue_buf qs !! i = Some e -> i <> evictee ->
            (i ∈ M <-> input_hash e = h_new)).
  { intros i e He Hne. split.
    - intros Hi. destruct (HMmem i Hi) as (e0 & He0 & Hh0). by simplify_eq.
    - intros Hh. destruct (Hlisted i e He) as (bk0 & Hbk0 & Hi).
      rewrite Hh in Hbk0.
      destruct (decide (h_new = h_old)) as [Heq|Hneq].
      + rewrite <- (HMfb (set_inputs (l1 ++ l2) b)).
        * simpl. apply Hmem'. rewrite Heq in Hbk0. by simplify_eq.
        * unfold hm1. rewrite Heq. apply lookup_insert_eq.
      + rewrite <- (HMfb bk0); [done|].
        unfold hm1. by rewrite lookup_insert_ne. }
  (* the entries afterwards *)
  assert (Hentry : forall i e, queue_buf qs !! i = Some e ->
    exists e', queue_buf qs' !! i = Some e'
      /\ input_hash e' = (if decide (i = evictee) then h_new else input_hash e)
      /\ duplicates e' = (if decide (i ∈ (M ++ [evictee])) then Z.of_nat (length M)
                          else if decide (i ∈ inputs b) then d else duplicates e)
      /\ set_duplicates 0 (set_input_hash 0 e')
         = set_duplicates 0 (set_input_hash 0 e)).
  { intros i e He. unfold qs'. rewrite lookup_after_move, He. simpl.
    eexists. split; [reflexivity|].
    destruct (decide (i ∈ (M ++ [evictee]))), (decide (i = evictee)),
      (decide (i ∈ inputs b)); done. }
  assert (Hback : forall i e', queue_buf qs' !! i = Some e' ->
            exists e, queue_buf qs !! i = Some e).
  { intros i e'. unfold qs'. rewrite lookup_after_move.
    destruct (queue_buf qs !! i) as [e|]; [by exists e|done]. }
  exists qs', (<[h_new := bk_new]> hm1).
  split; [done|]. split; [|split].
  2:{ apply stack_entry_after_move. }
  2:{ intros i e He. destruct (Hentry i e He) as (e' & He' & Hh & _ & Hframe).
      by exists e'. }
  split.
  - (* every bucket *)
    intros h bk. rewrite lookup_insert.
    destruct (decide (h_new = h)) as [<-|Hne]; intros Hbk.
    + injection Hbk as <-. split; [done|]. rewrite Hbki. split.
      { apply NoDup_app. split; [done|]. split; [|apply NoDup_singleton].
        intros x Hx Hs. apply list_elem_of_singleton in Hs as ->. done. }
      intros i Hi.
      assert (Hi' := Hi). apply elem_of_app in Hi' as [HiM|Hs];
        [|apply list_elem_of_singleton in Hs as ->].
      * destruct (HMmem i HiM) as (e & He & Hh).
        destruct (Hentry i e He) as (e' & He' & Hh' & Hd' & _).
        exists e'. split; [done|].
        rewrite Hh', Hd'.
        rewrite (decide_True (P := i ∈ (M ++ [evictee]))) by done.
        destruct (decide (i = evictee)) as [->|]; [exfalso; by apply HMev|].
        split; [done|]. unfold inputs_count. rewrite Hbki, length_app. simpl. lia.
      * destruct (Hentry evictee ee Hev) as (e' & He' & Hh' & Hd' & _).
        exists e'. split; [done|].
        rewrite Hh', Hd'. rewrite !decide_True by done.
        split; [done|]. unfold inputs_count. rewrite Hbki, length_app. simpl. lia.
    + destruct (Hhm1 h bk Hbk) as (Hh & Hndk & Hevk & Hmemk & Hother & Hold).
      split; [done|]. split; [done|]. intros i Hi.
      destruct (Hmemk i Hi) as (e & He & Hhe).
      assert (Hie : i <> evictee) by (intros ->; done).
      destruct (Hentry i e He) as (e' & He' & Hh' & Hd' & _).
      exists e'. split; [done|]. rewrite Hh', Hd'.
      rewrite (decide_False (P := i = evictee)) by done. split; [done|].
      assert (HnotM : i ∉ (M ++ [evictee])).
      { rewrite elem_of_app, list_elem_of_singleton. intros [HiM|?]; [|done].
        apply (HinM i e He Hie) in HiM. congruence. }
      rewrite decide_False by done.
      destruct (decide (h = h_old)) as [->|Hneq].
      * rewrite (Hold eq_refl) in Hi. apply Hmem' in Hi as [Hib _].
        rewrite decide_True by done. unfold d, inputs_count.
        rewrite (Hold eq_refl). rewrite Hin, !length_app. simpl.
        assert (Hpos : (1 <= length (l1 ++ l2))%nat).
        { destruct (l1 ++ l2) as [|x l'] eqn:E; simpl; [|lia].
          rewrite Hin in Hib. apply elem_of_app in Hib as [Hib|Hib].
          - destruct l1; [by apply elem_of_nil in Hib|done].
          - apply elem_of_cons in Hib as [->|Hib]; [done|].
            destruct l1, l2; try done. by apply elem_of_nil in Hib. }
        rewrite length_app in Hpos.
        destruct (Z.leb_spec 2 (Z.of_nat (length l1 + S (length l2)))); lia.
      * pose proof (Hother Hneq) as Hbk0.
        assert (Hnotb : i ∉ inputs b).
        { intros Hib. apply (Hbyhash i e h_old b He Hb) in Hib. congruence. }
        rewrite decide_False by done.
        destruct (Hbuckets h bk Hbk0) as (_ & _ & Hm).
        destruct (Hm i Hi) as (e0 & He0 & _ & Hd0). by simplify_eq.
  - (* every entry *)
    intros i e' He'. destruct (Hback i e' He') as (e & He).
    destruct (Hentry i e He) as (e1 & He1 & Hh1 & _).
    rewrite He' in He1. injection He1 as <-. rewrite Hh1.
    destruct (decide (i = evictee)) as [->|Hie].
    + exists bk_new. rewrite lookup_insert_eq. split; [done|].
      rewrite Hbki, elem_of_app, list_elem_of_singleton. by right.
    + destruct (Hlisted i e He) as (bk0 & Hbk0 & Hi0).
      destruct (decide (input_hash e = h_new)) as [Heq|Hneq].
      * rewrite Heq. exists bk_new. rewrite lookup_insert_eq. split; [done|].
        rewrite Hbki, elem_of_app. left. by apply (HinM i e He Hie).
      * rewrite lookup_insert_ne by done. unfold hm1. rewrite lookup_insert.
        destruct (decide (h_old = input_hash e)) as [Hold|Hnold].
        -- eexists. split; [done|]. simpl. apply Hmem'. split; [|done].
           apply (Hbyhash i e h_old b He Hb). done.
        -- by exists bk0.
Qed.

(** The move keeps the InputHashIndex in agreement with the queue. On a
    queue of less than 2^32 entries whose index agrees with it, for an
    evictee in the queue and a new entry that exists, the call returns
    (none of its fatal errors is reached); the index agrees with the queue
    again; the evictee carries the hash of the new entry; and no entry
    changes in a field other than [duplicates] and, for the evictee,
    [input_hash]. *)
Theorem move_queue_entry_keeps_index (qs : qstore)
    (hm : gmap Z queue_input_hash) (evictee : nat) (new : qptr)
    (ee ne : queue_entry) :
  hash_index_ok qs hm ->
  queue_buf qs !! evictee = Some ee ->
  get_entry qs new = Some ne ->
  Z.of_nat (length (queue_buf qs)) < 4294967296 ->
  exists qs' hm',
    move_queue_entry_to_correct_input_hash qs hm evictee new = Ok (qs', hm')
    /\ hash_index_ok qs' hm'
    /\ stack_entry qs' = stack_entry qs
    /\ forall i e, queue_buf qs !! i = Some e ->
         exists e', queue_buf qs' !! i = Some e'
           /\ input_hash e'
              = (if decide (i = evictee) then input_hash ne else input_hash e)
           /\ set_duplicates 0 (set_input_hash 0 e')
              = set_duplicates 0 (set_input_hash 0 e).
Proof. apply move_queue_entry_index. Qed.

(** ** swap_in_candidate *)


(** A write to an entry that leaves its hash and its [duplicates] alone
    leaves the index in agreement with the queue. *)
Lemma hash_index_ok_update (f : queue_entry -> queue_entry) (j : nat)
    (qs : qstore) (hm : gmap Z queue_input_hash) :
  (forall e, input_hash (f e) = input_hash e /\ duplicates (f e) = duplicates e) ->
  hash_index_ok qs hm -> hash_index_ok (update_queue f j qs) hm.
Proof.
  intros Hf [Hbuckets Hlisted]. split.
  - intros h b Hb. destruct (Hbuckets h b Hb) as (Hh & Hnd & Hmem).
    split; [done|]. split; [done|]. intros i Hi.
    destruct (Hmem i Hi) as (e & He & Hhe & Hde).
    rewrite lookup_update_queue, He.
    destruct (decide (i = j)); [|by exists e].
    exists (f e). destruct (Hf e) as [-> ->]. done.
  - intros i e'. rewrite lookup_update_queue.
    destruct (decide (i = j)) as [->|].
    + destruct (queue_buf qs !! j) as [e|] eqn:He; [|done].
      simpl. intros [= <-]. destruct (Hf e) as [-> _]. by apply Hlisted.
    + apply Hlisted.
Qed.


Lemma small_index_ok : hash_index_ok small_queue small_index.
Proof.
  split.
  - intros h b. unfold small_index. rewrite !lookup_insert.
    destruct (decide (5 = h)) as [<-|_]; [|destruct (decide (9 = h)) as [<-|_]].
    + intros [= <-]. split; [done|]. split; [apply NoDup_singleton|].
      intros i Hi. apply list_elem_of_singleton in Hi as ->.
      eexists. split; [reflexivity|]. done.
    + intros [= <-]. split; [done|]. split; [apply NoDup_singleton|].
      intros i Hi. apply list_elem_of_singleton in Hi as ->.
      eexists. split; [reflexivity|]. done.
    + by rewrite lookup_empty.
  - intros i e Hi. destruct i as [|[|i]]; simpl in Hi; [| |done];
      injection Hi as <-; eexists; (split; [reflexivity|]);
      apply list_elem_of_singleton; done.
Qed.

Lemma move_queue_entry_keeps_index_witness :
  exists qs' hm',
    move_queue_entry_to_correct_input_hash small_queue small_index 0 QStack
    = Ok (qs', hm')
    /\ hash_index_ok qs' hm'
    /\ stack_entry qs' = stack_entry small_queue
    /\ forall i e, queue_buf small_queue !! i = Some e ->
         exists e', queue_buf qs' !! i = Some e'
           /\ input_hash e'
              = (if decide (i = 0%nat)
                 then input_hash (indexed_entry [8; 8; 8] 9 [1; 129] 4 0)
                 else input_hash e)
           /\ set_duplicates 0 (set_input_hash 0 e')
              = set_duplicates 0 (set_input_hash 0 e).
Proof.
  apply (move_queue_entry_keeps_index small_queue small_index 0 QStack
           (indexed_entry [1; 2] 5 [3; 0] 3 0)
           (indexed_entry [8; 8; 8] 9 [1; 129] 4 0)).
  - exact small_index_ok.
  - reflexivity.
  - reflexivity.
  - simpl. lia.
Defined.


(** ** is_interesting *)

Lemma init_count_class16_entry (lo hi : Z) :
  is_byte lo -> is_byte hi ->
  rd init_count_class16 (Z.to_nat (lo + 256 * hi))
  = lookup8 count_class_lookup8 lo + 256 * lookup8 count_class_lookup8 hi.
Proof.
  intros Hlo Hhi. destruct init_count_class16_table as [_ Hrd].
  pose proof (count_class_lookup8_byte lo Hlo) as Clo.
  pose proof (count_class_lookup8_byte hi Hhi) as Chi.
  pose proof Hlo as Hlo'. unfold is_byte in Hlo', Hhi, Clo, Chi.
  rewrite Hrd by lia. rewrite Z2Nat.id by lia.
  unfold count_class_lookup16.
  destruct (word16_bytes lo hi Hlo) as [-> ->].
  rewrite lor_shiftl_add by (change (2 ^ 8) with 256; lia).
  change (2 ^ 8) with 256. lia.
Qed.

(** The bucket of the class of a pair of bytes is the bucket of the high
    byte plus 8 when that byte is not zero, and the bucket of the low byte
    otherwise; the class is 0 only for two zero bytes. *)
Lemma count_reps_pair (lo hi : Z) :
  is_byte lo -> is_byte hi ->
  let class := lookup8 count_class_lookup8 lo
               + 256 * lookup8 count_class_lookup8 hi in
  (class =? 0) = (lo =? 0) && (hi =? 0)
  /\ count_reps 16 class 0
     = (if negb (hi =? 0)
        then 8 + bucket_of_class (lookup8 count_class_lookup8 hi)
        else bucket_of_class (lookup8 count_class_lookup8 lo))
  /\ 0 <= bucket_of_class (lookup8 count_class_lookup8 lo) <= 7
  /\ 0 <= bucket_of_class (lookup8 count_class_lookup8 hi) <= 7.
Proof.
  intros Hlo Hhi.
  pose (Q := fun hi lo =>
    let clo := lookup8 count_class_lookup8 lo in
    let chi := lookup8 count_class_lookup8 hi in
    Z.eqb (if clo + 256 * chi =? 0 then 1 else 0)
          (if (lo =? 0) && (hi =? 0) then 1 else 0)
    && (count_reps 16 (clo + 256 * chi) 0
        =? (if negb (hi =? 0) then 8 + bucket_of_class chi
            else bucket_of_class clo))
    && (0 <=? bucket_of_class clo) && (bucket_of_class clo <=? 7)
    && (0 <=? bucket_of_class chi) && (bucket_of_class chi <=? 7)).
  pose proof (for_all_bytes (fun hi => forallb (Q hi) (seqZ 0 256))
                ltac:(vm_compute; reflexivity) hi Hhi) as H.
  pose proof (for_all_bytes (Q hi) H lo Hlo) as HQ. clear H.
  unfold Q in HQ. cbv zeta in *.
  rewrite !andb_true_iff in HQ.
  destruct HQ as (((((H1 & H2) & H3) & H4) & H5) & H6).
  split; [|split; [lia|lia]].
  destruct (_ + _ =? 0), ((lo =? 0) && (hi =? 0)); try done; lia.
Qed.

(** One half-word of [is_interesting]: nothing for two zero bytes, else one
    more hit for the cell the pair stands for. *)
Lemma is_interesting_step_cell (st : afl_state) (h : nat) :
  Forall is_byte (trace_bits st) ->
  16 * Z.of_nat h + 15 < 4294967296 ->
  is_interesting_step init_count_class16 st h
  = match hit_cell_of_pair h (rd (trace_bits st) (2 * h))
                           (rd (trace_bits st) (2 * h + 1)) with
    | None => Ok st
    | Some p =>
        do this_edge <- cell_at st p;
        Ok (update_cell (fun c => set_hit_count (hit_count c + 1) c) p st)
    end.
Proof.
  intros Hbytes Hh. unfold is_interesting_step, read_u16, hit_cell_of_pair.
  set (lo := rd (trace_bits st) (2 * h)).
  set (hi := rd (trace_bits st) (2 * h + 1)).
  assert (Hlo : is_byte lo) by apply rd_is_byte, Hbytes.
  assert (Hhi : is_byte hi) by apply rd_is_byte, Hbytes.
  rewrite init_count_class16_entry by done.
  destruct (count_reps_pair lo hi Hlo Hhi) as (Hz & Hreps & Blo & Bhi).
  cbv zeta in Hz, Hreps. rewrite Hz, Hreps.
  destruct (Z.eqb_spec hi 0) as [Hhi0|Hhi0]; simpl.
  - rewrite andb_true_r. destruct (Z.eqb_spec lo 0) as [Hlo0|Hlo0]; simpl; [done|].
    replace (Z.to_nat (wrap32 (16 * Z.of_nat h
               + bucket_of_class (lookup8 count_class_lookup8 lo))))
      with (8 * (2 * h)
            + Z.to_nat (bucket_of_class (lookup8 count_class_lookup8 lo)))%nat;
      [done|].
    unfold wrap32. rewrite Z.mod_small by lia. lia.
  - rewrite andb_false_r.
    replace (Z.to_nat (wrap32 (16 * Z.of_nat h
               + (8 + bucket_of_class (lookup8 count_class_lookup8 hi)))))
      with (8 * (2 * h + 1)
            + Z.to_nat (bucket_of_class (lookup8 count_class_lookup8 hi)))%nat;
      [done|].
    unfold wrap32. rewrite Z.mod_small by lia. lia.
Qed.

Lemma hit_cell_of_pair_range (h : nat) (lo hi : Z) (p : nat) :
  is_byte lo -> is_byte hi ->
  hit_cell_of_pair h lo hi = Some p -> (16 * h <= p < 16 * h + 16)%nat.
Proof.
  intros Hlo Hhi. destruct (count_reps_pair lo hi Hlo Hhi) as (_ & _ & Blo & Bhi).
  unfold hit_cell_of_pair.
  destruct (negb (hi =? 0)); [intros [= <-]; lia|].
  destruct (negb (lo =? 0)); [intros [= <-]; lia|done].
Qed.

Lemma set_edge_entries_same (st : afl_state) :
  set_edge_entries (edge_entries st) st = st.
Proof. by destruct st. Qed.

Lemma set_hit_count_same (c : edge_entry) (v : Z) :
  v = hit_count c -> set_hit_count v c = c.
Proof. intros ->. by destruct c. Qed.

(** [is_interesting] counts one hit per pair of trace bytes. With the table
    that [init_count_class16] fills, a state that has its cells (eight per
    byte of the map), a map of less than 2^28 bytes and a trace of bytes:
    the call returns 1; it changes nothing but [hit_count] fields; and
    [hit_count] goes up by one exactly in the cells that a pair of bytes
    stands for, which is the cell of the odd edge when its byte is not
    zero, so that the hit of an even edge is not counted when the edge
    after it is hit as well. Without cells ([edge_entry_count == 0]) the
    call returns 0 and changes nothing. *)
Theorem is_interesting_hits (st : afl_state) :
  0 <= map_size st < 2 ^ 28 ->
  Forall is_byte (trace_bits st) ->
  (8 * Z.to_nat (map_size st) <= length (edge_entries st))%nat ->
  if edge_entry_count st =? 0
  then is_interesting init_count_class16 st = Ok (st, 0)
  else
    exists cells,
      is_interesting init_count_class16 st = Ok (set_edge_entries cells st, 1)
      /\ length cells = length (edge_entries st)
      /\ forall pos c, edge_entries st !! pos = Some c ->
           cells !! pos
           = Some (set_hit_count
                     (hit_count c
                      + (if is_interesting_hit (map_size st) (trace_bits st) pos
                         then 1 else 0)) c).
Proof.
  intros Hms Hbytes Hcells. unfold is_interesting.
  destruct (edge_entry_count st =? 0); [done|].
  assert (Hw : wrap32 (Z.shiftr (map_size st) 3) = map_size st / 8).
  { rewrite Z.shiftr_div_pow2 by lia. change (2 ^ 3) with 8.
    unfold wrap32. apply Z.mod_small. Z.div_mod_to_equations. lia. }
  unfold is_interesting_hit. rewrite Hw.
  set (n := (4 * Z.to_nat (map_size st / 8))%nat).
  assert (Hn : (16 * n <= length (edge_entries st))%nat).
  { unfold n. assert (8 * (map_size st / 8) <= map_size st)
      by (Z.div_mod_to_equations; lia). lia. }
  assert (Hn32 : 16 * Z.of_nat n < 4294967296).
  { unfold n. assert (8 * (map_size st / 8) <= map_size st)
      by (Z.div_mod_to_equations; lia). lia. }
  clearbody n. clear Hw Hcells.
  assert (Hgen : forall m, (m <= n)%nat ->
    exists cells,
      foldM (is_interesting_step init_count_class16) (seq 0 m) st
      = Ok (set_edge_entries cells st)
      /\ length cells = length (edge_entries st)
      /\ forall pos c, edge_entries st !! pos = Some c ->
           cells !! pos
           = Some (set_hit_count
                     (hit_count c
                      + (if (pos / 16 <? m)%nat
                            && bool_decide
                                 (hit_cell_of_pair (pos / 16)
                                    (rd (trace_bits st) (2 * (pos / 16)))
                                    (rd (trace_bits st) (2 * (pos / 16) + 1))
                                  = Some pos)
                         then 1 else 0)) c)).
  { induction m as [|m IH]; intros Hm.
    - exists (edge_entries st). simpl. rewrite set_edge_entries_same.
      split; [done|]. split; [done|]. intros pos c Hc. rewrite Hc. f_equal.
      symmetry. apply set_hit_count_same. lia.
    - destruct IH as (cells & Hrun & Hlen & Hpt); [lia|].
      rewrite seq_S, foldM_app, Hrun. cbn [rbind foldM Nat.add].
      rewrite is_interesting_step_cell by (simpl; try done; lia).
      change (trace_bits (set_edge_entries cells st)) with (trace_bits st).
      destruct (hit_cell_of_pair m (rd (trace_bits st) (2 * m))
                                 (rd (trace_bits st) (2 * m + 1)))
        as [p|] eqn:Hsel.
      + apply hit_cell_of_pair_range in Hsel as Hp;
          [|apply rd_is_byte, Hbytes|apply rd_is_byte, Hbytes].
        assert (Hpm : (p / 16 = m)%nat).
        { symmetry. apply (Nat.div_unique p 16 m (p - 16 * m)); lia. }
        destruct (lookup_lt_is_Some_2 (edge_entries st) p) as [cp Hcp]; [lia|].
        unfold cell_at.
        change (edge_entries (set_edge_entries cells st)) with cells.
        rewrite (Hpt p cp Hcp). cbn [rbind].
        exists (alter (fun c => set_hit_count (hit_count c + 1) c) p cells).
        split; [done|]. split; [by rewrite length_alter|].
        intros pos c Hc. destruct (decide (pos = p)) as [->|Hne].
        * rewrite list_lookup_alter_eq, (Hpt p cp Hcp).
          rewrite Hc in Hcp. injection Hcp as ->.
          rewrite Hpm, Hsel.
          rewrite (proj2 (Nat.ltb_ge m m)) by lia.
          rewrite (proj2 (Nat.ltb_lt m (S m))) by lia.
          rewrite bool_decide_eq_true_2 by done.
          cbn [fmap option_fmap option_map andb].
          f_equal. unfold set_hit_count. cbn [hit_count]. f_equal. lia.
        * rewrite list_lookup_alter_ne by done. rewrite (Hpt pos c Hc).
          do 3 f_equal.
          destruct (decide (pos / 16 = m)%nat) as [Heq|Hneq].
          -- rewrite Heq, Hsel.
             rewrite (bool_decide_eq_false_2 (Some p = Some pos)) by congruence.
             by rewrite !andb_false_r.
          -- f_equal. destruct (Nat.ltb_spec (pos / 16) m),
               (Nat.ltb_spec (pos / 16) (S m)); try done; lia.
      + exists cells. split; [done|]. split; [done|].
        intros pos c Hc. rewrite (Hpt pos c Hc). do 3 f_equal.
        destruct (decide (pos / 16 = m)%nat) as [Heq|Hneq].
        -- rewrite Heq, Hsel.
           rewrite (bool_decide_eq_false_2 (None = Some pos)) by done.
           by rewrite !andb_false_r.
        -- f_equal. destruct (Nat.ltb_spec (pos / 16) m),
             (Nat.ltb_spec (pos / 16) (S m)); try done; lia. }
  destruct (Hgen n ltac:(lia)) as (cells & Hrun & Hlen & Hpt).
  rewrite Hrun. simpl. exists cells. done.
Qed.

Lemma is_interesting_hits_witness :
  if edge_entry_count small_state =? 0
  then is_interesting init_count_class16 small_state = Ok (small_state, 0)
  else
    exists cells,
      is_interesting init_count_class16 small_state
      = Ok (set_edge_entries cells small_state, 1)
      /\ length cells = length (edge_entries small_state)
      /\ forall pos c, edge_entries small_state !! pos = Some c ->
           cells !! pos
           = Some (set_hit_count
                     (hit_count c
                      + (if is_interesting_hit (map_size small_state)
                              (trace_bits small_state) pos
                         then 1 else 0)) c).
Proof.
  apply (is_interesting_hits small_state).
  - simpl. lia.
  - simpl. repeat constructor; unfold is_byte; lia.
  - simpl. lia.
Defined.

(** ** The greedy cover of set_NCDm_favored *)

Lemma store_cl_equiv_lookup_r (qs qs' : qstore) (i : nat) (e' : queue_entry) :
  store_cl_equiv qs qs' -> queue_buf qs' !! i = Some e' ->
  exists e, queue_buf qs !! i = Some e /\ cl_equiv e e'.
Proof.
  intros [Hq _] He'. destruct (Forall2_lookup_r _ _ _ _ _ Hq He') as (e & He & Hee).
  by exists e.
Qed.

Lemma store_cl_equiv_lookup_l (qs qs' : qstore) (i : nat) (e : queue_entry) :
  store_cl_equiv qs qs' -> queue_buf qs !! i = Some e ->
  exists e', queue_buf qs' !! i = Some e' /\ cl_equiv e e'.
Proof.
  intros [Hq _] He. destruct (Forall2_lookup_l _ _ _ _ _ Hq He) as (e' & He' & Hee).
  by exists e'.
Qed.

Lemma store_cl_equiv_traces (qs qs' : qstore) :
  store_cl_equiv qs qs' -> traces_of qs = traces_of qs'.
Proof.
  intros [Hq _]. unfold traces_of.
  induction Hq as [|e e' l l' Hee _ IH]; [done|].
  simpl. by rewrite IH, (cl_equiv_trace_mini _ _ Hee).
Qed.

Section CoverProofs.
Context {X : Compressor}.

(** What the scan of one round keeps: the store changes in
    [compressed_len] only, and the candidate, if any, is an entry whose
    trace adds coverage. *)
Lemma cover_scan_inv (map_size : Z) (sel : list nat) (cover : list Z)
    (qs0 : qstore) (idxs : list nat)
    (sc sc' : scratch) (qs qs' : qstore) (sh sh' : Z) (bn bn' : float)
    (bc bc' : option nat) (fc fc' : bool) :
  foldM (cover_scan_step map_size sel cover) idxs (sc, qs, sh, bn, bc, fc)
  = Ok (sc', qs', sh', bn', bc', fc') ->
  store_cl_equiv qs0 qs ->
  (forall b, bc = Some b ->
     exists e tm, queue_buf qs0 !! b = Some e /\ trace_mini e = Some tm
                  /\ trace_contains_new_coverage map_size tm cover = true) ->
  store_cl_equiv qs0 qs'
  /\ (forall b, bc' = Some b ->
        exists e tm, queue_buf qs0 !! b = Some e /\ trace_mini e = Some tm
                     /\ trace_contains_new_coverage map_size tm cover = true)
  /\ (forall i, i ∈ idxs -> exists e tm, queue_buf qs0 !! i = Some e
                                         /\ trace_mini e = Some tm).
Proof.
  revert sc qs sh bn bc fc.
  induction idxs as [|i idxs IH]; intros sc qs sh bn bc fc Hrun Heq Hbc.
  - simpl in Hrun. injection Hrun as <- <- <- <- <- <-.
    split; [done|]. split; [done|]. intros i Hi. by apply elem_of_nil in Hi.
  - cbn [foldM] in Hrun.
    destruct (cover_scan_step map_size sel cover (sc, qs, sh, bn, bc, fc) i)
      as [[[[[[sc1 qs1] sh1] bn1] bc1] fc1]| |] eqn:Hstep;
      cbn [rbind] in Hrun; try done.
    assert (Hstep' : store_cl_equiv qs0 qs1
              /\ (forall b, bc1 = Some b ->
                    exists e tm, queue_buf qs0 !! b = Some e
                      /\ trace_mini e = Some tm
                      /\ trace_contains_new_coverage map_size tm cover = true)
              /\ exists e tm, queue_buf qs0 !! i = Some e
                              /\ trace_mini e = Some tm).
    { unfold cover_scan_step, load in Hstep. simpl in Hstep.
      destruct (queue_buf qs !! i) as [q|] eqn:Hq; simpl in Hstep; [|done].
      destruct (trace_mini q) as [q_tm|] eqn:Htm; simpl in Hstep; [|done].
      destruct (store_cl_equiv_lookup_r _ _ _ _ Heq Hq) as (e0 & He0 & Hee).
      assert (Htm0 : trace_mini e0 = Some q_tm)
        by (by rewrite (cl_equiv_trace_mini _ _ Hee)).
      assert (Hi : exists e tm, queue_buf qs0 !! i = Some e
                                /\ trace_mini e = Some tm) by (by exists e0, q_tm).
      destruct (trace_contains_new_coverage map_size q_tm cover) eqn:Hcov;
        simpl in Hstep.
      2:{ injection Hstep as <- <- <- <- <- <-. done. }
      assert (Hme : forall b, Some i = Some b ->
                exists e tm, queue_buf qs0 !! b = Some e
                  /\ trace_mini e = Some tm
                  /\ trace_contains_new_coverage map_size tm cover = true).
      { intros b [= <-]. by exists e0, q_tm. }
      destruct (bool_decide (sel = [])).
      - destruct (compressed_len q <? sh);
          injection Hstep as <- <- <- <- <- <-; done.
      - destruct (calc_NCDm sc qs (map QBuf (sel ++ [i])))
          as [[[sc2 qs2] ncdm]| |] eqn:Hncd; simpl in Hstep; try done.
        apply calc_NCDm_frame in Hncd as [Hfr _].
        assert (store_cl_equiv qs0 qs2) by (by eapply store_cl_equiv_trans).
        destruct (f32_gt ncdm bn); injection Hstep as <- <- <- <- <- <-; done. }
    destruct Hstep' as (Heq1 & Hbc1 & Hi).
    destruct (IH _ _ _ _ _ _ Hrun Heq1 Hbc1) as (Heq' & Hbc' & Hall).
    split; [done|]. split; [done|].
    intros k Hk. apply elem_of_cons in Hk as [->|Hk]; [done|by apply Hall].
Qed.

(** A round that goes through selects an entry whose trace adds coverage,
    marks it and merges its trace into the cover. *)
Lemma cover_round_inv (map_size : Z) (sc sc' : scratch) (qs qs' : qstore)
    (sel sel' : list nat) (cover cover' : list Z) :
  cover_round map_size sc qs sel cover = Ok (sc', qs', sel', cover') ->
  exists best e tm qs1,
    queue_buf qs !! best = Some e /\ trace_mini e = Some tm
    /\ trace_contains_new_coverage map_size tm cover = true
    /\ store_cl_equiv qs qs1
    /\ qs' = update_queue (set_ncdm_favored true) best qs1
    /\ sel' = sel ++ [best]
    /\ cover' = or_trace map_size cover tm
    /\ Forall is_Some (traces_of qs).
Proof.
  unfold cover_round. intros Hrun.
  destruct (foldM (cover_scan_step map_size sel cover)
                  (seq 0 (length (queue_buf qs)))
                  (sc, qs, UINT32_MAX, f32_zero, None, false))
    as [[[[[[sc1 qs1] sh1] bn1] bc1] fc1]| |] eqn:Hscan; simpl in Hrun; try done.
  destruct (cover_scan_inv _ _ _ qs _ _ _ _ _ _ _ _ _ _ _ _ _ Hscan
              (store_cl_equiv_refl qs) ltac:(done)) as (Heq & Hbc & Hall).
  destruct fc1; simpl in Hrun; [|done].
  destruct bc1 as [best|]; simpl in Hrun; [|done].
  destruct (Hbc best eq_refl) as (e & tm & He & Htm & Hcov).
  destruct (store_cl_equiv_lookup_l _ _ _ _ Heq He) as (e1 & He1 & Hee).
  unfold load in Hrun. simpl in Hrun. rewrite He1 in Hrun. simpl in Hrun.
  rewrite <- (cl_equiv_trace_mini _ _ Hee), Htm in Hrun. simpl in Hrun.
  injection Hrun as <- <- <- <-.
  exists best, e, tm, qs1. repeat (split; [done|]).
  apply Forall_forall. intros otm Hin. unfold traces_of in Hin.
  apply list_elem_of_fmap in Hin as (e2 & -> & Hin).
  apply list_elem_of_lookup in Hin as (i & Hi).
  destruct (Hall i) as (e3 & tm3 & He3 & Htm3).
  { apply elem_of_seq. apply lookup_lt_Some in Hi. lia. }
  rewrite Hi in He3. injection He3 as <-. by rewrite Htm3.
Qed.

End CoverProofs.

(** ** The greedy cover: progress *)

Lemma or_trace_length (map_size : Z) (cover t : list Z) :
  length (or_trace map_size cover t) = length cover.
Proof.
  unfold or_trace. induction (word_span map_size) as [|m IH]; [done|].
  by rewrite fold_left_seq_S, length_insert.
Qed.

Lemma or_trace_words (map_size : Z) (cover t : list Z) (i : nat) :
  (word_span map_size <= length cover)%nat -> (i < word_span map_size)%nat ->
  rd (or_trace map_size cover t) i = Z.lor (rd cover i) (rd t i).
Proof.
  intros Hlen Hi. rewrite or_trace_rd by lia.
  destruct (Nat.ltb_spec i (word_span map_size)); [done|lia].
Qed.

(** Once merged, a trace adds nothing, and no trace adds to the merged
    cover what it did not add before. *)
Lemma coverage_after_merge (map_size : Z) (cover t : list Z) :
  (word_span map_size <= length cover)%nat ->
  trace_contains_new_coverage map_size t (or_trace map_size cover t) = false
  /\ forall u,
       trace_contains_new_coverage map_size u (or_trace map_size cover t) = true ->
       trace_contains_new_coverage map_size u cover = true.
Proof.
  intros Hlen. split.
  - apply trace_contains_new_coverage_false. intros i Hi.
    rewrite or_trace_words by done.
    rewrite Z.lor_assoc, (Z.lor_comm (rd t i)), <- Z.lor_assoc, Z.lor_diag. done.
  - intros u Hu.
    destruct (trace_contains_new_coverage map_size u cover) eqn:Hold; [done|].
    rewrite trace_contains_new_coverage_false in Hold.
    assert (trace_contains_new_coverage map_size u (or_trace map_size cover t)
            = false); [|congruence].
    apply trace_contains_new_coverage_false. intros i Hi.
    rewrite or_trace_words by done. by rewrite Z.lor_assoc, Hold.
Qed.

Lemma filter_length_le {A : Type} (p p' : A -> bool) (l : list A) :
  (forall y, p' y = true -> p y = true) ->
  (length (List.filter p' l) <= length (List.filter p l))%nat.
Proof.
  intros Hpp. induction l as [|y l IH]; simpl; [lia|].
  destruct (p' y) eqn:Hp'; [rewrite (Hpp y Hp'); simpl; lia|].
  destruct (p y); simpl; lia.
Qed.

Lemma filter_length_lt {A : Type} (p p' : A -> bool) (l : list A) (b : nat)
    (x : A) :
  (forall y, p' y = true -> p y = true) ->
  l !! b = Some x -> p x = true -> p' x = false ->
  (length (List.filter p' l) < length (List.filter p l))%nat.
Proof.
  intros Hpp. revert b. induction l as [|y l IH]; intros b Hb Hpx Hp'x; [done|].
  destruct b as [|b]; simpl in Hb.
  - injection Hb as ->. simpl. rewrite Hpx, Hp'x. simpl.
    pose proof (filter_length_le p p' l Hpp). lia.
  - specialize (IH b Hb Hpx Hp'x). simpl.
    destruct (p' y) eqn:Hp'; [rewrite (Hpp y Hp'); simpl; lia|].
    destruct (p y); simpl; lia.
Qed.

Lemma filter_all {A : Type} (l : list A) : List.filter (fun _ => true) l = l.
Proof. induction l as [|y l IH]; simpl; [done|]. by rewrite IH. Qed.

Lemma traces_of_update_queue (f : queue_entry -> queue_entry) (i : nat)
    (qs : qstore) :
  (forall e, trace_mini (f e) = trace_mini e) ->
  traces_of (update_queue f i qs) = traces_of qs.
Proof.
  intros Hf. unfold traces_of, update_queue. simpl. apply list_eq. intros k.
  rewrite !list_lookup_fmap. destruct (decide (k = i)) as [->|Hne].
  - rewrite list_lookup_alter_eq. destruct (queue_buf qs !! i); simpl; [|done].
    by rewrite Hf.
  - by rewrite list_lookup_alter_ne.
Qed.

Lemma word_span_le_trace (map_size : Z) :
  0 <= map_size < 4294967296 ->
  (word_span map_size <= Z.to_nat (Z.shiftr map_size 3))%nat.
Proof.
  intros Hms. unfold word_span, wrap32.
  rewrite !Z.shiftr_div_pow2 by lia. change (2 ^ 6) with 64. change (2 ^ 3) with 8.
  rewrite Z.mod_small by (Z.div_mod_to_equations; lia).
  assert (8 * (map_size / 64) <= map_size / 8) by (Z.div_mod_to_equations; lia).
  lia.
Qed.

Section CoverProgress.
Context {X : Compressor}.

(** Every round takes one trace off those that add coverage, so the loop
    ends within one round more than there are such traces. *)
Lemma cover_loop_total (fuel : nat) (map_size : Z) (all_discovered : list Z)
    (sc : scratch) (qs : qstore) (sel : list nat) (cover : list Z) :
  (word_span map_size <= length cover)%nat ->
  (cov_count map_size (traces_of qs) cover < fuel)%nat ->
  exists r, cover_loop fuel map_size all_discovered sc qs sel cover = Some r.
Proof.
  revert sc qs sel cover.
  induction fuel as [|fuel IH]; intros sc qs sel cover Hlen Hcount; [lia|].
  cbn [cover_loop].
  destruct (negb (compare_trace_minis map_size all_discovered cover));
    [by eexists|].
  destruct (cover_round map_size sc qs sel cover)
    as [[[[sc' qs'] sel'] cover']| |] eqn:Hround; [|by eexists|by eexists].
  apply cover_round_inv in Hround
    as (best & e & tm & qs1 & He & Htm & Hcov & Heq & -> & -> & -> & _).
  apply IH; [by rewrite or_trace_length|].
  rewrite traces_of_update_queue by done.
  rewrite <- (store_cl_equiv_traces _ _ Heq).
  destruct (coverage_after_merge map_size cover tm Hlen) as [Hself Hmono].
  assert (Hlt : (cov_count map_size (traces_of qs) (or_trace map_size cover tm)
                 < cov_count map_size (traces_of qs) cover)%nat).
  { unfold cov_count.
    apply (filter_length_lt _ _ _ best (Some tm)).
    - intros [u|]; simpl; [apply Hmono|done].
    - unfold traces_of. by rewrite list_lookup_fmap, He, <- Htm.
    - done.
    - done. }
  lia.
Qed.

End CoverProgress.

(** The [while] of [set_NCDm_favored] ends: for a map size that fits a
    [u32], one round more than there are queue entries is enough for the
    call to return, stop with its fatal error, or fault. *)
Theorem set_NCDm_favored_total `{Compressor} (st : afl_state) :
  0 <= map_size st < 4294967296 ->
  exists r, set_NCDm_favored st = Some r.
Proof.
  intros Hms. unfold set_NCDm_favored, set_NCDm_favored_fuel.
  set (qs := {| queue_buf := map (set_ncdm_favored false) (queue_buf (store st));
                stack_entry := stack_entry (store st) |}).
  destruct (cover_loop_total (S (length (queue_buf (store st)))) (map_size st)
              (all_discovered_of (map_size st) (virgin_bits st)) (statics st)
              qs [] (replicate (Z.to_nat (Z.shiftr (map_size st) 3)) 0))
    as [r Hr].
  - rewrite length_replicate. by apply word_span_le_trace.
  - unfold cov_count.
    pose proof (filter_length_le (fun _ => true)
                  (adds_coverage (map_size st)
                     (replicate (Z.to_nat (Z.shiftr (map_size st) 3)) 0))
                  (traces_of qs) ltac:(done)) as Hle.
    rewrite filter_all in Hle. unfold traces_of, qs in Hle. simpl in Hle.
    rewrite !length_map in Hle.
    unfold traces_of, qs. simpl. lia.
  - rewrite Hr. by eexists.
Qed.

(** ** The greedy cover: what it selects *)

Lemma fav_equiv_of_cl_equiv (e e' : queue_entry) : cl_equiv e e' -> fav_equiv e e'.
Proof. unfold cl_equiv, fav_equiv. by intros ->. Qed.

Lemma fav_equiv_trans (e1 e2 e3 : queue_entry) :
  fav_equiv e1 e2 -> fav_equiv e2 e3 -> fav_equiv e1 e3.
Proof. unfold fav_equiv. congruence. Qed.

Lemma fav_equiv_set (e : queue_entry) (v : bool) : fav_equiv e (set_ncdm_favored v e).
Proof. by destruct e. Qed.

Lemma store_fav_equiv_refl (qs : qstore) : store_fav_equiv qs qs.
Proof.
  split; [done|]. split; [|reflexivity]. intros s e He. by exists e.
Qed.

Lemma store_fav_equiv_trans (q1 q2 q3 : qstore) :
  store_fav_equiv q1 q2 -> store_fav_equiv q2 q3 -> store_fav_equiv q1 q3.
Proof.
  intros (L12 & H12 & S12) (L23 & H23 & S23). split; [congruence|]. split.
  - intros s e He. destruct (H12 s e He) as (e2 & He2 & Hee2).
    destruct (H23 s e2 He2) as (e3 & He3 & Hee3).
    exists e3. split; [done|]. by eapply fav_equiv_trans.
  - by eapply cl_equiv_trans.
Qed.

Lemma store_fav_equiv_of_cl_equiv (qs qs' : qstore) :
  store_cl_equiv qs qs' -> store_fav_equiv qs qs'.
Proof.
  intros Heq. split; [symmetry; by apply store_cl_equiv_length|]. split.
  - intros s e He. destruct (store_cl_equiv_lookup_l _ _ _ _ Heq He) as (e' & He' & Hee).
    exists e'. split; [done|]. by apply fav_equiv_of_cl_equiv.
  - by destruct Heq.
Qed.

Lemma store_fav_equiv_mark (qs : qstore) (best : nat) (v : bool) :
  store_fav_equiv qs (update_queue (set_ncdm_favored v) best qs).
Proof.
  split; [by unfold update_queue; simpl; rewrite length_alter|].
  split; [|reflexivity]. intros s e He. unfold update_queue. simpl.
  destruct (decide (s = best)) as [->|Hne].
  - rewrite list_lookup_alter_eq, He. simpl. eexists. split; [done|].
    apply fav_equiv_set.
  - rewrite list_lookup_alter_ne by done. exists e. split; [done|]. reflexivity.
Qed.

Lemma cover_of_favored_cl_equiv (map_size : Z) (qs qs' : qstore) (cover : list Z) :
  store_cl_equiv qs qs' ->
  cover_of_favored map_size qs cover -> cover_of_favored map_size qs' cover.
Proof.
  intros Heq Hcov i j Hi Hj. rewrite (Hcov i j Hi Hj). split.
  - intros (s & e & tm & He & Hf & Htm & Hbit).
    destruct (store_cl_equiv_lookup_l _ _ _ _ Heq He) as (e' & He' & Hee).
    exists s, e', tm. split; [done|].
    rewrite <- (cl_equiv_ncdm_favored _ _ Hee), <- (cl_equiv_trace_mini _ _ Hee).
    done.
  - intros (s & e' & tm & He' & Hf & Htm & Hbit).
    destruct (store_cl_equiv_lookup_r _ _ _ _ Heq He') as (e & He & Hee).
    exists s, e, tm. split; [done|].
    rewrite (cl_equiv_ncdm_favored _ _ Hee), (cl_equiv_trace_mini _ _ Hee).
    done.
Qed.

Lemma cover_of_favored_round (map_size : Z) (qs : qstore) (cover : list Z)
    (best : nat) (e : queue_entry) (tm : list Z) :
  (word_span map_size <= length cover)%nat ->
  cover_of_favored map_size qs cover ->
  queue_buf qs !! best = Some e -> trace_mini e = Some tm ->
  cover_of_favored map_size (update_queue (set_ncdm_favored true) best qs)
                   (or_trace map_size cover tm).
Proof.
  intros Hlen Hcov He Htm i j Hi Hj.
  unfold trace_bit at 1. rewrite or_trace_words, Z.lor_spec by done.
  fold (trace_bit cover i j). fold (trace_bit tm i j).
  rewrite orb_true_iff, (Hcov i j Hi Hj). unfold update_queue. simpl. split.
  - intros [(s & e0 & tm0 & He0 & Hf & Htm0 & Hbit)|Hbit].
    + destruct (decide (s = best)) as [->|Hne].
      * exists best, (set_ncdm_favored true e0), tm0.
        rewrite list_lookup_alter_eq, He0. done.
      * exists s, e0, tm0. by rewrite list_lookup_alter_ne.
    + exists best, (set_ncdm_favored true e), tm.
      rewrite list_lookup_alter_eq, He. done.
  - intros (s & e' & tm' & He' & Hf & Htm' & Hbit).
    destruct (decide (s = best)) as [->|Hne].
    + rewrite list_lookup_alter_eq, He in He'. simpl in He'.
      injection He' as <-. simpl in Htm'. rewrite Htm in Htm'.
      injection Htm' as <-. by right.
    + rewrite list_lookup_alter_ne in He' by done. left. by exists s, e', tm'.
Qed.

Section CoverResult.
Context {X : Compressor}.

Lemma cover_loop_inv (fuel : nat) (map_size : Z) (all_discovered : list Z)
    (sc sc' : scratch) (qs qs' : qstore) (sel sel' : list nat)
    (cover cover' : list Z) :
  cover_loop fuel map_size all_discovered sc qs sel cover
  = Some (Ok (sc', qs', sel', cover')) ->
  (word_span map_size <= length cover)%nat ->
  cover_of_favored map_size qs cover ->
  compare_trace_minis map_size all_discovered cover' = false
  /\ cover_of_favored map_size qs' cover'
  /\ store_fav_equiv qs qs'.
Proof.
  revert sc qs sel cover.
  induction fuel as [|fuel IH]; intros sc qs sel cover Hrun Hlen Hcov; [done|].
  cbn [cover_loop] in Hrun.
  destruct (compare_trace_minis map_size all_discovered cover) eqn:Hcmp;
    simpl in Hrun.
  2:{ injection Hrun as <- <- <- <-. split; [done|]. split; [done|].
      apply store_fav_equiv_refl. }
  destruct (cover_round map_size sc qs sel cover)
    as [[[[sc1 qs1] sel1] cover1]| |] eqn:Hround; try done.
  apply cover_round_inv in Hround
    as (best & e & tm & qs2 & He & Htm & _ & Heq & -> & -> & -> & _).
  destruct (store_cl_equiv_lookup_l _ _ _ _ Heq He) as (e2 & He2 & Hee).
  destruct (IH _ _ _ _ Hrun) as (Hcmp' & Hcov' & Hrel).
  - by rewrite or_trace_length.
  - apply (cover_of_favored_round _ _ _ _ e2); [done| |done|].
    + by apply (cover_of_favored_cl_equiv _ qs).
    + by rewrite <- (cl_equiv_trace_mini _ _ Hee).
  - split; [done|]. split; [done|].
    eapply store_fav_equiv_trans; [by apply store_fav_equiv_of_cl_equiv|].
    eapply store_fav_equiv_trans; [apply store_fav_equiv_mark|done].
Qed.

End CoverResult.

(** The bits of the discovered coverage: bit [j] of byte [i] is set exactly
    when byte [8i + j] of [virgin_bits] is not 255. *)
Lemma all_discovered_bit (map_size : Z) (virgin : list Z) (i : nat) (j : Z) :
  0 <= map_size < 4294967296 ->
  (i < word_span map_size)%nat -> 0 <= j < 8 ->
  trace_bit (all_discovered_of map_size virgin) i j
  = negb (rd virgin (Z.to_nat (8 * Z.of_nat i + j)) =? 255).
Proof.
  intros Hms Hi Hj. pose proof (word_span_le_trace map_size Hms) as Hws.
  assert (Hdiv : Z.shiftr map_size 3 = map_size / 8)
    by (rewrite Z.shiftr_div_pow2 by lia; done).
  unfold trace_bit, all_discovered_of, minimize_bits.
  rewrite minimize_bits_prefix_bits by (rewrite ?length_replicate; lia).
  rewrite rd_replicate, Z.bits_0. simpl.
  destruct (Z.ltb_spec j 8); [|lia].
  assert (Hin : 8 * Z.of_nat i + j < map_size).
  { rewrite Hdiv in Hws.
    assert (Z.of_nat i < map_size / 8) by lia.
    clear -H0 Hj Hms. Z.div_mod_to_equations. lia. }
  destruct (Z.ltb_spec (8 * Z.of_nat i + j) (Z.of_nat (Z.to_nat map_size)));
    [|lia].
  simpl. f_equal. unfold rd at 1.
  set (k := Z.to_nat (8 * Z.of_nat i + j)).
  rewrite (nth_indep _ 0 ((fun i => Z.lxor (rd virgin i) 255) 0%nat))
    by (rewrite length_map, length_seq; lia).
  rewrite (map_nth (fun i => Z.lxor (rd virgin i) 255)), seq_nth by lia.
  simpl. destruct (Z.eqb_spec (Z.lxor (rd virgin k) 255) 0) as [Hz|Hz],
    (Z.eqb_spec (rd virgin k) 255) as [Hv|Hv]; try done.
  - apply Z.lxor_eq in Hz. done.
  - rewrite Hv, Z.lxor_nilpotent in Hz. done.
Qed.

(** When [set_NCDm_favored] returns, the entries it has marked cover the
    discovered coverage: over the words walked, byte [8i + j] of
    [virgin_bits] is not 255 exactly when some entry with [ncdm_favored]
    set has bit [j] of byte [i] set in its trace. The call changes nothing
    but the scratch and, in the queue, [ncdm_favored] and
    [compressed_len]. *)
Theorem set_NCDm_favored_covers `{Compressor} (st st' : afl_state) :
  0 <= map_size st < 4294967296 ->
  set_NCDm_favored st = Some (Ok st') ->
  (forall i j, (i < word_span (map_size st))%nat -> 0 <= j < 8 ->
     (rd (virgin_bits st) (Z.to_nat (8 * Z.of_nat i + j)) <> 255
      <-> exists s e tm,
            queue_buf (store st') !! s = Some e /\ ncdm_favored e = true
            /\ trace_mini e = Some tm /\ trace_bit tm i j = true))
  /\ st' = set_statics (statics st') (set_store (store st') st)
  /\ store_fav_equiv (store st) (store st').
Proof.
  intros Hms Hrun. unfold set_NCDm_favored, set_NCDm_favored_fuel in Hrun.
  set (qs0 := {| queue_buf := map (set_ncdm_favored false) (queue_buf (store st));
                 stack_entry := stack_entry (store st) |}) in *.
  set (all := all_discovered_of (map_size st) (virgin_bits st)) in *.
  set (zero := replicate (Z.to_nat (Z.shiftr (map_size st) 3)) 0) in *.
  destruct (cover_loop _ (map_size st) all (statics st) qs0 [] zero)
    as [[[[[sc1 qs1] sel1] cover1]| |]|] eqn:Hloop; simpl in Hrun; try done.
  destruct (1024 <? _); [done|].
  destruct (calc_NCDm sc1 qs1 _) as [[[sc2 qs2] r]| |] eqn:Hncd;
    simpl in Hrun; try done.
  injection Hrun as <-.
  apply calc_NCDm_frame in Hncd as [Hfr _].
  assert (Hws : (word_span (map_size st) <= length zero)%nat)
    by (unfold zero; rewrite length_replicate; by apply word_span_le_trace).
  assert (Hzero : cover_of_favored (map_size st) qs0 zero).
  { intros i j Hi Hj. unfold trace_bit at 1, zero.
    rewrite rd_replicate, Z.bits_0. split; [done|].
    intros (s & e & tm & He & Hf & _). unfold qs0 in He. simpl in He.
    rewrite list_lookup_fmap in He.
    destruct (queue_buf (store st) !! s); simpl in He; [|done].
    injection He as <-. done. }
  destruct (cover_loop_inv _ _ _ _ _ _ _ _ _ _ _ Hloop Hws Hzero)
    as (Hcmp & Hcov & Hrel).
  apply (cover_of_favored_cl_equiv _ _ _ _ Hfr) in Hcov.
  split; [|split].
  - intros i j Hi Hj.
    rewrite <- (Hcov i j Hi ltac:(lia)).
    assert (Hsame : trace_bit cover1 i j = trace_bit all i j).
    { unfold compare_trace_minis in Hcmp. rewrite existsb_seq_false in Hcmp.
      specialize (Hcmp i Hi). apply negb_false_iff in Hcmp.
      unfold trace_bit. f_equal. lia. }
    rewrite Hsame. unfold all. rewrite all_discovered_bit by done.
    destruct (Z.eqb_spec (rd (virgin_bits st) (Z.to_nat (8 * Z.of_nat i + j))) 255);
      simpl; split; done.
  - by destruct st.
  - simpl.
    assert (H0 : store_fav_equiv (store st) qs0).
    { split; [by unfold qs0; simpl; rewrite length_map|]. split; [|reflexivity].
      intros s e He. unfold qs0. simpl. rewrite list_lookup_fmap, He. simpl.
      eexists. split; [done|]. apply fav_equiv_set. }
    eapply store_fav_equiv_trans; [exact H0|].
    eapply store_fav_equiv_trans; [exact Hrel|].
    by apply store_fav_equiv_of_cl_equiv.
Qed.

Lemma set_NCDm_favored_total_witness :
  exists r, @set_NCDm_favored stored_block cover_state = Some r.
Proof. apply (@set_NCDm_favored_total stored_block cover_state). simpl. lia. Defined.

Lemma set_NCDm_favored_covers_witness :
  match @set_NCDm_favored stored_block cover_state with
  | Some (Ok st') =>
      (forall i j, (i < word_span (map_size cover_state))%nat -> 0 <= j < 8 ->
         (rd (virgin_bits cover_state) (Z.to_nat (8 * Z.of_nat i + j)) <> 255
          <-> exists s e tm,
                queue_buf (store st') !! s = Some e /\ ncdm_favored e = true
                /\ trace_mini e = Some tm /\ trace_bit tm i j = true))
      /\ st' = set_statics (statics st') (set_store (store st') cover_state)
      /\ store_fav_equiv (store cover_state) (store st')
  | _ => False
  end.
Proof.
  destruct (@set_NCDm_favored stored_block cover_state) as [[st'| |]|] eqn:Hrun.
  - apply (@set_NCDm_favored_covers stored_block cover_state st');
      [simpl; lia|exact Hrun].
  - vm_compute in Hrun. discriminate.
  - vm_compute in Hrun. discriminate.
  - vm_compute in Hrun. discriminate.
Defined.

(** ** The order of [float] comparisons *)

Ltac cmp_cases :=
  repeat match goal with
         | H : context [Z.compare ?a ?b] |- _ =>
             destruct (Z.compare_spec a b); subst
         | |- context [Z.compare ?a ?b] =>
             destruct (Z.compare_spec a b); subst
         | H : context [Pos.compare ?a ?b] |- _ =>
             destruct (Pos.compare_spec a b); subst
         | |- context [Pos.compare ?a ?b] =>
             destruct (Pos.compare_spec a b); subst
         end.

(** [<] on [float] is transitive, a NaN included: a comparison that holds
    has no NaN on either side. *)
Lemma f32_lt_trans (x y z : float) :
  f32_lt x y = true -> f32_lt y z = true -> f32_lt x z = true.
Proof.
  unfold f32_lt, SFltb, SFcompare.
  destruct x as [sx|sx| |sx mx ex], y as [sy|sy| |sy my ey],
    z as [sz|sz| |sz mz ez];
    try destruct sx; try destruct sy; try destruct sz;
    try discriminate; try reflexivity;
    change (PosDef.Pos.compare_cont Eq) with Pos.compare;
    intros Hxy Hyz; cmp_cases; simpl in *;
    try discriminate; try reflexivity; try lia.
Qed.

Lemma f32_lt_asym (x y : float) : f32_lt x y = true -> f32_lt y x = false.
Proof.
  unfold f32_lt, SFltb, SFcompare.
  destruct x as [sx|sx| |sx mx ex], y as [sy|sy| |sy my ey];
    try destruct sx; try destruct sy;
    try discriminate; try reflexivity;
    change (PosDef.Pos.compare_cont Eq) with Pos.compare;
    intros Hxy; cmp_cases; simpl in *;
    try discriminate; try reflexivity; try lia.
Qed.

Lemma f32_lt_irrefl (x : float) : f32_lt x x = false.
Proof.
  destruct (f32_lt x x) eqn:H; [|done].
  pose proof (f32_lt_asym _ _ H). congruence.
Qed.

Lemma f32_lt_not_ge (x y : float) : f32_lt x y = true -> f32_le y x = false.
Proof.
  unfold f32_lt, f32_le, SFltb, SFleb, SFcompare.
  destruct x as [sx|sx| |sx mx ex], y as [sy|sy| |sy my ey];
    try destruct sx; try destruct sy;
    try discriminate; try reflexivity;
    change (PosDef.Pos.compare_cont Eq) with Pos.compare;
    intros Hxy; cmp_cases; simpl in *;
    try discriminate; try reflexivity; try lia.
Qed.

(** A value that beats the best so far is not beaten by what the best so
    far was not beaten by. *)
Lemma f32_gt_new_best (b b' x : float) :
  f32_gt b' b = true -> f32_gt x b = false -> f32_gt x b' = false.
Proof.
  unfold f32_gt. fold (f32_lt b b') (f32_lt b x) (f32_lt b' x).
  intros Hbb' Hx. destruct (f32_lt b' x) eqn:Hb'x; [|done].
  by rewrite (f32_lt_trans _ _ _ Hbb' Hb'x) in Hx.
Qed.

(** ** find_eviction_candidate *)

Lemma delete_as_take_drop {A : Type} (existing : list A) (new : A) (i : nat) :
  (i < length existing)%nat ->
  take i existing ++ drop (S i) existing ++ [new] = delete i (existing ++ [new]).
Proof.
  intros Hi. rewrite delete_take_drop.
  by rewrite take_app_le, drop_app_le by lia.
Qed.

Section Eviction.
Context {X : Compressor} {L : CompressorLaws X}.

(** The loop of [find_eviction_candidate] on entries that are ready: after
    [k] rounds the candidate is the first of the indices below [k] whose set
    has the largest score above the starting one, or -1 when none has a
    score above it. *)
Lemma eviction_loop (existing : list qptr) (new : qptr) (base : float)
    (sc : scratch) (qs : qstore) (k : nat) :
  scratch_ok sc ->
  Forall (ptr_ready sc qs) (existing ++ [new]) ->
  sum_len qs (existing ++ [new]) < 2 ^ 29 ->
  (k <= length existing)%nat ->
  let d := fun i => spec_NCDm (payloads qs (take i existing ++ drop (S i) existing
                                            ++ [new])) in
  exists sc' qs' r best,
    foldM (eviction_step existing new) (seq 0 k) (sc, qs, -1, base)
    = Ok (sc', qs', r, best)
    /\ scratch_ok sc'
    /\ store_cl_equiv qs qs'
    /\ Forall (ptr_ready sc' qs') (existing ++ [new])
    /\ ((r = -1 /\ best = base
         /\ forall i, (i < k)%nat -> f32_gt (d i) base = false)
        \/ (0 <= r < Z.of_nat k /\ best = d (Z.to_nat r)
            /\ f32_gt (d (Z.to_nat r)) base = true
            /\ forall i, (i < k)%nat -> f32_gt (d i) (d (Z.to_nat r)) = false)).
Proof.
  intros Hsc Hall Hsum Hk d. induction k as [|k IH].
  - exists sc, qs, (-1), base. split; [done|]. split; [done|].
    split; [apply store_cl_equiv_refl|]. split; [done|].
    left. split; [done|]. split; [done|]. intros i Hi. lia.
  - destruct IH as (sc1 & qs1 & r1 & best1 & Hrun & Hsc1 & Heq1 & Hall1 & Hch);
      [lia|].
    rewrite seq_S, foldM_app, Hrun. cbn [rbind foldM Nat.add].
    unfold eviction_step at 1.
    rewrite delete_as_take_drop by lia.
    assert (Hall1' : Forall (ptr_ready sc1 qs1) (delete k (existing ++ [new])))
      by (by apply Forall_delete).
    assert (Hsum1 : sum_len qs1 (delete k (existing ++ [new])) < 2 ^ 29).
    { pose proof (sum_len_delete sc1 qs1 _ k Hall1) as Hd.
      rewrite (sum_len_cl_equiv _ _ (existing ++ [new]) Heq1) in Hd. lia. }
    destruct (calc_NCDm_spec sc1 qs1 _ Hsc1 Hall1' Hsum1)
      as (sc2 & qs2 & Hcalc & _ & Hsc2 & Heq2 & Hready2).
    rewrite Hcalc. cbn [rbind].
    assert (Hd : spec_NCDm (payloads qs1 (delete k (existing ++ [new]))) = d k).
    { unfold d. rewrite delete_as_take_drop by lia.
      by rewrite (payloads_cl_equiv _ _ _ Heq1). }
    rewrite Hd.
    assert (Heq12 : store_cl_equiv qs qs2) by (by eapply store_cl_equiv_trans).
    assert (Hall2 : Forall (ptr_ready sc2 qs2) (existing ++ [new])).
    { eapply Forall_impl; [exact Hall1|]. intros q. apply Hready2. }
    destruct (f32_gt (d k) best1) eqn:Hgt.
    + exists sc2, qs2, (Z.of_nat k), (d k). split; [done|].
      split; [done|]. split; [done|]. split; [done|]. right.
      rewrite Nat2Z.id. split; [lia|]. split; [done|].
      destruct Hch as [(-> & -> & Hnone)|(Hr & -> & Hbase & Hmax)].
      * split; [done|]. intros i Hi. destruct (decide (i = k)) as [->|Hne].
        -- apply f32_lt_irrefl.
        -- apply (f32_gt_new_best base); [done|]. apply Hnone. lia.
      * split.
        -- unfold f32_gt in *. by apply (f32_lt_trans _ (d (Z.to_nat r1))).
        -- intros i Hi. destruct (decide (i = k)) as [->|Hne].
           ++ apply f32_lt_irrefl.
           ++ apply (f32_gt_new_best (d (Z.to_nat r1))); [done|]. apply Hmax. lia.
    + exists sc2, qs2, r1, best1. split; [done|].
      split; [done|]. split; [done|]. split; [done|].
      destruct Hch as [(-> & -> & Hnone)|(Hr & -> & Hbase & Hmax)].
      * left. split; [done|]. split; [done|]. intros i Hi.
        destruct (decide (i = k)) as [->|Hne]; [done|]. apply Hnone. lia.
      * right. split; [lia|]. split; [done|]. split; [done|]. intros i Hi.
        destruct (decide (i = k)) as [->|Hne]; [done|]. apply Hmax. lia.
Qed.

(** [find_eviction_candidate]. With more than 32 existing entries it stops
    with its fatal error. Otherwise, on entries that are ready for
    [calc_NCDm] and whose lengths sum to less than 2^29, it returns; the
    entries change at most in [compressed_len]; and with [d i] the score of
    the existing entries without the one at [i] plus the new entry, and the
    starting score the existing one (0 when [forced]): it returns -1 exactly
    when no [d i] is above the starting score, and otherwise an index whose
    [d] is above the starting score and is not exceeded by any [d i]. *)
Theorem find_eviction_candidate_choice (sc : scratch) (qs : qstore)
    (existing_entries_NCD : float) (existing : list qptr) (new : qptr)
    (forced : bool) :
  (32 < Z.of_nat (length existing) ->
   find_eviction_candidate sc qs existing_entries_NCD existing new forced
   = Fatal FatalTooManyEntries)
  /\ (Z.of_nat (length existing) <= 32 ->
      scratch_ok sc ->
      Forall (ptr_ready sc qs) (existing ++ [new]) ->
      sum_len qs (existing ++ [new]) < 2 ^ 29 ->
      let d := fun i => spec_NCDm (payloads qs (take i existing
                                                ++ drop (S i) existing ++ [new])) in
      let base := if forced then f32_zero else existing_entries_NCD in
      exists sc' qs' r,
        find_eviction_candidate sc qs existing_entries_NCD existing new forced
        = Ok (sc', qs', r)
        /\ scratch_ok sc'
        /\ store_cl_equiv qs qs'
        /\ ((r = -1
             /\ forall i, (i < length existing)%nat -> f32_gt (d i) base = false)
            \/ (0 <= r < Z.of_nat (length existing)
                /\ f32_gt (d (Z.to_nat r)) base = true
                /\ forall i, (i < length existing)%nat ->
                     f32_gt (d i) (d (Z.to_nat r)) = false))).
Proof.
  split.
  - intros Hn. unfold find_eviction_candidate.
    destruct (Z.ltb_spec 32 (Z.of_nat (length existing))); [done|lia].
  - intros Hn Hsc Hall Hsum d base. unfold find_eviction_candidate.
    destruct (Z.ltb_spec 32 (Z.of_nat (length existing))); [lia|].
    fold base.
    destruct (eviction_loop existing new base sc qs (length existing)
                Hsc Hall Hsum ltac:(lia))
      as (sc' & qs' & r & best & Hrun & Hsc' & Heq & _ & Hch).
    rewrite Hrun. cbn [rbind].
    exists sc', qs'.
    destruct Hch as [(-> & -> & Hnone)|(Hr & -> & Hbase & Hmax)].
    + exists (-1). split; [by destruct (negb forced && _)|].
      split; [done|]. split; [done|]. by left.
    + exists r. split.
      * destruct forced; [done|]. cbn [negb andb].
        pose proof (f32_lt_not_ge _ _ Hbase) as Hle.
        unfold d, base in Hle. cbv beta iota in Hle. by rewrite Hle.
      * split; [done|]. split; [done|]. by right.
Qed.

End Eviction.

Lemma find_eviction_candidate_choice_witness :
  let qs := {| queue_buf := [scored_entry [1; 2; 3] 4; scored_entry [7; 7] 3];
               stack_entry := scored_entry [9; 9; 9; 9] 5 |} in
  let existing := [QBuf 0; QBuf 1] in
  let d := fun i => @spec_NCDm stored_block
                      (payloads qs (take i existing ++ drop (S i) existing
                                    ++ [QStack])) in
  let base := if false then f32_zero else f32_one in
  exists sc' qs' r,
    @find_eviction_candidate stored_block scratch_init qs f32_one existing
      QStack false
    = Ok (sc', qs', r)
    /\ @scratch_ok stored_block sc'
    /\ store_cl_equiv qs qs'
    /\ ((r = -1
         /\ forall i, (i < length existing)%nat -> f32_gt (d i) base = false)
        \/ (0 <= r < Z.of_nat (length existing)
            /\ f32_gt (d (Z.to_nat r)) base = true
            /\ forall i, (i < length existing)%nat ->
                 f32_gt (d i) (d (Z.to_nat r)) = false)).
Proof.
  apply (proj2 (@find_eviction_candidate_choice stored_block stored_block_laws
                  scratch_init
                  {| queue_buf := [scored_entry [1; 2; 3] 4;
                                   scored_entry [7; 7] 3];
                     stack_entry := scored_entry [9; 9; 9; 9] 5 |}
                  f32_one [QBuf 0; QBuf 1] QStack false)).
  - simpl. lia.
  - vm_compute. intuition discriminate.
  - apply Forall_cons_2;
      [|apply Forall_cons_2; [|apply Forall_cons_2; [|apply Forall_nil_2]]];
      (eexists; split; [reflexivity|]);
      (eexists; split; [reflexivity|]); vm_compute;
      (split; [intuition discriminate
              |left; split; [reflexivity|discriminate]]).
  - vm_compute. reflexivity.
Defined.

(** ** DiversityMetric: the Levenshtein recurrences *)

Lemma LEVMIN_min (a b c : Z) : LEVMIN a b c = Z.min a (Z.min b c).
Proof.
  unfold LEVMIN.
  destruct (Z.ltb_spec a b), (Z.ltb_spec a c), (Z.ltb_spec b c); lia.
Qed.

(** One of the terms of a minimum is below the bound. *)
Ltac min_le :=
  match goal with
  | |- Z.min _ _ <= _ =>
      first [ apply Z.min_le_iff; left; min_le
            | apply Z.min_le_iff; right; min_le ]
  | |- _ => lia
  end.

Lemma levenshtein_nil_r (s : list Z) : levenshtein s [] = Z.of_nat (length s).
Proof. by destruct s. Qed.

Lemma levenshtein_cons (a b : Z) (s t : list Z) :
  levenshtein (a :: s) (b :: t)
  = LEVMIN (levenshtein s (b :: t) + 1) (levenshtein (a :: s) t + 1)
           (levenshtein s t + (if a =? b then 0 else 1)).
Proof. reflexivity. Qed.

Lemma levenshtein_range (s t : list Z) :
  0 <= levenshtein s t <= Z.of_nat (length s) + Z.of_nat (length t).
Proof.
  revert t. induction s as [|a s IHs]; intros t; [simpl; lia|].
  induction t as [|b t IHt]; [rewrite levenshtein_nil_r; simpl; lia|].
  rewrite levenshtein_cons, LEVMIN_min.
  pose proof (IHs (b :: t)). pose proof (IHs t). simpl length in *.
  destruct (a =? b); lia.
Qed.

(** The recurrence on the last bytes, which is the one the rows follow. *)
Lemma levenshtein_snoc (s t : list Z) (a b : Z) :
  levenshtein (s ++ [a]) (t ++ [b])
  = LEVMIN (levenshtein (s ++ [a]) t + 1) (levenshtein s (t ++ [b]) + 1)
           (levenshtein s t + (if a =? b then 0 else 1)).
Proof.
  revert t. induction s as [|x s IHs]; intros t.
  - induction t as [|y t IHt].
    + simpl. rewrite !LEVMIN_min. destruct (a =? b); lia.
    + change (([] ++ [a])) with [a] in *.
      change ((y :: t) ++ [b]) with (y :: (t ++ [b])).
      rewrite (levenshtein_cons a y [] (t ++ [b])), IHt.
      rewrite (levenshtein_cons a y [] t).
      change (levenshtein [] ?l) with (Z.of_nat (length l)).
      rewrite !LEVMIN_min. simpl length. rewrite !length_app. simpl length.
      destruct (a =? b), (a =? y); lia.
  - induction t as [|y t IHt].
    + change ((x :: s) ++ [a]) with (x :: (s ++ [a])).
      change ([] ++ [b]) with [b] in *.
      rewrite (levenshtein_cons x b (s ++ [a]) []).
      rewrite (levenshtein_cons x b s []).
      specialize (IHs []). change ([] ++ [b]) with [b] in IHs. rewrite IHs.
      rewrite !levenshtein_nil_r, !LEVMIN_min. simpl length.
      rewrite !length_app. simpl length.
      destruct (a =? b), (x =? b); lia.
    + change ((x :: s) ++ [a]) with (x :: (s ++ [a])).
      change ((y :: t) ++ [b]) with (y :: (t ++ [b])).
      rewrite (levenshtein_cons x y (s ++ [a]) (t ++ [b])).
      rewrite (levenshtein_cons x y (s ++ [a]) t).
      rewrite (levenshtein_cons x y s (t ++ [b])).
      rewrite (levenshtein_cons x y s t).
      change (x :: (s ++ [a])) with ((x :: s) ++ [a]).
      rewrite IHt.
      pose proof (IHs (y :: t)) as H1.
      change ((y :: t) ++ [b]) with (y :: (t ++ [b])) in H1. rewrite H1.
      rewrite (IHs t).
      change ((x :: s) ++ [a]) with (x :: (s ++ [a])).
      rewrite !LEVMIN_min, <- !Z.add_min_distr_r.
      destruct (a =? b), (x =? y);
        apply Z.le_antisymm; repeat apply Z.min_glb; min_le.
Qed.

(** ** DiversityMetric: the rows of calc_normalised_levenshtein_dist *)

Lemma take_snoc_rd (s : list Z) (i : nat) :
  (i < length s)%nat -> take (S i) s = take i s ++ [rd s i].
Proof. intros Hi. apply take_S_r. by apply lookup_rd. Qed.

Lemma levenshtein_take_range (s t : list Z) (i j : nat) :
  0 <= levenshtein (take i s) (take j t) <= Z.of_nat i + Z.of_nat j.
Proof.
  pose proof (levenshtein_range (take i s) (take j t)) as H.
  rewrite !length_take in H. lia.
Qed.

Section LevRows.
Variables (str_1 str_2 : list Z) (len_1 len_2 : nat).
Hypothesis Hlen_1 : (len_1 <= length str_1)%nat.
Hypothesis Hlen_2 : (len_2 <= length str_2)%nat.
Hypothesis Hmax : Z.of_nat len_1 < 2 ^ 31.
Hypothesis Hle : (len_2 <= len_1)%nat.

(** The inner loop fills the current row with the distances of the prefix
    of [str_1] of length [i + 1]. *)
Lemma lev_inner_loop (i : nat) (matrix1 matrix2 : list Z) (n : nat) :
  (S i < len_1)%nat -> (n < len_2)%nat ->
  length matrix2 = len_2 ->
  (forall x, (x < len_2)%nat ->
     rd matrix1 x = levenshtein (take i str_1) (take x str_2)) ->
  rd matrix2 0 = levenshtein (take (S i) str_1) (take 0 str_2) ->
  let row := fold_left (lev_inner_step str_1 str_2 i matrix1) (seq 0 n)
                       matrix2 in
  length row = len_2
  /\ forall x, (x <= n)%nat ->
       rd row x = levenshtein (take (S i) str_1) (take x str_2).
Proof.
  intros Hi Hn Hlen Hprev H0. cbv zeta. induction n as [|n IH].
  - split; [done|]. intros x Hx. by replace x with 0%nat by lia.
  - destruct IH as [IHlen IHrow]; [lia|].
    rewrite fold_left_seq_S.
    set (row := fold_left (lev_inner_step str_1 str_2 i matrix1) (seq 0 n)
                          matrix2) in *.
    unfold lev_inner_step. split; [by rewrite length_insert|].
    intros x Hx. destruct (decide (x = S n)) as [->|Hne].
    + rewrite rd_insert_eq by lia.
      rewrite (IHrow n) by lia. rewrite !Hprev by lia.
      pose proof (levenshtein_take_range str_1 str_2 (S i) n).
      pose proof (levenshtein_take_range str_1 str_2 i (S n)).
      pose proof (levenshtein_take_range str_1 str_2 i n).
      unfold wrap32.
      rewrite !Z.mod_small
        by (change 4294967296 with (2 * 2 ^ 31);
            destruct (rd str_1 i =? rd str_2 n); lia).
      rewrite (take_snoc_rd str_1 i), (take_snoc_rd str_2 n) by lia.
      rewrite levenshtein_snoc.
      by rewrite <- (take_snoc_rd str_1 i), <- (take_snoc_rd str_2 n) by lia.
    + rewrite rd_insert_ne by lia. apply IHrow. lia.
Qed.

(** After [k] rounds of the outer loop the previous row holds the distances
    of the prefix of [str_1] of length [k], and from the first round on the
    current row is the same. *)
Lemma lev_outer_loop (k : nat) :
  (1 <= len_2)%nat -> (k < len_1)%nat ->
  let rows :=
    fold_left (lev_outer_step str_1 str_2 len_2) (seq 0 k)
      (map Z.of_nat (seq 0 len_2),
       <[O := if rd str_1 0 =? rd str_2 0 then 0 else 1]> (replicate len_2 0)) in
  length (snd rows) = len_2
  /\ (forall x, (x < len_2)%nat ->
        rd (fst rows) x = levenshtein (take k str_1) (take x str_2))
  /\ ((1 <= k)%nat -> snd rows = fst rows).
Proof.
  intros H2 Hk. cbv zeta. induction k as [|k IH].
  - simpl. split; [by rewrite length_insert, length_replicate|].
    split; [|lia]. intros x Hx.
    unfold rd. rewrite (nth_indep _ 0 (Z.of_nat 0))
      by (rewrite length_map, length_seq; lia).
    rewrite map_nth, seq_nth by lia. rewrite length_take. lia.
  - destruct IH as (IHlen & IHprev & _); [lia|].
    rewrite fold_left_seq_S.
    set (rows := fold_left (lev_outer_step str_1 str_2 len_2) (seq 0 k) _) in *.
    unfold lev_outer_step.
    destruct (lev_inner_loop k (fst rows)
                (<[O := wrap32 (Z.of_nat k + 1)]> (snd rows)) (len_2 - 1))
      as [Hlen Hrow]; [lia|lia|by rewrite length_insert|done| |].
    { rewrite rd_insert_eq by lia. simpl take.
      rewrite levenshtein_nil_r, length_take.
      unfold wrap32. rewrite Z.mod_small by lia. lia. }
    cbv zeta in Hlen, Hrow. simpl fst. simpl snd.
    split; [done|]. split; [|done]. intros x Hx. apply Hrow. lia.
Qed.

End LevRows.

(** The edit distance that [calc_normalised_levenshtein_dist] reads off the
    last row, for a longer string of [len_1 < 2^31] bytes and a shorter one
    of [len_2 >= 1] bytes: the classical Levenshtein distance of the two
    strings without their last bytes. The rows have [len_2] cells, not
    [len_2 + 1], and the loops stop one short of each length; for two
    strings of one byte it is whether the bytes differ. *)
Lemma lev_edit_dist_value (str_1 str_2 : list Z) (len_1 len_2 : Z) :
  1 <= len_2 <= len_1 -> len_1 < 2 ^ 31 ->
  len_1 <= Z.of_nat (length str_1) -> len_2 <= Z.of_nat (length str_2) ->
  lev_edit_dist str_1 str_2 len_1 len_2
  = if len_1 =? 1 then (if rd str_1 0 =? rd str_2 0 then 0 else 1)
    else levenshtein (take (Z.to_nat (len_1 - 1)) str_1)
                     (take (Z.to_nat (len_2 - 1)) str_2).
Proof.
  intros Hlens Hmax H1 H2. unfold lev_edit_dist, lev_rows.
  destruct (lev_outer_loop str_1 str_2 (Z.to_nat len_1) (Z.to_nat len_2)
              ltac:(lia) ltac:(lia) ltac:(lia) ltac:(lia)
              (Z.to_nat len_1 - 1) ltac:(lia) ltac:(lia))
    as (Hlen & Hprev & Hsame).
  cbv zeta in Hlen, Hprev, Hsame.
  destruct (Z.eqb_spec len_1 1) as [->|Hne].
  - assert (len_2 = 1) as -> by lia. simpl. done.
  - rewrite Hsame by lia. rewrite Hprev by lia.
    by replace (Z.to_nat len_1 - 1)%nat with (Z.to_nat (len_1 - 1)) by lia.
Qed.

Lemma levenshtein_le_max (s t : list Z) :
  levenshtein s t <= Z.max (Z.of_nat (length s)) (Z.of_nat (length t)).
Proof.
  revert t. induction s as [|a s IHs]; intros t; [simpl; lia|].
  destruct t as [|b t]; [rewrite levenshtein_nil_r; lia|].
  rewrite levenshtein_cons, LEVMIN_min. pose proof (IHs t). simpl length.
  destruct (a =? b); lia.
Qed.

(** [calc_normalised_levenshtein_dist] on two entries that have their
    testcases, of 1 to 2^31 - 1 bytes and not byte-equal. With [long] the
    longer testcase (the second when the lengths are equal) and [short] the
    other, the distance it uses is the classical Levenshtein distance of
    [long] and [short] without their last bytes (1 when both have one
    byte), which is less than [|long|] when [long] has two bytes or more;
    it returns [(|long| - distance) / |long|] in [float] arithmetic, unless
    that is above 1 or below 0, which is its fatal error. *)
Theorem calc_normalised_levenshtein_dist_value (e1 e2 : queue_entry)
    (b1 b2 : list Z) :
  testcase_buf e1 = Some b1 -> testcase_buf e2 = Some b2 ->
  1 <= len e1 <= Z.of_nat (length b1) -> 1 <= len e2 <= Z.of_nat (length b2) ->
  len e1 < 2 ^ 31 -> len e2 < 2 ^ 31 ->
  payload e1 <> payload e2 ->
  let long := if len e2 <? len e1 then payload e1 else payload e2 in
  let short := if len e2 <? len e1 then payload e2 else payload e1 in
  let n := Z.of_nat (length long) in
  let edit_dist :=
    if n =? 1 then 1
    else levenshtein (take (length long - 1) long)
                     (take (length short - 1) short) in
  let norm_dist := f32_div (f32_of_Z (n - edit_dist)) (f32_of_Z n) in
  0 <= n - edit_dist /\ (n <> 1 -> 1 <= n - edit_dist)
  /\ calc_normalised_levenshtein_dist e1 (Some e2)
     = if f32_gt norm_dist f32_one || f32_lt norm_dist f32_zero
       then Fatal FatalNormDistOutOfRange
       else Ok norm_dist.
Proof.
  intros Hb1 Hb2 Hl1 Hl2 Hm1 Hm2 Hdiff.
  pose proof (payload_length e1 b1 Hb1 ltac:(lia)) as Hp1.
  pose proof (payload_length e2 b2 Hb2 ltac:(lia)) as Hp2.
  assert (Hpay1 : payload e1 = take (Z.to_nat (len e1)) b1)
    by (unfold payload, buf_prefix; by rewrite Hb1).
  assert (Hpay2 : payload e2 = take (Z.to_nat (len e2)) b2)
    by (unfold payload, buf_prefix; by rewrite Hb2).
  (* the general case, for the longer and the shorter entry *)
  assert (Hcore : forall (la lb : Z) (ba bb : list Z),
    1 <= lb <= la -> la < 2 ^ 31 ->
    la <= Z.of_nat (length ba) -> lb <= Z.of_nat (length bb) ->
    take (Z.to_nat la) ba <> take (Z.to_nat lb) bb ->
    let pa := take (Z.to_nat la) ba in
    let pb := take (Z.to_nat lb) bb in
    let ed := if Z.of_nat (length pa) =? 1 then 1
              else levenshtein (take (length pa - 1) pa)
                               (take (length pb - 1) pb) in
    lev_edit_dist ba bb la lb = ed
    /\ (0 <= la - ed /\ (la <> 1 -> 1 <= la - ed))
    /\ Z.of_nat (length pa) = la).
  { intros la lb ba bb Hlab Hla Hba Hbb Hne pa pb ed.
    assert (Hlpa : length pa = Z.to_nat la) by (unfold pa; rewrite length_take; lia).
    assert (Hlpb : length pb = Z.to_nat lb) by (unfold pb; rewrite length_take; lia).
    rewrite lev_edit_dist_value by lia.
    unfold ed. rewrite Hlpa, Hlpb, Z2Nat.id by lia.
    destruct (Z.eqb_spec la 1) as [->|Hla1].
    - assert (lb = 1) as -> by lia.
      split; [|simpl; lia]. destruct (Z.eqb_spec (rd ba 0) (rd bb 0)) as [Heq|]; [|done].
      exfalso. apply Hne.
      change (Z.to_nat 1) with 1%nat.
      rewrite (take_snoc_rd ba 0), (take_snoc_rd bb 0) by lia.
      by rewrite Heq.
    - unfold pa, pb. rewrite !take_take.
      replace ((Z.to_nat la - 1) `min` Z.to_nat la)%nat with (Z.to_nat (la - 1))
        by lia.
      replace ((Z.to_nat lb - 1) `min` Z.to_nat lb)%nat with (Z.to_nat (lb - 1))
        by lia.
      split; [done|]. split; [|lia].
      pose proof (levenshtein_le_max (take (Z.to_nat (la - 1)) ba)
                    (take (Z.to_nat (lb - 1)) bb)) as Hmax.
      rewrite !length_take in Hmax. lia. }
  cbv zeta in Hcore.
  intros long short n edit_dist norm_dist.
  unfold calc_normalised_levenshtein_dist.
  destruct (Z.eqb_spec (len e1) 0); [lia|].
  destruct (Z.eqb_spec (len e2) 0); [lia|]. simpl.
  rewrite Hb1, Hb2. simpl.
  assert (Hneq : (len e1 =? len e2)
                 && bool_decide (buf_prefix (len e1) b1 = buf_prefix (len e1) b2)
                 = false).
  { apply andb_false_iff. destruct (Z.eqb_spec (len e1) (len e2)) as [Heq|];
      [right|by left].
    apply bool_decide_eq_false_2. intros Hsame. apply Hdiff.
    rewrite Hpay1, Hpay2. unfold buf_prefix in Hsame. by rewrite <- Heq. }
  rewrite Hneq.
  subst long short n edit_dist norm_dist.
  destruct (Z.ltb_spec (len e2) (len e1)) as [Hlt|Hge].
  - destruct (Hcore (len e1) (len e2) b1 b2) as (Hed & Hpos & Hn);
      [lia|lia|lia|lia|by rewrite <- Hpay1, <- Hpay2|].
    rewrite <- ?Hpay1, <- ?Hpay2 in Hed. rewrite <- ?Hpay1, <- ?Hpay2 in Hn.
    rewrite <- ?Hpay1, <- ?Hpay2 in Hpos.
    destruct (Z.eqb_spec (len e1) 0); [lia|].
    destruct (Z.eqb_spec (len e2) 0); [lia|]. simpl.
    rewrite Hed, Hn. rewrite Hn in Hpos. split; [tauto|]. split; [tauto|].
    unfold wrap64. rewrite Z.mod_small; [done|].
    pose proof (levenshtein_range
                  (take (length (payload e1) - 1) (payload e1))
                  (take (length (payload e2) - 1) (payload e2))).
    destruct (len e1 =? 1); lia.
  - destruct (Hcore (len e2) (len e1) b2 b1) as (Hed & Hpos & Hn);
      [lia|lia|lia|lia| |].
    { rewrite <- Hpay1, <- Hpay2. congruence. }
    rewrite <- ?Hpay1, <- ?Hpay2 in Hed. rewrite <- ?Hpay1, <- ?Hpay2 in Hn.
    rewrite <- ?Hpay1, <- ?Hpay2 in Hpos.
    destruct (Z.eqb_spec (len e2) 0); [lia|].
    destruct (Z.eqb_spec (len e1) 0); [lia|]. simpl.
    rewrite Hed, Hn. rewrite Hn in Hpos. split; [tauto|]. split; [tauto|].
    unfold wrap64. rewrite Z.mod_small; [done|].
    pose proof (levenshtein_range
                  (take (length (payload e2) - 1) (payload e2))
                  (take (length (payload e1) - 1) (payload e1))).
    destruct (len e2 =? 1); lia.
Qed.

Lemma calc_normalised_levenshtein_dist_value_witness :
  let e1 := entry_of_bytes [97; 98; 99] in
  let e2 := entry_of_bytes [97; 120] in
  let long := if len e2 <? len e1 then payload e1 else payload e2 in
  let short := if len e2 <? len e1 then payload e2 else payload e1 in
  let n := Z.of_nat (length long) in
  let edit_dist :=
    if n =? 1 then 1
    else levenshtein (take (length long - 1) long)
                     (take (length short - 1) short) in
  let norm_dist := f32_div (f32_of_Z (n - edit_dist)) (f32_of_Z n) in
  0 <= n - edit_dist /\ (n <> 1 -> 1 <= n - edit_dist)
  /\ calc_normalised_levenshtein_dist e1 (Some e2)
     = if f32_gt norm_dist f32_one || f32_lt norm_dist f32_zero
       then Fatal FatalNormDistOutOfRange
       else Ok norm_dist.
Proof.
  apply (calc_normalised_levenshtein_dist_value
           (entry_of_bytes [97; 98; 99]) (entry_of_bytes [97; 120])
           [97; 98; 99] [97; 120]).
  - reflexivity.
  - reflexivity.
  - simpl. lia.
  - simpl. lia.
  - simpl. lia.
  - simpl. lia.
  - vm_compute. discriminate.
Defined.

(** ** EdgeIndex: what the insertion leaves alone *)










Section EdgeIndexHits.
Context {X : Compressor} {Y : Collaborators}.









End EdgeIndexHits.

Section EdgeIndexCount.
Context {X : Compressor} {Y : Collaborators}.




End EdgeIndexCount.


(** ** InputHashIndex along the insertion *)

Lemma hash_index_ok_view (qs : qstore) (hm : gmap Z queue_input_hash) :
  hash_index_ok qs hm <-> hash_index_view (index_view qs) hm.
Proof.
  unfold hash_index_ok, hash_index_view, index_view. split.
  - intros [Hb Hl]. split.
    + intros h b Hh. destruct (Hb h b Hh) as (H1 & H2 & H3).
      split; [done|]. split; [done|]. intros i Hi.
      destruct (H3 i Hi) as (e & He & Hhe & Hde).
      rewrite list_lookup_fmap, He. unfold entry_key. simpl. congruence.
    + intros i h d. rewrite list_lookup_fmap.
      destruct (queue_buf qs !! i) as [e|] eqn:He; [|done].
      intros [= <- <-]. by apply (Hl i e).
  - intros [Hb Hl]. split.
    + intros h b Hh. destruct (Hb h b Hh) as (H1 & H2 & H3).
      split; [done|]. split; [done|]. intros i Hi.
      specialize (H3 i Hi). rewrite list_lookup_fmap in H3.
      destruct (queue_buf qs !! i) as [e|]; [|done].
      injection H3 as H3 H4. by exists e.
    + intros i e He. apply (Hl i (input_hash e) (duplicates e)).
      by rewrite list_lookup_fmap, He.
Qed.

Lemma index_view_update (f : queue_entry -> queue_entry) (j : nat)
    (qs : qstore) :
  (forall e, queue_buf qs !! j = Some e -> entry_key (f e) = entry_key e) ->
  index_view (update_queue f j qs) = index_view qs.
Proof.
  intros Hf. unfold index_view. apply list_eq. intros i.
  rewrite !list_lookup_fmap, lookup_update_queue.
  destruct (decide (i = j)) as [->|]; [|done].
  destruct (queue_buf qs !! j) as [e|] eqn:He; [|done].
  simpl. by rewrite Hf.
Qed.

Lemma index_view_cl_equiv (qs qs' : qstore) :
  store_cl_equiv qs qs' ->
  index_view qs' = index_view qs
  /\ input_hash (stack_entry qs') = input_hash (stack_entry qs).
Proof.
  intros [Hq Hs]. split; [|symmetry; by apply cl_equiv_input_hash].
  unfold index_view. apply list_eq. intros i. rewrite !list_lookup_fmap.
  destruct (queue_buf qs !! i) as [e|] eqn:He.
  - destruct (Forall2_lookup_l _ _ _ _ _ Hq He) as (e' & -> & Hee).
    simpl. unfold entry_key.
    by rewrite (cl_equiv_input_hash _ _ Hee), (cl_equiv_duplicates _ _ Hee).
  - apply lookup_ge_None in He. rewrite (Forall2_length _ _ _ Hq) in He.
    apply lookup_ge_None in He. by rewrite He.
Qed.

Lemma index_view_length (qs : qstore) :
  length (index_view qs) = length (queue_buf qs).
Proof. apply length_map. Qed.

Lemma index_view_set_all_duplicates (d : Z) (m : list nat) (qs : qstore)
    (i : nat) :
  index_view (set_all_duplicates d m qs) !! i
  = if decide (i ∈ m) then (fun k => (k.1, d)) <$> index_view qs !! i
    else index_view qs !! i.
Proof.
  unfold index_view. rewrite !list_lookup_fmap, lookup_set_all_duplicates.
  destruct (decide (i ∈ m)); [|done].
  by destruct (queue_buf qs !! i).
Qed.

Lemma length_set_all_duplicates (d : Z) (m : list nat) (qs : qstore) :
  length (queue_buf (set_all_duplicates d m qs)) = length (queue_buf qs).
Proof.
  revert qs. induction m as [|x m IH]; intros qs; [done|].
  rewrite set_all_duplicates_cons, IH. apply length_alter.
Qed.

(** Filing a new last entry of the queue, of hash [h] and without
    duplicates, under a hash that has no bucket yet. *)
Lemma hash_index_view_new_bucket (v : list (Z * Z))
    (hm : gmap Z queue_input_hash) (h a : Z) :
  hash_index_view v hm -> hm !! h = None ->
  hash_index_view (v ++ [(h, 0)])
    (<[h := {| hash := h; inputs := [length v]; allocated_inputs := a |}]> hm).
Proof.
  intros [Hb Hl] Hnone. split.
  - intros h' b'. rewrite lookup_insert.
    destruct (decide (h = h')) as [<-|Hne].
    + intros [= <-]. split; [done|]. split; [apply NoDup_singleton|].
      intros i Hi. apply list_elem_of_singleton in Hi as ->. simpl.
      rewrite lookup_app_r by done. by rewrite Nat.sub_diag.
    + intros Hh. destruct (Hb h' b' Hh) as (H1 & H2 & H3).
      split; [done|]. split; [done|]. intros i Hi.
      by apply lookup_app_l_Some, H3.
  - intros i h' d Hi. apply lookup_app_Some in Hi as [Hi|[Hlen Hi]].
    + destruct (Hl i h' d Hi) as (b & Hh & Hin).
      exists b. split; [|done]. rewrite lookup_insert_ne; [done|].
      intros <-. congruence.
    + apply list_lookup_singleton_Some in Hi as [Hi [= <- <-]].
      eexists. rewrite lookup_insert_eq. split; [done|].
      apply list_elem_of_singleton. simpl. lia.
Qed.

(** Filing it in the bucket of its hash, with the new [duplicates] written
    to all the entries of the bucket. *)
Lemma hash_index_view_append (v v' : list (Z * Z))
    (hm : gmap Z queue_input_hash) (h : Z) (b : queue_input_hash) :
  hash_index_view v hm -> hm !! h = Some b ->
  (forall i,
     v' !! i
     = if decide (i ∈ inputs b ++ [length v])
       then (fun k => (k.1, inputs_count b)) <$> (v ++ [(h, 0)]) !! i
       else (v ++ [(h, 0)]) !! i) ->
  hash_index_view v' (<[h := bucket_append (length v) b]> hm).
Proof.
  intros [Hb Hl] Hh Hv'.
  destruct (Hb h b Hh) as (Hhash & Hnd & Hmem).
  assert (Hfresh : length v ∉ inputs b).
  { intros Hin. apply Hmem, lookup_lt_Some in Hin. lia. }
  split.
  - intros h' b'. rewrite lookup_insert.
    destruct (decide (h = h')) as [<-|Hne].
    + intros [= <-]. split; [done|]. split.
      { simpl. apply NoDup_app. split; [done|]. split; [|apply NoDup_singleton].
        intros x Hx Hx'. apply list_elem_of_singleton in Hx' as ->. done. }
      intros i Hi. simpl in Hi. rewrite Hv', decide_True by done.
      assert (inputs_count (bucket_append (length v) b) - 1 = inputs_count b)
        as ->.
      { unfold inputs_count, bucket_append. simpl. rewrite length_app. simpl. lia. }
      apply elem_of_app in Hi as [Hi|Hi].
      * rewrite (lookup_app_l_Some _ _ _ _ (Hmem i Hi)). done.
      * apply list_elem_of_singleton in Hi as ->.
        rewrite lookup_app_r by done. by rewrite Nat.sub_diag.
    + intros Hh'. destruct (Hb h' b' Hh') as (H1 & H2 & H3).
      split; [done|]. split; [done|]. intros i Hi.
      rewrite Hv', decide_False.
      * by apply lookup_app_l_Some, H3.
      * intros Hin. apply elem_of_app in Hin as [Hin|Hin].
        -- pose proof (H3 i Hi) as E1. pose proof (Hmem i Hin) as E2. congruence.
        -- apply list_elem_of_singleton in Hin as ->.
           apply H3, lookup_lt_Some in Hi. lia.
  - intros i h' d. rewrite Hv'.
    destruct (decide (i ∈ inputs b ++ [length v])) as [Hin|Hnin].
    + intros Hi. exists (bucket_append (length v) b).
      assert (h' = h) as ->.
      { apply elem_of_app in Hin as [Hin|Hin].
        - rewrite (lookup_app_l_Some _ _ _ _ (Hmem i Hin)) in Hi.
          by injection Hi as <- _.
        - apply list_elem_of_singleton in Hin as ->.
          rewrite lookup_app_r in Hi by done. rewrite Nat.sub_diag in Hi.
          by injection Hi as <- _. }
      by rewrite lookup_insert_eq.
    + intros Hi. apply lookup_app_Some in Hi as [Hi|[Hlen Hi]].
      * destruct (Hl i h' d Hi) as (b0 & Hh0 & Hin0).
        exists b0. split; [|done]. rewrite lookup_insert_ne; [done|].
        intros <-. apply Hnin, elem_of_app. left. congruence.
      * apply list_lookup_singleton_Some in Hi as [Hi _].
        exfalso. apply Hnin, elem_of_app. right.
        apply list_elem_of_singleton. lia.
Qed.

(** [ste_register] on the queue with the new entry as its last one. *)
Lemma ste_register_index (v : list (Z * Z)) (qs qs' : qstore)
    (hm hm' : gmap Z queue_input_hash) (h : Z) (loc loc' : ste_locals) :
  hash_index_view v hm ->
  found loc = found_ptr hm h ->
  index_view qs = v ++ [(h, 0)] ->
  ste_register (length v) h loc qs hm = Ok (qs', hm', loc') ->
  hash_index_view (index_view qs') hm'
  /\ found loc' = found_ptr hm' h
  /\ stack_entry qs' = stack_entry qs
  /\ length (queue_buf qs') = length (queue_buf qs).
Proof.
  intros Hok Hfound Hview. unfold ste_register. rewrite Hfound.
  unfold found_ptr, hashmap_get.
  destruct (hm !! h) as [b|] eqn:Hh.
  - rewrite Hh. cbn [deref rbind]. intros [= <- <- <-].
    split; [|split; [|split]].
    + apply (hash_index_view_append v _ hm h b Hok Hh). intros i.
      rewrite index_view_set_all_duplicates, Hview.
      assert ((if 1 <=? inputs_count (bucket_append (length v) b)
               then inputs_count (bucket_append (length v) b) - 1 else 0)
              = inputs_count b) as ->; [|done].
      unfold inputs_count, bucket_append. simpl. rewrite length_app. simpl.
      destruct (Z.leb_spec 1 (Z.of_nat (length (inputs b) + 1))); lia.
    + rewrite Hfound, lookup_insert_eq. unfold found_ptr, hashmap_get.
      by rewrite Hh.
    + apply stack_entry_set_all_duplicates.
    + apply length_set_all_duplicates.
  - intros [= <- <- <-]. split; [|split; [|done]].
    + rewrite Hview. by apply hash_index_view_new_bucket.
    + simpl. unfold hashmap_set. simpl. by rewrite lookup_insert_eq.
Qed.
(** ** The insertion and the index: what leaves it alone *)

Lemma same_index_refl (st : afl_state) : same_index st st.
Proof. done. Qed.

Lemma same_index_trans (s1 s2 s3 : afl_state) :
  same_index s1 s2 -> same_index s2 s3 -> same_index s1 s3.
Proof.
  unfold same_index. intros (A & B & C) (D & E & F).
  split; [|split]; congruence.
Qed.

Lemma same_index_store (qs : qstore) (st : afl_state) :
  index_view qs = index_view (store st) ->
  input_hash (stack_entry qs) = input_hash (stack_entry (store st)) ->
  same_index st (set_store qs st).
Proof. by intros H1 H2. Qed.

Lemma same_index_update (f : queue_entry -> queue_entry) (j : nat)
    (st : afl_state) :
  (forall e, entry_key (f e) = entry_key e) ->
  same_index st (set_store (update_queue f j (store st)) st).
Proof.
  intros Hf. apply same_index_store; [|done].
  apply index_view_update. intros e _. apply Hf.
Qed.

Lemma same_index_length (st st' : afl_state) :
  same_index st st' ->
  length (queue_buf (store st')) = length (queue_buf (store st)).
Proof. intros [H _]. by rewrite <- !index_view_length, H. Qed.

Lemma same_index_ok (st st' : afl_state) (loc loc' : ste_locals) :
  same_index st st' -> found loc' = found loc ->
  hash_index_ok (store st) (queue_input_hashmap st) /\ found_ok st loc ->
  hash_index_ok (store st') (queue_input_hashmap st') /\ found_ok st' loc'.
Proof.
  intros (Hv & Hs & Hm) Hf [Hok Hfound]. split.
  - apply hash_index_ok_view. rewrite Hv, Hm. by apply hash_index_ok_view.
  - unfold found_ok. by rewrite Hf, Hm, Hs.
Qed.

Lemma move_remove_length (evictee : nat) (count : Z) (l : list nat)
    (acc : qstore * list nat * bool) :
  length (queue_buf (fold_left (move_remove_step evictee count) l acc).1.1)
  = length (queue_buf acc.1.1).
Proof.
  revert acc. induction l as [|i l IH]; intros acc; [done|].
  simpl. rewrite IH. destruct acc as [[qs fi] r]. simpl. apply length_alter.
Qed.

Lemma move_queue_entry_length (qs qs' : qstore)
    (hm hm' : gmap Z queue_input_hash) (evictee : nat) (new : qptr) :
  move_queue_entry_to_correct_input_hash qs hm evictee new = Ok (qs', hm') ->
  length (queue_buf qs') = length (queue_buf qs).
Proof.
  unfold move_queue_entry_to_correct_input_hash.
  destruct (load qs (QBuf evictee)) as [ee| |]; cbn [rbind]; [|done|done].
  destruct (hashmap_get hm (input_hash ee)) as [b|]; cbn [deref rbind]; [|done].
  destruct (negb _); [done|].
  pose proof (move_remove_length evictee (inputs_count b)
                (seq 0 (length (inputs b))) (qs, inputs b, false)) as Hlen.
  destruct (fold_left _ _ _) as [[qs1 fi] removed]. simpl in Hlen.
  destruct removed; cbn [negb]; [|done].
  destruct (load qs1 new) as [ne| |]; cbn [rbind]; [|done|done].
  destruct (hashmap_get _ _).
  - intros [= <- _]. rewrite length_set_all_duplicates. simpl.
    by rewrite length_alter.
  - intros [= <- _]. simpl. by rewrite !length_alter.
Qed.

Lemma swap_in_candidate_length (map_size : Z) (qs qs' : qstore)
    (hm hm' : gmap Z queue_input_hash) (evictee : nat) (new : qptr) :
  swap_in_candidate map_size qs hm evictee new = Ok (qs', hm') ->
  length (queue_buf qs') = length (queue_buf qs).
Proof.
  unfold swap_in_candidate.
  destruct (move_queue_entry_to_correct_input_hash qs hm evictee new)
    as [[qs1 hm1]| |] eqn:Hmove; cbn [rbind]; [|done|done].
  apply move_queue_entry_length in Hmove.
  destruct (load qs1 new); cbn [rbind]; [|done|done].
  destruct (load qs1 (QBuf evictee)); cbn [rbind]; [|done|done].
  destruct (deref (testcase_buf _)); cbn [rbind]; [|done|done].
  destruct (deref (trace_mini _)); cbn [rbind]; [|done|done].
  destruct (deref (trace_mini _)); cbn [rbind]; [|done|done].
  intros [= <- _]. simpl. by rewrite length_alter.
Qed.

(** [swap_in_candidate] for the input on the stack keeps the index in
    agreement with the queue, and leaves the evictee with the hash of the
    input. *)
Lemma swap_in_candidate_index (map_size : Z) (qs qs' : qstore)
    (hm hm' : gmap Z queue_input_hash) (evictee : nat) :
  hash_index_ok qs hm ->
  Z.of_nat (length (queue_buf qs)) < 4294967296 ->
  swap_in_candidate map_size qs hm evictee QStack = Ok (qs', hm') ->
  hash_index_ok qs' hm'
  /\ input_hash (stack_entry qs') = input_hash (stack_entry qs)
  /\ exists e, queue_buf qs' !! evictee = Some e
               /\ input_hash e = input_hash (stack_entry qs).
Proof.
  intros Hok Hlen. unfold swap_in_candidate.
  destruct (queue_buf qs !! evictee) as [ee|] eqn:Hev.
  2:{ unfold move_queue_entry_to_correct_input_hash, load. simpl.
      by rewrite Hev. }
  destruct (move_queue_entry_index qs hm evictee QStack ee (stack_entry qs)
              Hok Hev eq_refl Hlen)
    as (qs1 & hm1 & -> & Hok1 & Hstack & Hent).
  cbn [rbind]. unfold load. cbn [get_entry deref rbind].
  destruct (Hent evictee ee Hev) as (e1 & He1 & Hh1 & _).
  rewrite decide_True in Hh1 by done.
  rewrite He1. cbn [deref rbind].
  destruct (deref (testcase_buf _)); cbn [rbind]; [|done|done].
  destruct (deref (trace_mini _)); cbn [rbind]; [|done|done].
  destruct (deref (trace_mini _)); cbn [rbind]; [|done|done].
  intros [= <- <-]. split; [|split].
  - by apply hash_index_ok_update.
  - simpl. by rewrite Hstack.
  - rewrite lookup_update_queue, decide_True, He1 by done.
    eexists. split; [done|]. done.
Qed.

Section EdgeIndexKeys.
Context {X : Compressor} {Y : Collaborators}.

Lemma ste_fill_trace_index (st st' : afl_state) :
  ste_fill_trace st = Ok st' -> same_index st st'.
Proof.
  unfold ste_fill_trace. destruct (trace_mini _); [by intros [= <-]|].
  unfold fill_trace_mini_and_compressed_len.
  destruct (deref (testcase_buf _)); cbn [rbind]; [|done|done].
  destruct (_ =? 0); cbn [rbind]; [done|].
  by intros [= <-].
Qed.

Lemma ste_rescore_index (pos : nat) (st st' : afl_state) :
  ste_rescore pos st = Ok st' -> same_index st st'.
Proof.
  unfold ste_rescore. destruct (cell_at st pos); cbn [rbind]; [|done|done].
  destruct (calc_NCDm _ _ _) as [[[sc qs] ncd]| |] eqn:Hncd; cbn [rbind];
    [|done|done].
  apply calc_NCDm_frame in Hncd as [Heq _].
  apply index_view_cl_equiv in Heq as [Hv Hs].
  by intros [= <-].
Qed.

Lemma ste_calibrate_index (q : nat) (st : afl_state) (loc : ste_locals) :
  same_index st (ste_calibrate q st loc).1
  /\ found (ste_calibrate q st loc).2 = found loc.
Proof.
  unfold ste_calibrate. destruct (calibration_complete loc).
  - split; [|done]. by apply same_index_update.
  - destruct (calibrate_case st q) as [c tr]. split; [|done].
    apply (same_index_update (set_calibration c) q st). done.
Qed.

Lemma refavor_step_index (evictee : nat) (st st' : afl_state) (i : nat) :
  refavor_step evictee st i = Ok st' -> same_index st st'.
Proof.
  unfold refavor_step. destruct (bool_decide _); [|by intros [= <-]].
  destruct (find_best_fav st i) as [[best|]| |]; cbn [rbind]; try done.
  - destruct (load _ _) as [best_e| |]; cbn [rbind]; [|done|done].
    destruct (load _ _) as [evictee_e| |]; cbn [rbind]; [|done|done].
    destruct (negb _); intros [= <-]; [|done].
    apply (same_index_update _ best
             (set_top_rated _ (set_top_rated _ st))). done.
  - intros [= <-]. by apply same_index_update.
Qed.

Lemma ste_refavor_index (evictee : nat) (st st' : afl_state) :
  ste_refavor evictee st = Ok st' -> same_index st st'.
Proof.
  unfold ste_refavor. destruct (load _ _) as [e| |]; cbn [rbind]; [|done|done].
  destruct (favored e); [|by intros [= <-]].
  apply (foldM_invariant _ (same_index st)).
  - intros s a s' _ Hs Hstep. apply refavor_step_index in Hstep.
    by eapply same_index_trans.
  - by apply same_index_update.
Qed.

Lemma find_eviction_candidate_frame (sc sc' : scratch) (qs qs' : qstore)
    (ncd : float) (existing : list qptr) (new : qptr) (forced : bool) (r : Z) :
  find_eviction_candidate sc qs ncd existing new forced = Ok (sc', qs', r) ->
  store_cl_equiv qs qs'.
Proof.
  unfold find_eviction_candidate. destruct (_ <? _); [done|].
  destruct (foldM _ _ _) as [[[[sc1 qs1] r1] best]| |] eqn:Hloop; cbn [rbind];
    [|done|done].
  assert (Heq : store_cl_equiv qs qs1).
  { revert Hloop.
    apply (foldM_invariant _ (fun acc => store_cl_equiv qs acc.1.1.2));
      [|apply store_cl_equiv_refl].
    intros [[[s q] c] b] a [[[s' q'] c'] b'] _ Hacc. unfold eviction_step.
    destruct (calc_NCDm _ _ _) as [[[s2 q2] d]| |] eqn:Hncd; cbn [rbind];
      [|done|done].
    apply calc_NCDm_frame in Hncd as [Hq _].
    destruct (f32_gt _ _); intros [= <- <- <- <-]; simpl in *;
      by eapply store_cl_equiv_trans. }
  destruct (_ && _); by intros [= <- <- <-].
Qed.

End EdgeIndexKeys.
Section EdgeIndexInvariant.
Context {X : Compressor} {Y : Collaborators}.

Lemma ste_evict_index (pos : nat) (cand : Z) (st st' : afl_state)
    (loc loc' : ste_locals) :
  ste_evict pos cand st loc = Ok (st', loc') ->
  length (queue_buf (store st')) = length (queue_buf (store st))
  /\ (Z.of_nat (length (queue_buf (store st))) < 4294967296 ->
      hash_index_ok (store st) (queue_input_hashmap st) ->
      hash_index_ok (store st') (queue_input_hashmap st') /\ found_ok st' loc').
Proof.
  unfold ste_evict.
  destruct (ste_fill_trace st) as [st1| |] eqn:H1; cbn [rbind]; [|done|done].
  apply ste_fill_trace_index in H1.
  destruct (cell_at st1 pos) as [this_edge| |]; cbn [rbind]; [|done|done].
  destruct (deref _) as [evictee| |]; cbn [rbind]; [|done|done].
  destruct (swap_in_candidate _ _ _ _ _) as [[qs hm]| |] eqn:Hswap;
    cbn [rbind]; [|done|done].
  set (qs2 := update_queue (set_input_hash _) evictee
                (update_queue (set_exec_cksum 0) evictee qs)).
  set (st2 := update_cell _ pos (set_hashmap hm (set_store qs2 st1))).
  destruct (ste_rescore pos st2) as [st3| |] eqn:H3; cbn [rbind]; [|done|done].
  apply ste_rescore_index in H3.
  destruct (ste_refavor evictee st3) as [st4| |] eqn:H4; cbn [rbind];
    [|done|done].
  apply ste_refavor_index in H4.
  match goal with
  | |- context [ste_calibrate ?q ?s ?l] =>
      destruct (ste_calibrate_index q s l) as [H5 H6];
      destruct (ste_calibrate q s l) as [st5 loc5]
  end.
  cbn [fst snd] in H5, H6. intros [= <- <-].
  pose proof (same_index_trans _ _ _ H3 (same_index_trans _ _ _ H4 H5)) as H25.
  split.
  - rewrite (same_index_length _ _ H25). unfold st2, qs2. simpl.
    rewrite !length_alter.
    rewrite (swap_in_candidate_length _ _ _ _ _ _ _ Hswap).
    by apply same_index_length.
  - intros Hlen Hok.
    assert (Hok1 : hash_index_ok (store st1) (queue_input_hashmap st1)).
    { destruct H1 as (Hv & _ & Hm). apply hash_index_ok_view.
      rewrite Hv, Hm. by apply hash_index_ok_view. }
    rewrite <- (same_index_length _ _ H1) in Hlen.
    destruct (swap_in_candidate_index _ _ _ _ _ _ Hok1 Hlen Hswap)
      as (Hok2 & Hstack & e & He & Hhe).
    apply (same_index_ok st2 st5 (set_inserted loc5) (set_inserted loc5) H25
             eq_refl).
    assert (Hview : index_view qs2 = index_view qs).
    { unfold qs2. rewrite index_view_update.
      - by apply index_view_update.
      - intros e0. rewrite lookup_update_queue, decide_True, He by done.
        intros [= <-]. unfold entry_key. simpl. by rewrite Hhe, Hstack. }
    split.
    + apply hash_index_ok_view. unfold st2. simpl. rewrite Hview.
      by apply hash_index_ok_view.
    + unfold found_ok. simpl. by rewrite H6.
Qed.

Lemma ste_register_length (new : nat) (h : Z) (loc loc' : ste_locals)
    (qs qs' : qstore) (hm hm' : gmap Z queue_input_hash) :
  ste_register new h loc qs hm = Ok (qs', hm', loc') ->
  length (queue_buf qs') = length (queue_buf qs).
Proof.
  unfold ste_register. destruct (found loc); [|by intros [= <- _ _]].
  destruct (deref _); cbn [rbind]; [|done|done].
  intros [= <- _ _]. apply length_set_all_duplicates.
Qed.

Lemma ste_fill_index (pos : nat) (st st' : afl_state) (loc loc' : ste_locals) :
  ste_fill pos st loc = Ok (st', loc') ->
  (length (queue_buf (store st)) <= length (queue_buf (store st')))%nat
  /\ (hash_index_ok (store st) (queue_input_hashmap st) /\ found_ok st loc ->
      hash_index_ok (store st') (queue_input_hashmap st') /\ found_ok st' loc').
Proof.
  unfold ste_fill. destruct (cell_at st pos) as [this_edge| |]; cbn [rbind];
    [|done|done].
  set (st0 := if entry_count this_edge =? 0
              then bump_discovered
                     (update_cell (set_discovery_execs (total_execs st)) pos st)
              else st).
  assert (H0 : store st0 = store st
               /\ queue_input_hashmap st0 = queue_input_hashmap st).
  { unfold st0. by destruct (_ =? 0). }
  destruct H0 as [H0s H0m].
  destruct ((0 <? entry_count this_edge) && is_duplicate loc).
  { intros [= <- <-]. rewrite H0s. split; [done|].
    unfold found_ok. by rewrite H0s, H0m. }
  destruct (deref (testcase_buf (stack_entry (store st0)))) as [q_buf| |];
    cbn [rbind]; [|done|done].
  set (sta := set_store (add_to_queue _ _ _ _) st0).
  destruct (ste_fill_trace sta) as [st1| |] eqn:H1; cbn [rbind]; [|done|done].
  apply ste_fill_trace_index in H1.
  destruct (deref (trace_mini (stack_entry (store st1)))) as [q_tm| |];
    cbn [rbind]; [|done|done].
  set (h := input_hash (stack_entry (store st1))).
  set (qs1 := update_queue (init_new_entry _ h _) _ (store st1)).
  destruct (ste_register _ h loc qs1 _) as [[[qs2 hm2] loc2]| |] eqn:Hreg;
    cbn [rbind]; [|done|done].
  set (st2 := update_cell _ pos (set_hashmap hm2 (set_store _ st1))).
  destruct (ste_rescore pos st2) as [st3| |] eqn:H3; cbn [rbind]; [|done|done].
  apply ste_rescore_index in H3.
  intros Heq.
  match type of Heq with
  | Ok (ste_calibrate ?q ?s ?l) = _ =>
      destruct (ste_calibrate_index q s l) as [H5 H6]; injection Heq as Heq;
      rewrite Heq in H5, H6; cbn [fst snd] in H5, H6
  end.
  pose proof (same_index_trans _ _ _ H3 H5) as H25.
  (* what the new entry looks like when it is filed *)
  assert (Hh : h = input_hash (stack_entry (store st))).
  { unfold h. destruct H1 as (_ & -> & _). unfold sta. simpl. by rewrite H0s. }
  assert (Hlen1 : length (queue_buf (store st1))
                  = S (length (queue_buf (store st)))).
  { rewrite (same_index_length _ _ H1). unfold sta. simpl.
    rewrite length_app, H0s. simpl. lia. }
  assert (Hview1 : index_view qs1 = index_view (store st) ++ [(h, 0)]).
  { unfold qs1, index_view. apply list_eq. intros i.
    rewrite list_lookup_fmap, lookup_update_queue.
    destruct H1 as (Hv & _ & _). unfold index_view in Hv.
    pose proof (f_equal (fun l => l !! i) Hv) as Hvi. cbv beta in Hvi.
    unfold sta in Hvi. simpl in Hvi. rewrite H0s, map_app in Hvi. simpl in Hvi.
    rewrite !list_lookup_fmap in Hvi. rewrite H0s.
    destruct (decide (i = length (queue_buf (store st)))) as [->|Hne].
    - rewrite lookup_app_r in Hvi by (rewrite length_map; lia).
      rewrite length_map, Nat.sub_diag in Hvi.
      rewrite lookup_app_r by (rewrite length_map; lia).
      rewrite length_map, Nat.sub_diag.
      destruct (queue_buf (store st1) !! _) as [e|]; [|done].
      unfold entry_key in Hvi. simpl in Hvi. injection Hvi as Hk Hd.
      unfold entry_key. simpl. by rewrite Hd.
    - rewrite Hvi.
      destruct (lt_dec i (length (queue_buf (store st)))) as [Hlt|Hge].
      + by rewrite !lookup_app_l by (rewrite length_map; lia).
      + by rewrite !lookup_ge_None_2
          by (rewrite length_app, length_map; simpl; lia). }
  split.
  - rewrite (same_index_length _ _ H25). unfold st2. simpl.
    rewrite length_alter, (ste_register_length _ _ _ _ _ _ _ _ Hreg).
    unfold qs1. simpl. rewrite length_alter. lia.
  - intros [Hok Hfound].
    apply (same_index_ok st2 st' (set_inserted loc2) loc' H25 H6).
    assert (Hm1 : queue_input_hashmap st1 = queue_input_hashmap st).
    { destruct H1 as (_ & _ & ->). unfold sta. simpl. done. }
    rewrite <- index_view_length in Hreg. rewrite H0s in Hreg.
    rewrite index_view_length in Hreg.
    rewrite <- (index_view_length (store st)) in Hreg.
    destruct (ste_register_index (index_view (store st)) qs1 qs2
                (queue_input_hashmap st1) hm2 h loc loc2)
      as (Hok2 & Hf2 & Hs2 & Hl2); [| |done|done|].
    + rewrite Hm1. by apply hash_index_ok_view.
    + rewrite Hm1, Hh. exact Hfound.
    + split.
      * apply hash_index_ok_view. unfold st2. simpl.
        rewrite index_view_update; [done|]. done.
      * unfold found_ok, st2. simpl. rewrite Hf2. f_equal.
        rewrite Hs2. unfold qs1. done.
Qed.


Lemma ste_saturated_index (pos : nat) (st st' : afl_state)
    (loc loc' : ste_locals) :
  ste_saturated pos st loc = Ok (st', loc') ->
  length (queue_buf (store st')) = length (queue_buf (store st))
  /\ (Z.of_nat (length (queue_buf (store st))) < 4294967296 ->
      hash_index_ok (store st) (queue_input_hashmap st) /\ found_ok st loc ->
      hash_index_ok (store st') (queue_input_hashmap st') /\ found_ok st' loc').
Proof.
  unfold ste_saturated. destruct (is_duplicate loc); [by intros [= <- <-]|].
  destruct (cell_at st pos) as [this_edge| |]; cbn [rbind]; [|done|done].
  destruct (first_duplicate _ _) as [cand| |]; cbn [rbind]; [|done|done].
  destruct (cand =? -1).
  2:{ intros Hev. apply ste_evict_index in Hev as [Hlen Hinv].
      split; [done|]. intros Hb [Hok _]. by apply Hinv. }
  destruct (negb _); [by intros [= <- <-]|].
  destruct (ste_fill_trace st) as [st1| |] eqn:H1; cbn [rbind]; [|done|done].
  apply ste_fill_trace_index in H1.
  destruct (find_eviction_candidate _ _ _ _ _ _) as [[[sc qs] cand']| |]
    eqn:Hfind; cbn [rbind]; [|done|done].
  apply find_eviction_candidate_frame, index_view_cl_equiv in Hfind
    as [Hv Hs].
  assert (H2 : same_index st (set_statics sc (set_store qs st1))).
  { eapply same_index_trans; [exact H1|]. by apply same_index_store. }
  destruct (cand' =? -1).
  - intros [= <- <-]. split; [by apply same_index_length|].
    intros _. by apply same_index_ok.
  - intros Hev. apply ste_evict_index in Hev as [Hlen Hinv].
    rewrite (same_index_length _ _ H2) in Hlen, Hinv.
    split; [done|]. intros Hb Hok. apply (Hinv Hb).
    by apply (same_index_ok _ _ loc loc H2 eq_refl Hok).
Qed.

Lemma ste_cell_index (st st' : afl_state) (loc loc' : ste_locals) (edge : nat) :
  ste_cell (st, loc) edge = Ok (st', loc') ->
  (length (queue_buf (store st)) <= length (queue_buf (store st')))%nat
  /\ (Z.of_nat (length (queue_buf (store st))) < 4294967296 ->
      hash_index_ok (store st) (queue_input_hashmap st) /\ found_ok st loc ->
      hash_index_ok (store st') (queue_input_hashmap st') /\ found_ok st' loc').
Proof.
  unfold ste_cell. destruct (_ =? 0); [by intros [= <- <-]|].
  destruct (cell_at st _) as [this_edge| |]; cbn [rbind]; [|done|done].
  destruct (cell_has_hash _ _ _) as [matched| |]; cbn [rbind]; [|done|done].
  destruct matched; [by intros [= <- <-]|].
  destruct (_ <? _).
  - intros Hrun. apply ste_fill_index in Hrun as [Hlen Hinv]. by split.
  - intros Hrun. apply ste_saturated_index in Hrun as [Hlen Hinv].
    simpl in Hlen. split; [lia|]. exact Hinv.
Qed.

Lemma ste_cells_grow (edges : list nat) (st st' : afl_state)
    (loc loc' : ste_locals) :
  foldM ste_cell edges (st, loc) = Ok (st', loc') ->
  (length (queue_buf (store st)) <= length (queue_buf (store st')))%nat.
Proof.
  apply (foldM_invariant _
           (fun acc => (length (queue_buf (store st))
                        <= length (queue_buf (store acc.1)))%nat)); [|done].
  intros [s l] a [s' l'] _ Hs Hstep. apply ste_cell_index in Hstep as [Hle _].
  simpl in *. lia.
Qed.

Lemma ste_cells_index (edges : list nat) (st st' : afl_state)
    (loc loc' : ste_locals) :
  foldM ste_cell edges (st, loc) = Ok (st', loc') ->
  Z.of_nat (length (queue_buf (store st'))) < 4294967296 ->
  hash_index_ok (store st) (queue_input_hashmap st) /\ found_ok st loc ->
  hash_index_ok (store st') (queue_input_hashmap st') /\ found_ok st' loc'.
Proof.
  revert st loc. induction edges as [|a edges IH]; intros st loc Hrun Hlen Hinv.
  - by injection Hrun as <- <-.
  - cbn [foldM] in Hrun.
    destruct (ste_cell (st, loc) a) as [[s1 l1]| |] eqn:Hstep;
      cbn [rbind] in Hrun; [|done|done].
    pose proof (ste_cells_grow _ _ _ _ _ Hrun) as Hgrow.
    apply ste_cell_index in Hstep as [Hle Hstep].
    apply (IH s1 l1 Hrun Hlen). apply Hstep; [lia|done].
Qed.

(** [save_to_edge_entries] keeps the InputHashIndex in agreement with the
    queue. If the index agrees with the queue at the call — every bucket
    lists, once each, entries of the queue that carry its hash and whose
    [duplicates] is the number of the other entries of the bucket, and every
    entry of the queue is listed under its hash — then it does so when the
    call returns with a queue of less than 2^32 entries, whichever cells
    stored the input, swapped it in for an evicted entry or turned it
    down. The queue is never shorter than before. *)
Theorem save_to_edge_entries_keeps_index (st st' : afl_state) (new_bits : Z)
    (ins : bool) :
  hash_index_ok (store st) (queue_input_hashmap st) ->
  save_to_edge_entries st new_bits = Ok (st', ins) ->
  Z.of_nat (length (queue_buf (store st'))) < 4294967296 ->
  hash_index_ok (store st') (queue_input_hashmap st')
  /\ (length (queue_buf (store st)) <= length (queue_buf (store st')))%nat.
Proof.
  intros Hok. unfold save_to_edge_entries.
  destruct (edge_entry_count st =? 0); [by intros [= <- <-]|].
  destruct (if len _ =? 0 then _ else _) as [q_buf| |];
    cbn [rbind]; [|done|done].
  set (st1 := set_store _ st). set (loc1 := mk_ste_locals _ _ _ _ _).
  destruct (foldM ste_cell (ste_edges st1) (st1, loc1)) as [[st2 loc2]| |]
    eqn:Hrun; cbn [rbind]; [|done|done].
  intros [= <- <-] Hlen.
  pose proof (ste_cells_grow _ _ _ _ _ Hrun) as Hgrow.
  apply ste_cells_index in Hrun as [Hok2 _]; [by split|exact Hlen|].
  split; [exact Hok|]. reflexivity.
Qed.

End EdgeIndexInvariant.

Lemma save_to_edge_entries_keeps_index_witness :
  match @save_to_edge_entries stored_block idle_collaborators small_state 0 with
  | Ok (st', _) =>
      hash_index_ok (store st') (queue_input_hashmap st')
      /\ (length (queue_buf (store small_state))
          <= length (queue_buf (store st')))%nat
  | _ => False
  end.
Proof.
  destruct (@save_to_edge_entries stored_block idle_collaborators small_state 0)
    as [[st' ins]| |] eqn:Hrun; [|by vm_compute in Hrun..].
  apply (@save_to_edge_entries_keeps_index stored_block idle_collaborators
           small_state st' 0 ins small_index_ok Hrun).
  vm_compute in Hrun. injection Hrun as <- _. by vm_compute.
Defined.

(** ** The insertion when nothing is stored *)

Lemma queue_cl_equiv_refl (l : list queue_entry) : Forall2 cl_equiv l l.
Proof. apply Forall2_same_length_lookup_2; [done|]. intros i x y Hx Hy. congruence. Qed.

Lemma nothing_stored_refl (st : afl_state) : nothing_stored st st.
Proof. split; [exact (queue_cl_equiv_refl _)|done]. Qed.

Lemma nothing_stored_trans (s1 s2 s3 : afl_state) :
  nothing_stored s1 s2 -> nothing_stored s2 s3 -> nothing_stored s1 s3.
Proof.
  intros (A & B & C & D) (E & F & G & H). split; [|split; [|split]];
    [|congruence..].
  eapply Forall2_trans; [|exact A|exact E]. intros ? ? ?. apply cl_equiv_trans.
Qed.

Lemma nothing_stored_update_cell (f : edge_entry -> edge_entry) (pos : nat)
    (st : afl_state) :
  (forall c, entries (f c) = entries c) ->
  nothing_stored st (update_cell f pos st).
Proof.
  intros Hf. split; [exact (queue_cl_equiv_refl _)|].
  split; [done|]. split; [|done]. unfold update_cell. simpl.
  apply list_eq. intros k. rewrite !list_lookup_fmap.
  destruct (decide (k = pos)) as [->|Hne].
  - rewrite list_lookup_alter_eq. destruct (edge_entries st !! pos); simpl; [|done].
    by rewrite Hf.
  - by rewrite list_lookup_alter_ne.
Qed.

Lemma nothing_stored_cl_equiv (qs : qstore) (st : afl_state) :
  store_cl_equiv (store st) qs -> nothing_stored st (set_store qs st).
Proof. intros [H _]. by split. Qed.

Section EdgeIndexQuiet.
Context {X : Compressor} {Y : Collaborators}.

Lemma ste_fill_trace_quiet (st st' : afl_state) :
  ste_fill_trace st = Ok st' -> nothing_stored st st'.
Proof.
  unfold ste_fill_trace.
  destruct (trace_mini _); [intros [= <-]; apply nothing_stored_refl|].
  destruct (fill_trace_mini_and_compressed_len _ _ _ _) as [[sc q]| |];
    cbn [rbind]; [|done|done].
  intros [= <-]. split; [exact (queue_cl_equiv_refl _)|done].
Qed.

Lemma ste_calibrate_inserted (q : nat) (st : afl_state) (loc : ste_locals) :
  inserted (ste_calibrate q st loc).2 = inserted loc.
Proof.
  unfold ste_calibrate. destruct (calibration_complete loc); [done|].
  by destruct (calibrate_case st q).
Qed.

Lemma ste_evict_inserted (pos : nat) (cand : Z) (st st' : afl_state)
    (loc loc' : ste_locals) :
  ste_evict pos cand st loc = Ok (st', loc') -> inserted loc' = true.
Proof.
  unfold ste_evict.
  destruct (ste_fill_trace st); cbn [rbind]; [|done|done].
  destruct (cell_at _ pos); cbn [rbind]; [|done|done].
  destruct (deref _); cbn [rbind]; [|done|done].
  destruct (swap_in_candidate _ _ _ _ _) as [[qs hm]| |]; cbn [rbind];
    [|done|done].
  destruct (ste_rescore pos _); cbn [rbind]; [|done|done].
  destruct (ste_refavor _ _); cbn [rbind]; [|done|done].
  destruct (ste_calibrate _ _ _). by intros [= _ <-].
Qed.

Lemma ste_fill_quiet (pos : nat) (st st' : afl_state) (loc loc' : ste_locals) :
  ste_fill pos st loc = Ok (st', loc') ->
  (inserted loc = true -> inserted loc' = true)
  /\ (inserted loc' = false -> nothing_stored st st').
Proof.
  unfold ste_fill. destruct (cell_at st pos) as [this_edge| |]; cbn [rbind];
    [|done|done].
  destruct ((0 <? entry_count this_edge) && is_duplicate loc).
  { intros [= <- <-]. split; [done|]. intros _.
    destruct (_ =? 0); [|apply nothing_stored_refl].
    eapply nothing_stored_trans;
      [apply (nothing_stored_update_cell
                (set_discovery_execs (total_execs st)) pos st); done|].
    split; [exact (queue_cl_equiv_refl _)|done]. }
  destruct (deref (testcase_buf _)); cbn [rbind]; [|done|done].
  destruct (ste_fill_trace _); cbn [rbind]; [|done|done].
  destruct (deref (trace_mini _)); cbn [rbind]; [|done|done].
  destruct (ste_register _ _ _ _ _) as [[[qs hm] loc1]| |]; cbn [rbind];
    [|done|done].
  destruct (ste_rescore pos _); cbn [rbind]; [|done|done].
  intros Heq.
  match type of Heq with
  | Ok (ste_calibrate ?q ?s ?l) = _ =>
      pose proof (ste_calibrate_inserted q s l) as Hins; injection Heq as Heq;
      rewrite Heq in Hins; cbn [snd] in Hins
  end.
  simpl in Hins. split; [done|]. congruence.
Qed.

Lemma ste_saturated_quiet (pos : nat) (st st' : afl_state)
    (loc loc' : ste_locals) :
  ste_saturated pos st loc = Ok (st', loc') ->
  (inserted loc = true -> inserted loc' = true)
  /\ (inserted loc' = false -> nothing_stored st st').
Proof.
  unfold ste_saturated.
  destruct (is_duplicate loc).
  { intros [= <- <-]. split; [done|]. intros _. apply nothing_stored_refl. }
  destruct (cell_at st pos) as [this_edge| |]; cbn [rbind]; [|done|done].
  destruct (first_duplicate _ _) as [cand| |]; cbn [rbind]; [|done|done].
  destruct (cand =? -1).
  2:{ intros Hev. apply ste_evict_inserted in Hev. split; [done|]. congruence. }
  destruct (negb _).
  { intros [= <- <-]. split; [done|]. intros _. apply nothing_stored_refl. }
  destruct (ste_fill_trace st) as [st1| |] eqn:H1; cbn [rbind]; [|done|done].
  apply ste_fill_trace_quiet in H1.
  destruct (find_eviction_candidate _ _ _ _ _ _) as [[[sc qs] cand']| |]
    eqn:Hfind; cbn [rbind]; [|done|done].
  apply find_eviction_candidate_frame in Hfind.
  destruct (cand' =? -1).
  - intros [= <- <-]. split; [done|]. intros _.
    eapply nothing_stored_trans; [exact H1|].
    eapply nothing_stored_trans; [by apply nothing_stored_cl_equiv|].
    split; [exact (queue_cl_equiv_refl _)|done].
  - intros Hev. apply ste_evict_inserted in Hev. split; [done|]. congruence.
Qed.

Lemma ste_cell_quiet (st st' : afl_state) (loc loc' : ste_locals) (edge : nat) :
  ste_cell (st, loc) edge = Ok (st', loc') ->
  (inserted loc = true -> inserted loc' = true)
  /\ (inserted loc' = false -> nothing_stored st st').
Proof.
  unfold ste_cell.
  destruct (_ =? 0).
  { intros [= <- <-]. split; [done|]. intros _. apply nothing_stored_refl. }
  destruct (cell_at st _) as [this_edge| |]; cbn [rbind]; [|done|done].
  set (st1 := update_cell _ _ st).
  assert (H1 : nothing_stored st st1) by (by apply nothing_stored_update_cell).
  destruct (cell_has_hash _ _ _) as [matched| |]; cbn [rbind]; [|done|done].
  destruct matched; [by intros [= <- <-]|].
  destruct (_ <? _); intros Hrun.
  - apply ste_fill_quiet in Hrun as [Hmono Hq]. split; [done|].
    intros Hf. eapply nothing_stored_trans; [exact H1|]. by apply Hq.
  - apply ste_saturated_quiet in Hrun as [Hmono Hq]. split; [done|].
    intros Hf. eapply nothing_stored_trans; [exact H1|]. by apply Hq.
Qed.

Lemma ste_cells_quiet (edges : list nat) (st st' : afl_state)
    (loc loc' : ste_locals) :
  foldM ste_cell edges (st, loc) = Ok (st', loc') ->
  inserted loc' = false ->
  inserted loc = false /\ nothing_stored st st'.
Proof.
  revert st loc. induction edges as [|a edges IH]; intros st loc Hrun Hf.
  - injection Hrun as <- <-. split; [done|apply nothing_stored_refl].
  - cbn [foldM] in Hrun.
    destruct (ste_cell (st, loc) a) as [[s1 l1]| |] eqn:Hstep;
      cbn [rbind] in Hrun; [|done|done].
    destruct (IH s1 l1 Hrun Hf) as [Hf1 Hq1].
    apply ste_cell_quiet in Hstep as [Hmono Hq]. split.
    + destruct (inserted loc); [|done]. by rewrite Hmono in Hf1.
    + eapply nothing_stored_trans; [by apply Hq|exact Hq1].
Qed.

(** A call of [save_to_edge_entries] that returns 0 has stored nothing: the
    queue has the same number of entries, each as before up to its
    [compressed_len]; the InputHashIndex is the same map; every cell lists
    the same entries; and [top_rated] is as before. What such a call does
    change are hit counts, the discovery bookkeeping of cells, the scratch
    buffers and cached compressed lengths. *)
Theorem save_to_edge_entries_returns_0 (st st' : afl_state) (new_bits : Z) :
  save_to_edge_entries st new_bits = Ok (st', false) ->
  nothing_stored st st'.
Proof.
  unfold save_to_edge_entries.
  destruct (edge_entry_count st =? 0).
  { intros [= <-]. apply nothing_stored_refl. }
  destruct (if len _ =? 0 then _ else _) as [q_buf| |];
    cbn [rbind]; [|done|done].
  set (st1 := set_store _ st). set (loc1 := mk_ste_locals _ _ _ _ _).
  destruct (foldM ste_cell (ste_edges st1) (st1, loc1)) as [[st2 loc2]| |]
    eqn:Hrun; cbn [rbind]; [|done|done].
  intros [= <- Hf].
  apply ste_cells_quiet in Hrun as [_ Hq]; [|done].
  destruct Hq as (A & B & C & D). split; [exact A|]. by split.
Qed.

End EdgeIndexQuiet.

Lemma save_to_edge_entries_returns_0_witness :
  match @save_to_edge_entries stored_block idle_collaborators stored_state 0 with
  | Ok (st', false) => nothing_stored stored_state st'
  | _ => False
  end.
Proof.
  destruct (@save_to_edge_entries stored_block idle_collaborators stored_state 0)
    as [[st' [|]]| |] eqn:Hrun; [by vm_compute in Hrun| |by vm_compute in Hrun..].
  apply (@save_to_edge_entries_returns_0 stored_block idle_collaborators
           stored_state st' 0 Hrun).
Defined.

(** ** The scans of a cell *)

Section BestFav.
Context {Y : Collaborators}.
Variable st : afl_state.

Lemma best_fav_cell (l seen : list nat) (acc : Z * option nat) :
  Forall (fun c => is_Some (queue_buf (store st) !! c)) l ->
  best_fav_inv st seen acc ->
  exists acc', foldM (best_fav_step st) l acc = Ok acc'
               /\ best_fav_inv st (seen ++ l) acc'.
Proof.
  revert seen acc. induction l as [|c l IH]; intros seen acc Hlive Hinv.
  - exists acc. by rewrite app_nil_r.
  - apply Forall_cons in Hlive as [[e He] Hlive].
    cbn [foldM]. unfold best_fav_step at 1, load. cbn [get_entry].
    rewrite He. cbn [deref rbind].
    assert (Hscore : get_fav_factor st e = fav_score_of st c)
      by (unfold fav_score_of; by rewrite He).
    rewrite Hscore.
    set (acc1 := if fav_score_of st c <? acc.1 then (fav_score_of st c, Some c)
                 else acc).
    assert (Hinv1 : best_fav_inv st (seen ++ [c]) acc1).
    { unfold acc1, best_fav_inv in *.
      destruct (Z.ltb_spec (fav_score_of st c) acc.1) as [Hlt|Hge]; simpl.
      - split; [apply elem_of_app; right; by apply list_elem_of_singleton|].
        split; [done|].
        destruct acc.2 as [b|].
        + destruct Hinv as (Hb & Hacc & Hmax & Hleast). split; [lia|].
          intros c' Hc'. apply elem_of_app in Hc' as [Hc'|Hc'].
          * specialize (Hleast c' Hc'). lia.
          * apply list_elem_of_singleton in Hc' as ->. lia.
        + destruct Hinv as (Hacc & Hall). split; [lia|].
          intros c' Hc'. apply elem_of_app in Hc' as [Hc'|Hc'].
          * specialize (Hall c' Hc'). lia.
          * apply list_elem_of_singleton in Hc' as ->. lia.
      - destruct acc.2 as [b|].
        + destruct Hinv as (Hb & Hacc & Hmax & Hleast).
          split; [apply elem_of_app; by left|]. split; [done|]. split; [done|].
          intros c' Hc'. apply elem_of_app in Hc' as [Hc'|Hc'].
          * by apply Hleast.
          * apply list_elem_of_singleton in Hc' as ->. lia.
        + destruct Hinv as (Hacc & Hall). split; [done|].
          intros c' Hc'. apply elem_of_app in Hc' as [Hc'|Hc'].
          * by apply Hall.
          * apply list_elem_of_singleton in Hc' as ->. lia. }
    destruct (IH (seen ++ [c]) acc1 Hlive Hinv1) as (acc' & Hrun & Hinv').
    exists acc'. split; [done|]. by rewrite <- app_assoc in Hinv'.
Qed.

End BestFav.

(** The search of [save_to_edge_entries] for a replacement of an evicted
    favourite, over the eight cells of edge [i] when these exist and list
    live entries. It finds nothing exactly when no entry of the cells has a
    score below the largest [u64]; otherwise it finds an entry of the cells
    whose [get_fav_factor] is below the largest [u64] and is the least of all
    the entries of the cells. *)
Theorem find_best_fav_least `{Collaborators} (st : afl_state)
    (i : nat) :
  (forall reps, (reps < 8)%nat -> is_Some (edge_entries st !! (8 * i + reps)%nat)) ->
  Forall (fun c => is_Some (queue_buf (store st) !! c)) (edge_candidates st i) ->
  exists r,
    find_best_fav st i = Ok r
    /\ match r with
       | None =>
           forall c, c ∈ edge_candidates st i -> UINT64_MAX <= fav_score_of st c
       | Some b =>
           b ∈ edge_candidates st i /\ fav_score_of st b < UINT64_MAX
           /\ forall c, c ∈ edge_candidates st i ->
                fav_score_of st b <= fav_score_of st c
       end.
Proof.
  intros Hcells Hlive. unfold find_best_fav, edge_candidates in *.
  assert (Hloop : forall (n : nat), (n <= 8)%nat ->
    exists acc,
      foldM (fun acc (reps : nat) =>
               do edgeEntry <- cell_at st (8 * i + reps)%nat;
               foldM (best_fav_step st) (entries edgeEntry) acc)
            (seq 0 n) (UINT64_MAX, None) = Ok acc
      /\ best_fav_inv st
           (flat_map (fun reps => match edge_entries st !! (8 * i + reps)%nat with
                                  | Some c => entries c
                                  | None => []
                                  end) (seq 0 n)) acc).
  { induction n as [|n IH]; intros Hn.
    - eexists. split; [reflexivity|]. split; [done|].
      intros c Hc. by apply elem_of_nil in Hc.
    - destruct (IH ltac:(lia)) as (acc & Hrun & Hinv).
      rewrite seq_S, foldM_app, Hrun. cbn [rbind foldM Nat.add].
      unfold cell_at. destruct (Hcells n ltac:(lia)) as [cell Hcell].
      rewrite Hcell. cbn [rbind].
      rewrite flat_map_app. cbn [flat_map]. rewrite Hcell, app_nil_r.
      edestruct (best_fav_cell st (entries cell)) as (acc' & Hrun' & Hinv');
        [|exact Hinv|].
      + apply Forall_forall. intros c Hc.
        apply (proj1 (Forall_forall _ _) Hlive).
        apply list_elem_of_In, in_flat_map. exists n. split.
        * apply in_seq. lia.
        * rewrite Hcell. by apply list_elem_of_In.
      + exists acc'. rewrite Hrun'. by split. }
  destruct (Hloop 8%nat ltac:(lia)) as (acc & Hrun & Hinv).
  exists acc.2. rewrite Hrun. cbn [rbind]. split; [done|].
  unfold best_fav_inv in Hinv. destruct acc.2 as [b|].
  - destruct Hinv as (Hb & _ & Hmax & Hleast). by split.
  - by destruct Hinv.
Qed.

Lemma find_best_fav_least_witness :
  exists r,
    @find_best_fav idle_collaborators stored_state 1 = Ok r
    /\ match r with
       | None =>
           forall c, c ∈ edge_candidates stored_state 1 ->
             UINT64_MAX <= @fav_score_of idle_collaborators stored_state c
       | Some b =>
           b ∈ edge_candidates stored_state 1
           /\ @fav_score_of idle_collaborators stored_state b < UINT64_MAX
           /\ forall c, c ∈ edge_candidates stored_state 1 ->
                @fav_score_of idle_collaborators stored_state b
                <= @fav_score_of idle_collaborators stored_state c
       end.
Proof.
  apply (@find_best_fav_least idle_collaborators stored_state 1).
  - intros reps Hreps.
    destruct reps as [|[|[|[|[|[|[|[|?]]]]]]]]; [..|lia];
      vm_compute; eexists; reflexivity.
  - vm_compute. repeat econstructor.
Defined.

(** The scan of a cell for an entry to evict as a duplicate, on a cell of
    live entries: it gives -1 when no entry has [duplicates] set, and
    otherwise the position of the first entry that has. *)
Theorem first_duplicate_least (qs : qstore) (cell_entries : list nat) :
  Forall (fun c => is_Some (queue_buf qs !! c)) cell_entries ->
  exists r,
    first_duplicate qs cell_entries = Ok r
    /\ ((r = -1 /\ Forall (fun c => duplicates_of qs c = 0) cell_entries)
        \/ (0 <= r < Z.of_nat (length cell_entries)
            /\ duplicates_of qs (nth (Z.to_nat r) cell_entries O) <> 0
            /\ Forall (fun c => duplicates_of qs c = 0)
                      (take (Z.to_nat r) cell_entries))).
Proof.
  intros Hlive. unfold first_duplicate.
  assert (Hloop : forall (n : nat), (n <= length cell_entries)%nat ->
    exists r,
      foldM (fun (candidate : Z) (i : nat) =>
               if negb (candidate =? -1) then Ok candidate
               else
                 do e <- load qs (QBuf (nth i cell_entries O));
                 Ok (if negb (duplicates e =? 0) then Z.of_nat i else -1))
            (seq 0 n) (-1) = Ok r
      /\ ((r = -1
           /\ Forall (fun c => duplicates_of qs c = 0) (take n cell_entries))
          \/ (0 <= r < Z.of_nat n
              /\ duplicates_of qs (nth (Z.to_nat r) cell_entries O) <> 0
              /\ Forall (fun c => duplicates_of qs c = 0)
                        (take (Z.to_nat r) cell_entries)))).
  { induction n as [|n IH]; intros Hn.
    - exists (-1). split; [done|]. left. split; [done|]. rewrite take_0.
      apply Forall_nil_2.
    - destruct (IH ltac:(lia)) as (r & Hrun & Hr).
      rewrite seq_S, foldM_app, Hrun. cbn [rbind foldM Nat.add].
      destruct Hr as [[-> Hall]|(Hr & Hd & Hall)].
      + cbn [Z.eqb negb]. unfold load. cbn [get_entry].
        destruct (lookup_lt_is_Some_2 cell_entries n ltac:(lia)) as [c Hc].
        rewrite (nth_lookup_Some _ _ O _ Hc).
        destruct (proj1 (Forall_lookup _ _) Hlive n c Hc) as [e He].
        rewrite He. cbn [deref rbind].
        assert (Hdup : duplicates_of qs c = duplicates e)
          by (unfold duplicates_of; by rewrite He).
        destruct (Z.eqb_spec (duplicates e) 0) as [Hz|Hnz]; cbn [negb].
        * exists (-1). split; [done|]. left. split; [done|].
          rewrite (take_S_r _ _ _ Hc). apply Forall_app. split; [done|].
          apply Forall_cons_2; [lia|apply Forall_nil_2].
        * exists (Z.of_nat n). split; [done|]. right.
          rewrite Nat2Z.id, (nth_lookup_Some _ _ O _ Hc).
          split; [lia|]. split; [lia|done].
      + assert ((r =? -1) = false) as -> by (apply Z.eqb_neq; lia).
        cbn [negb]. exists r. split; [done|]. right. split; [lia|done]. }
  destruct (Hloop (length cell_entries) ltac:(lia)) as (r & Hrun & Hr).
  exists r. split; [done|]. rewrite take_ge in Hr by lia. exact Hr.
Qed.

Lemma first_duplicate_least_witness :
  exists r,
    first_duplicate (store stored_state) [0; 2; 3]%nat = Ok r
    /\ ((r = -1
         /\ Forall (fun c => duplicates_of (store stored_state) c = 0)
                   [0; 2; 3]%nat)
        \/ (0 <= r < Z.of_nat (length [0; 2; 3]%nat)
            /\ duplicates_of (store stored_state)
                             (nth (Z.to_nat r) [0; 2; 3]%nat O) <> 0
            /\ Forall (fun c => duplicates_of (store stored_state) c = 0)
                      (take (Z.to_nat r) [0; 2; 3]%nat))).
Proof.
  apply (first_duplicate_least (store stored_state) [0; 2; 3]%nat).
  vm_compute. repeat econstructor.
Defined.
